(** * Counterfactual search of [alibi/explainers/counterfactual/counterfactual.py]

    A shallow embedding of the module and the properties of it that the
    specification states.

    Modelling conventions.
    - Floating-point numbers are idealised as rationals ([Q]); equality of
      computed values is therefore [Qeq] ([==]) wherever a value is the
      result of arithmetic.
    - A Python exception is a value of [exn]; a call that may raise returns a
      [result]. A floating-point result that is no number (the quotient of
      zero by zero) is not followed further: the call ends with [NaN].
    - NumPy arrays are a shape and the row-major list of their elements.
    - The TensorFlow session (the variable [cf] and the slots of the
      optimizer) and NumPy's global random generator are explicit state. *)

From Stdlib Require Import String.
From Stdlib Require Import List ZArith QArith Qabs Lia Bool Arith.
From Stdlib Require Import Permutation Sorted Lqa.
Import ListNotations.

Set Implicit Arguments.

(** ** Python exceptions *)

Inductive exn : Type :=
| AssertionError
| IndexError
| KeyError
| TypeError
| ValueError.

(** What a call ends with when it gives no value: an exception, or [NaN]
    where NumPy divides zero by zero, which it does without raising. The
    rationals have no such value, and the model does not follow a run beyond
    the point where one appears. *)
Inductive failure : Type :=
| Exception (e : exn)
| NaN.

Coercion Exception : exn >-> failure.

Inductive result (A : Type) : Type :=
| Ok (a : A)
| Raise (e : failure).

Arguments Ok {A} a.
Arguments Raise {A} e.

Definition rbind {A B : Type} (c : result A) (k : A -> result B) : result B :=
  match c with
  | Ok a => k a
  | Raise e => Raise e
  end.

Declare Scope py_scope.
Delimit Scope py_scope with py.
Notation "x <- c ;; k" := (rbind c (fun x => k))
  (at level 61, c at next level, right associativity) : py_scope.
Notation "c ;;; k" := (rbind c (fun _ => k))
  (at level 61, right associativity) : py_scope.

(** [assert cond] *)
Definition py_assert (cond : bool) : result unit :=
  if cond then Ok tt else Raise AssertionError.

(** ** NumPy arrays *)

Module Np.

Local Open Scope py_scope.

Record ndarray : Type := mk_ndarray { shape : list nat; data : list Q }.

(** Number of elements of an array of the given shape. *)
Definition size_of (s : list nat) : nat := fold_right Nat.mul 1%nat s.

(** [a.shape[i]] *)
Definition shape_at (a : ndarray) (i : nat) : result nat :=
  match nth_error (shape a) i with
  | Some n => Ok n
  | None => Raise IndexError
  end.

Fixpoint shape_eqb (s t : list nat) : bool :=
  match s, t with
  | [], [] => true
  | a :: s', b :: t' => (a =? b)%nat && shape_eqb s' t'
  | _, _ => false
  end.

(** [chunks size n d]: the [n] consecutive blocks of [size] elements of [d]. *)
Fixpoint chunks (size n : nat) (d : list Q) : list (list Q) :=
  match n with
  | O => []
  | S n' => firstn size d :: chunks size n' (skipn size d)
  end.

(** Broadcasting of two shapes of the same rank. *)
Fixpoint broadcast_shapes (s t : list nat) : option (list nat) :=
  match s, t with
  | [], [] => Some []
  | a :: s', b :: t' =>
      match broadcast_shapes s' t' with
      | None => None
      | Some r =>
          if (a =? b)%nat then Some (a :: r)
          else if (a =? 1)%nat then Some (b :: r)
          else if (b =? 1)%nat then Some (a :: r)
          else None
      end
  | _, _ => None
  end.

(** A shape of lower rank is completed with leading axes of length one. *)
Definition pad_shape (k : nat) (s : list nat) : list nat :=
  repeat 1%nat (k - length s) ++ s.

(** Elements of an array of shape [s] viewed with the shape [t] it
    broadcasts to: an axis of length one is repeated. *)
Fixpoint broadcast_to (s t : list nat) (d : list Q) : list Q :=
  match s, t with
  | a :: s', b :: t' =>
      let rows := map (broadcast_to s' t') (chunks (size_of s') a d) in
      if (a =? b)%nat then concat rows
      else concat (repeat (hd [] rows) b)
  | _, _ => d
  end.

Fixpoint zip_with (f : Q -> Q -> Q) (u v : list Q) : list Q :=
  match u, v with
  | x :: u', y :: v' => f x y :: zip_with f u' v'
  | _, _ => []
  end.

(** [a - b] *)
Definition subtract (a b : ndarray) : result ndarray :=
  let k := Nat.max (length (shape a)) (length (shape b)) in
  let sa := pad_shape k (shape a) in
  let sb := pad_shape k (shape b) in
  match broadcast_shapes sa sb with
  | None => Raise ValueError
  | Some t =>
      Ok {| shape := t;
            data := zip_with Qminus (broadcast_to sa t (data a))
                                    (broadcast_to sb t (data b)) |}
  end.

(** [np.abs(a)] *)
Definition abs (a : ndarray) : ndarray :=
  {| shape := shape a; data := map Qabs (data a) |}.

Definition Qsum (l : list Q) : Q := fold_right Qplus 0 l.

(** [a.sum(axis=tuple(np.arange(1, a.ndim)))]: every axis but the first is
    reduced. In [cityblock_batch] the array summed has as many axes as [X]
    on both branches of the shape test, so [np.arange(1, X_dim)] names all
    its axes but the first. *)
Definition sum_trailing_axes (a : ndarray) : ndarray :=
  match shape a with
  | [] => a
  | n :: rest =>
      {| shape := [n]; data := map Qsum (chunks (size_of rest) n (data a)) |}
  end.

(** [a.reshape(n, -1)]: the second length is inferred from the size; NumPy
    raises [ValueError] when it cannot be ([n] is zero or does not divide
    the size). *)
Definition reshape_rows (n : nat) (a : ndarray) : result ndarray :=
  let sz := size_of (shape a) in
  if (n =? 0)%nat then Raise ValueError
  else if (sz mod n =? 0)%nat
       then Ok {| shape := [n; (sz / n)%nat]; data := data a |}
       else Raise ValueError.

End Np.

(** ** Distance module *)

Local Open Scope py_scope.

Definition cityblock_batch (X y : Np.ndarray) : result Np.ndarray :=
  let X_dim := length (Np.shape X) in
  let y_dim := length (Np.shape y) in
  (if (X_dim =? y_dim)%nat
   then y0 <- Np.shape_at y 0 ;; py_assert (y0 =? 1)%nat
   else py_assert (Np.shape_eqb (tl (Np.shape X)) (Np.shape y))) ;;;
  d <- Np.subtract X y ;;
  x0 <- Np.shape_at X 0 ;;
  Np.reshape_rows x0 (Np.sum_trailing_axes (Np.abs d)).

(** [scipy.spatial.distance.cityblock], the entry ['l1'] of [_metric_dict]:
    both arguments are squeezed to one axis, then [abs(u - v).sum()]. Two
    vectors of different lengths broadcast only when one of them has a single
    element. *)
Definition vec : Type := list Q.

Definition cityblock (u v : vec) : result Q :=
  let n := length u in
  let m := length v in
  if (n =? m)%nat then Ok (Np.Qsum (map Qabs (Np.zip_with Qminus u v)))
  else if (n =? 1)%nat
       then Ok (Np.Qsum (map Qabs (Np.zip_with Qminus (repeat (hd 0 u) m) v)))
  else if (m =? 1)%nat
       then Ok (Np.Qsum (map Qabs (Np.zip_with Qminus u (repeat (hd 0 v) n))))
  else Raise ValueError.

(** [_metric_dict[name]] *)
Definition _metric_dict (name : string) : result (vec -> vec -> result Q) :=
  if String.eqb name "l1" then Ok cityblock else Raise KeyError.

(** ** Target-function selector *)

(** A target class is a Python [Union[str, int]]. *)
Inductive target : Type :=
| TStr (s : string)
| TInt (k : Z).

Definition target_eqb (a b : target) : bool :=
  match a, b with
  | TStr s, TStr t => String.eqb s t
  | TInt j, TInt k => (j =? k)%Z
  | _, _ => false
  end.

(** A 2-D array of class probabilities, one row per instance of the batch. *)
Definition matrix : Type := list (list Q).

(** [row[k]] for a Python integer [k]: a negative index counts from the end. *)
Definition index (row : list Q) (k : Z) : result Q :=
  let n := Z.of_nat (length row) in
  if ((0 <=? k) && (k <? n))%Z then
    match nth_error row (Z.to_nat k) with Some p => Ok p | None => Raise IndexError end
  else if ((- n <=? k) && (k <? 0))%Z then
    match nth_error row (Z.to_nat (k + n)) with Some p => Ok p | None => Raise IndexError end
  else Raise IndexError.

Fixpoint map_result {A B : Type} (f : A -> result B) (l : list A) : result (list B) :=
  match l with
  | [] => Ok []
  | a :: l' => b <- f a ;; bs <- map_result f l' ;; Ok (b :: bs)
  end.

(** [probas[:, t]]: NumPy accepts an integer index and rejects a string with
    [IndexError]. *)
Definition column (probas : matrix) (t : target) : result (list Q) :=
  match t with
  | TStr _ => Raise IndexError
  | TInt k => map_result (fun row => index row k) probas
  end.

(** [np.argsort] of one row: positions in increasing order of value, the
    earlier position first among equal values. *)
Fixpoint insert_by_value (x : Q * nat) (l : list (Q * nat)) : list (Q * nat) :=
  match l with
  | [] => [x]
  | y :: l' =>
      if Qle_bool (fst y) (fst x) then y :: insert_by_value x l' else x :: l
  end.

Definition sort_pairs (l : list (Q * nat)) : list (Q * nat) :=
  fold_left (fun acc x => insert_by_value x acc) l [].

(** The values of a row, each with its position. *)
Definition indexed (row : list Q) : list (Q * nat) :=
  combine row (seq 0 (length row)).

Definition argsort (row : list Q) : list nat :=
  map snd (sort_pairs (indexed row)).

(** The order [sort_pairs] sorts by. *)
Definition by_value (a b : Q * nat) : Prop := fst a <= fst b.

(** [sorted[i, j]] *)
Definition index2 (sorted : list (list nat)) (i j : nat) : result nat :=
  match nth_error sorted i with
  | None => Raise IndexError
  | Some row =>
      match nth_error row j with
      | None => Raise IndexError
      | Some c => Ok c
      end
  end.

Section Selector.

(** The batch type is whatever [predict_fn] accepts. *)
Variable input : Type.
Variable predict_fn : input -> matrix.

(** The class that the inner [func] of the ['other'] branch selects for
    the probabilities of one call. *)
Definition other_target (pred_class : Z) (probas : matrix) : result nat :=
  let sorted := map (fun row => argsort (map Qopp row)) probas in
  s00 <- index2 sorted 0 0 ;;
  if (Z.of_nat s00 =? pred_class)%Z then index2 sorted 0 1 else Ok s00.

Definition other_func (pred_class : Z) (X : input) : result (list Q) :=
  let probas := predict_fn X in
  target_class <- other_target pred_class probas ;;
  column (predict_fn X) (TInt (Z.of_nat target_class)).

Definition _define_func (pred_class : Z) (target_class : target)
  : (input -> result (list Q)) * target :=
  if target_eqb target_class (TStr "other") then
    (other_func pred_class, target_class)
  else
    let target_class :=
      if target_eqb target_class (TStr "same") then TInt pred_class
      else target_class in
    (fun X => column (predict_fn X) target_class, target_class).

End Selector.

(** ** Numerical gradient *)

(** The [epsilon] argument of [statsmodels.tools.numdiff.approx_fprime]:
    [None], one number, or one number per coordinate. *)
Inductive step_size : Type :=
| StepNone
| StepScalar (h : Q)
| StepArray (h : list Q).

(** [EPS ** (1/3)] for the machine epsilon [EPS = 2 ** -52], to twelve
    significant digits. *)
Definition EPS_cbrt : Q := 605545445239 # 100000000000000000.

Definition Qmax (a b : Q) : Q := if Qle_bool a b then b else a.

Definition _get_epsilon (x : vec) (epsilon : step_size) : result vec :=
  match epsilon with
  | StepNone => Ok (map (fun xi => EPS_cbrt * Qmax (Qabs xi) (1 # 10)) x)
  | StepScalar h => Ok (repeat h (length x))
  | StepArray h =>
      if (length h =? length x)%nat then Ok h else Raise ValueError
  end.

Definition vadd (u v : vec) : vec := Np.zip_with Qplus u v.
Definition vsub (u v : vec) : vec := Np.zip_with Qminus u v.
Definition vscale (c : Q) (v : vec) : vec := map (Qmult c) v.

(** The vector [ei] of [approx_fprime] with [ei[k] = h]. *)
Definition ei (n k : nat) (h : Q) : vec :=
  map (fun i => if (i =? k)%nat then h else 0) (seq 0 n).

(** The point a gradient is taken at: an array of one axis, or an array
    without axes, which is what [squeeze] makes of a row of a single
    feature. A list stands for the array of one axis. *)
Inductive squeezed : Type :=
| Scalar (x : Q)
| Vector (v : list Q).

#[warning="-uniform-inheritance"]
Coercion Vector : list >-> squeezed.

(** [X.squeeze()] of one row of features, whether its shape is [(F,)] or
    [(1, F)]. *)
Definition squeeze (X : vec) : squeezed :=
  match X with
  | [x] => Scalar x
  | _ => Vector X
  end.

(** [a / b] on floating-point arrays where [a] is zero whenever [b] is:
    NumPy gives [nan] for zero by zero. *)
Definition divide (a b : Q) : result Q :=
  if Qeq_bool b 0 then Raise NaN else Ok (a / b).

(** [approx_fprime(x, f, epsilon=epsilon, centered=True)] for a scalar [f].
    Its first statement is [n = len(x)], which raises [TypeError] for an
    array without axes. With a step of zero the function is evaluated twice
    at [x] and the difference, zero, is divided by zero. *)
Definition approx_fprime (x : squeezed) (f : vec -> result Q)
    (epsilon : step_size) : result vec :=
  match x with
  | Scalar _ => Raise TypeError
  | Vector x =>
      let n := length x in
      f x ;;;
      h <- _get_epsilon x epsilon ;;
      let epsilon := map (fun e => e / 2) h in
      map_result
        (fun k =>
           let e := nth k epsilon 0 in
           fp <- f (vadd x (ei n k e)) ;;
           fm <- f (vsub x (ei n k e)) ;;
           divide (fp - fm) (2 * e))
        (seq 0 n)
  end.

(** [num_grad(func, X, args, epsilon)]; the extra arguments [args] are part
    of the closure [func]. *)
Definition num_grad (func : vec -> result Q) (X : squeezed)
    (epsilon : step_size) : result vec :=
  approx_fprime X func epsilon.

(** ** Loss and gradient assembler *)

(** The [epsilons] of the explainer: [None], a Python [float] or an array. *)
Inductive epsilons_t : Type :=
| EpsNone
| EpsFloat (e : Q)
| EpsArray (a : list Q).

Definition get_wachter_grads
    (X_current : vec) (predict_class_fn : vec -> result Q)
    (distance_fn : vec -> vec -> result Q) (X_test : vec)
    (target_proba lam : Q) (epsilons : epsilons_t) (method : string)
  : result (Q * vec) :=
  let eps := match epsilons with EpsFloat e => StepScalar e | _ => StepNone end in
  pred <- predict_class_fn X_current ;;
  prediction_grad <- num_grad predict_class_fn (squeeze X_current) eps ;;
  distance_grad <- num_grad (fun x => distance_fn x X_test)
                     (squeeze X_current) eps ;;
  if String.eqb method "wachter" then
    d <- distance_fn X_current X_test ;;
    Ok (lam * (pred - target_proba) ^ 2 + d,
        vadd (vscale (2 * lam * (pred - target_proba)) prediction_grad)
             distance_grad)
  else if String.eqb method "wachter_rev" then
    d <- distance_fn X_current X_test ;;
    Ok ((pred - target_proba) ^ 2 + lam * d,
        vadd (vscale (2 * (pred - target_proba)) prediction_grad)
             (vscale lam distance_grad))
  else if String.eqb method "adiabatic" then
    d <- distance_fn X_current X_test ;;
    Ok (lam * (pred - target_proba) ^ 2 + (1 - lam) * d,
        vadd (vscale (2 * lam * (pred - target_proba)) prediction_grad)
             (vscale (1 - lam) distance_grad))
  else Raise ValueError.

(** ** Search controller *)

(** The optimizer capability ([tf.train.AdamOptimizer] in the source): from
    its slots, a gradient and the value of the variable, one application of
    [apply_gradients] gives the new slots and the updated variable. *)
Class Optimizer (O : Type) : Type :=
  { apply_gradients : O -> vec -> vec -> O * vec }.

(** NumPy's global random generator: [np.random.rand] for a shape. *)
Class RandomState (G : Type) : Type :=
  { rand : G -> list nat -> vec * G }.

(** The explainer object after [__init__]. The instance is one row of
    features, of shape [(F,)] or [(1, F)], kept as the list of its elements;
    [predict_fn] is the black-box predictor and gives the row of class
    probabilities of an instance. [data_shape] is the shape of the variable
    [cf] and of the placeholder that the gradient is fed to. *)
Record CounterFactual : Type := mk_CounterFactual {
  predict_fn : vec -> list Q;
  data_shape : list nat;
  distance_fn : vec -> vec -> result Q;
  target_proba : Q;
  target_class : target;
  max_iter : nat;
  lam_init : Q;
  lam_step : Q;
  max_lam_steps : nat;
  tol : Q;
  feature_range : Q * Q;
  epsilons : epsilons_t;
  method : string;
  init : string
}.

(** [CounterFactual.__init__]: the distance metric is looked up in the
    registry, every other argument is stored. *)
Definition CounterFactual_init
    (predict_fn : vec -> list Q) (data_shape : list nat) (distance_fn : string)
    (target_proba : Q) (target_class : target) (max_iter : nat)
    (lam_init lam_step : Q) (max_lam_steps : nat) (tol : Q)
    (feature_range : Q * Q) (epsilons : epsilons_t) (method init : string)
  : result CounterFactual :=
  d <- _metric_dict distance_fn ;;
  Ok (mk_CounterFactual predict_fn data_shape d target_proba target_class
        max_iter lam_init lam_step max_lam_steps tol feature_range epsilons
        method init).

(** [self.predict_fn = lambda x: predict_fn(x.reshape(1, -1))] *)
Definition self_predict_fn (self : CounterFactual) (x : vec) : matrix :=
  [predict_fn self x].

(** The dictionary that [explain] returns. *)
Record explanation : Type := mk_explanation {
  X_cf : vec;
  loss : list Q;
  grads : list vec;
  dists : list Q;
  Xs : list vec;
  lambdas : list Q;
  prob_cond : list bool;
  prob : list Q;
  classes : list nat;
  success : bool
}.

Definition set_X_cf (d : explanation) (x : vec) : explanation :=
  mk_explanation x (loss d) (grads d) (dists d) (Xs d) (lambdas d)
    (prob_cond d) (prob d) (classes d) (success d).

Definition set_success (d : explanation) (b : bool) : explanation :=
  mk_explanation (X_cf d) (loss d) (grads d) (dists d) (Xs d) (lambdas d)
    (prob_cond d) (prob d) (classes d) b.

(** The eight [append] calls of one inner iteration. *)
Definition append_step (d : explanation) (x : vec) (l : Q) (g : vec) (dist lam : Q)
    (c : bool) (p : Q) (cls : nat) : explanation :=
  mk_explanation (X_cf d) (loss d ++ [l]) (grads d ++ [g]) (dists d ++ [dist])
    (Xs d ++ [x]) (lambdas d ++ [lam]) (prob_cond d ++ [c]) (prob d ++ [p])
    (classes d ++ [cls]) (success d).

(** [probas.argmax()] and [probas.max()] of a flattened array. *)
Fixpoint argmax_from (best : Q) (besti i : nat) (l : list Q) : nat :=
  match l with
  | [] => besti
  | x :: l' =>
      if Qle_bool x best then argmax_from best besti (S i) l'
      else argmax_from x i (S i) l'
  end.

Definition argmax (l : list Q) : result nat :=
  match l with
  | [] => Raise ValueError
  | x :: l' => Ok (argmax_from x 0%nat 1%nat l')
  end.

Definition amax (l : list Q) : result Q :=
  match l with
  | [] => Raise ValueError
  | x :: l' => Ok (fold_left Qmax l' x)
  end.

(** The value of an array of shape [(1,)]. *)
Definition as_scalar (a : list Q) : result Q :=
  match a with
  | [p] => Ok p
  | _ => Raise ValueError
  end.

Definition Qmin (a b : Q) : Q := if Qle_bool a b then a else b.

(** [tf.clip_by_value(x, lo, hi)]: the minimum with [hi] first, then the
    maximum with [lo]. *)
Definition clip_by_value (x : vec) (range : Q * Q) : vec :=
  map (fun v => Qmax (Qmin v (snd range)) (fst range)) x.

Section Explainer.

Context {Slots Gen : Type} {optimizer : Optimizer Slots}
        {random : RandomState Gen}.

(** The part of the TensorFlow session that [explain] reads and writes:
    the variable [cf] and the slots of the optimizer. *)
Record session : Type := mk_session { cf : vec; slots : Slots }.

Record world : Type := mk_world { sess : session; rng : Gen }.

(** A computation reads and writes the world and may raise; what it wrote
    before raising stays written. *)
Definition M (A : Type) : Type := world -> result A * world.

Definition mret {A : Type} (a : A) : M A := fun w => (Ok a, w).

Definition mbind {A B : Type} (c : M A) (k : A -> M B) : M B :=
  fun w =>
    match c w with
    | (Ok a, w') => k a w'
    | (Raise e, w') => (Raise e, w')
    end.

Definition lift {A : Type} (r : result A) : M A := fun w => (r, w).

Declare Scope m_scope.
Notation "x <- c ;; k" := (mbind c (fun x => k))
  (at level 61, c at next level, right associativity) : m_scope.
Notation "c ;;; k" := (mbind c (fun _ => k))
  (at level 61, right associativity) : m_scope.
Local Open Scope m_scope.

(** [self.sess.run(self.apply_grad, feed_dict={self.grad_ph: gradients})].
    The placeholder [grad_ph] has the shape [data_shape], and the session
    refuses a value of another shape with [ValueError] before it runs
    anything; the gradient of [get_wachter_grads] is an array of one axis.
    Then the optimizer updates the variable [cf], and the constraint of the
    variable clips it to the feature range. *)
Definition run_apply_grad (self : CounterFactual) (gradients : vec) : M unit :=
  fun w =>
    if Np.shape_eqb (data_shape self) [length gradients] then
      let (o, v) := apply_gradients (slots (sess w)) gradients (cf (sess w)) in
      (Ok tt, mk_world (mk_session (clip_by_value v (feature_range self)) o)
                       (rng w))
    else (Raise ValueError, w).

(** [self.sess.run(self.cf)] *)
Definition run_cf : M vec := fun w => (Ok (cf (sess w)), w).

Definition _initialize (self : CounterFactual) (X : vec) : M vec :=
  if String.eqb (init self) "identity" then mret X
  else if String.eqb (init self) "random" then
    fun w =>
      let (X_init, g) := rand (rng w) (data_shape self) in
      (Ok X_init, mk_world (sess w) g)
  else lift (Raise ValueError).

Section Search.

Variable self : CounterFactual.
(** [self.predict_class_fn], set by [explain]. *)
Variable predict_class_fn : vec -> result Q.

Definition _prob_condition (X_current : vec) : result bool :=
  (p <- predict_class_fn X_current ;;
   Ok (Qle_bool (Qabs (p - target_proba self)) (tol self)))%py.

(** One iteration of the inner [for] loop. *)
Definition inner_step (X : vec) (lam : Q) (st : vec * explanation)
  : M (vec * explanation) :=
  let (X_current, return_dict) := st in
  lg <- lift (get_wachter_grads X_current predict_class_fn
                (distance_fn self) X (target_proba self) lam
                (epsilons self) (method self)) ;;
  let (loss, gradients) := (lg : Q * vec) in
  run_apply_grad self gradients ;;;
  X_current <- run_cf ;;
  dist <- lift (distance_fn self X X_current) ;;
  cond <- lift (_prob_condition X_current) ;;
  let probas := self_predict_fn self X_current in
  pred_class <- lift (argmax (concat probas)) ;;
  p <- lift (amax (concat probas)) ;;
  mret (X_current,
        append_step return_dict X_current loss gradients dist lam cond p
          pred_class).

Fixpoint inner_loop (n : nat) (X : vec) (lam : Q) (st : vec * explanation)
  : M (vec * explanation) :=
  match n with
  | O => mret st
  | S n' => st' <- inner_step X lam st ;; inner_loop n' X lam st'
  end.

(** The local variables of [_minimize_wachter_loss] across outer
    iterations. *)
Record frame : Type := mk_frame {
  lam : Q;
  lam_steps : nat;
  X_current : vec;
  return_dict : explanation
}.

(** How the outer [for] loop is left: by the [return] inside it, or by
    running out of iterations. *)
Inductive exit : Type :=
| Returned (d : explanation)
| Exhausted (f : frame).

Fixpoint outer_loop (n : nat) (X : vec) (f : frame) : M exit :=
  match n with
  | O => mret (Exhausted f)
  | S n' =>
      if (lam_steps f =? max_lam_steps self)%nat then
        mret (Returned (return_dict f))
      else
        st <- inner_loop (max_iter self) X (lam f)
                (X_current f, return_dict f) ;;
        let (X_current, return_dict) := (st : vec * explanation) in
        outer_loop n' X
          (mk_frame (lam f * lam_step self) (S (lam_steps f)) X_current
             (set_X_cf return_dict X_current))
  end.

Definition _minimize_wachter_loss (X X_init : vec) : M explanation :=
  let initial := mk_explanation X_init [] [] [] [] [] [] [] [] false in
  e <- outer_loop (max_lam_steps self) X
         (mk_frame (lam_init self) 0 X_init initial) ;;
  match e with
  | Returned d => mret d
  | Exhausted f => mret (set_success (return_dict f) true)
  end.

End Search.

(** The class-specific prediction function [explain] stores in
    [self.predict_class_fn], read as a number: the batch has one row. *)
Definition class_fn (self : CounterFactual) (pred_class : Z) (x : vec)
  : result Q :=
  (r <- fst (_define_func (self_predict_fn self) pred_class
               (target_class self)) x ;;
   as_scalar r)%py.

Definition explain (self : CounterFactual) (X : vec) : M explanation :=
  let probas := self_predict_fn self X in
  pred_class <- lift (argmax (concat probas)) ;;
  X_init <- _initialize self X ;;
  _minimize_wachter_loss self (class_fn self (Z.of_nat pred_class)) X X_init.

End Explainer.

Arguments session : clear implicits.
Arguments world : clear implicits.
Arguments M : clear implicits.

(** ** Two capabilities to run the search on *)

(** Plain gradient descent with a fixed learning rate; its only slot is the
    step counter. *)
Definition gradient_descent (lr : Q) : Optimizer nat :=
  {| apply_gradients := fun step g v => (S step, vsub v (vscale lr g)) |}.

(** A generator that hands out the numbers of a fixed list in turn. *)
Definition replay : RandomState (list Q) :=
  {| rand := fun g shape =>
       let n := Np.size_of shape in (firstn n g, skipn n g) |}.

(** Equality of vectors up to the representation of each rational. *)
Definition veq (u v : vec) : Prop := Forall2 Qeq u v.

(** ** Inputs the properties are evaluated on *)

(** The probabilities of the two examples of the specification. *)
Definition probas_a : matrix := [[1 # 10; 7 # 10; 2 # 10]].
Definition probas_b : matrix := [[6 # 10; 3 # 10; 1 # 10]].

(** A predictor that ranks the classes differently on two inputs. *)
Definition two_rankings (X : bool) : matrix :=
  if X then probas_a else probas_b.

(** Every sequence of the history has [n] entries. *)
Definition history_length (d : explanation) (n : nat) : Prop :=
  length (Xs d) = n /\ length (loss d) = n /\ length (grads d) = n /\
  length (dists d) = n /\ length (lambdas d) = n /\
  length (prob_cond d) = n /\ length (prob d) = n /\ length (classes d) = n.

(** A predictor that gives both classes the probability one half on every
    instance, so that the prediction term of the gradient vanishes and the
    target probability 0.9 is never within the tolerance. *)
Definition flat_predictor (x : vec) : list Q := [1 # 2; 1 # 2].

(** An explainer on two features, with [data_shape = (2,)] and the identity
    initializer, [n] inner iterations and [m] outer steps. *)
Definition flat_explainer (n m : nat) : CounterFactual :=
  mk_CounterFactual flat_predictor [2]%nat cityblock (9 # 10) (TStr "other")
    n (1 # 100) (1 # 1000) m (5 # 100) (-10, 10) (EpsFloat (1 # 2))
    "wachter" "identity".

(** A session whose variable [cf] holds [0.5, 0.5] and whose optimizer has
    made no step. *)
Definition fresh_world : world nat (list Q) :=
  mk_world (mk_session [1 # 2; 1 # 2] 0%nat) [].

(** [explain] with gradient descent of learning rate 0.1. *)
Definition explain_gd (self : CounterFactual) (X : vec)
  : M nat (list Q) explanation :=
  @explain nat (list Q) (gradient_descent (1 # 10)) replay self X.

(** The result and the world a run leaves, where it returns. *)
Definition returned {W : Type} (run : result explanation * W)
  : option (explanation * W) :=
  match run with
  | (Ok r, w) => Some (r, w)
  | (Raise _, _) => None
  end.

(** Two runs kept as values: two inner iterations in one outer step, and one
    inner iteration in each of two outer steps. *)
Definition flat_run_2_1 : option (explanation * world nat (list Q)) :=
  Eval vm_compute in
    returned (explain_gd (flat_explainer 2 1) [2; 3] fresh_world).

Definition flat_run_1_2 : option (explanation * world nat (list Q)) :=
  Eval vm_compute in
    returned (explain_gd (flat_explainer 1 2) [2; 3] fresh_world).

(** ** Vocabulary of the further properties *)

(** Every coordinate of [x] lies between the two bounds. *)
Definition within (range : Q * Q) (x : vec) : Prop :=
  Forall (fun v => fst range <= v /\ v <= snd range) x.

(** The value of [lam] after [i] executions of [lam *= self.lam_step]. *)
Fixpoint lam_at (self : CounterFactual) (i : nat) : Q :=
  match i with
  | O => lam_init self
  | S i' => lam_at self i' * lam_step self
  end.

(** The [lambdas] of [n] outer steps: each value [max_iter] times. *)
Definition lam_schedule (self : CounterFactual) (n : nat) : list Q :=
  flat_map (fun i => repeat (lam_at self i) (max_iter self)) (seq 0 n).

(** ** Batched numerical gradient *)

(** What a computation with a division gives: a value, an exception, or no
    finite number at all. Where a Python [float] is divided by the integer
    zero Python raises [ZeroDivisionError], and where an array is divided by
    zero NumPy fills in infinities or NaN; neither is a rational result. *)
Inductive outcome (A : Type) : Type :=
| Value (a : A)
| Except (e : exn)
| NotFinite.

Arguments Value {A} a.
Arguments Except {A} e.
Arguments NotFinite {A}.

Definition obind {A B : Type} (c : outcome A) (k : A -> outcome B)
  : outcome B :=
  match c with
  | Value a => k a
  | Except e => Except e
  | NotFinite => NotFinite
  end.

Definition of_result {A : Type} (r : result A) : outcome A :=
  match r with
  | Ok a => Value a
  | Raise (Exception e) => Except e
  | Raise NaN => NotFinite
  end.

Declare Scope outcome_scope.
Delimit Scope outcome_scope with outcome.
Notation "x <- c ;; k" := (obind c (fun x => k))
  (at level 61, c at next level, right associativity) : outcome_scope.

(** The step [eps] of the batched gradient: a Python [float], or an array
    with one axis that holds a step for each feature. *)
Inductive eps_t : Type :=
| EpsNumber (e : Q)
| EpsFeatures (a : list Q).

(** An elementwise operation of two arrays, with broadcasting. *)
Definition broadcast_op (f : Q -> Q -> Q) (a b : Np.ndarray)
  : result Np.ndarray :=
  let k := Nat.max (length (Np.shape a)) (length (Np.shape b)) in
  let sa := Np.pad_shape k (Np.shape a) in
  let sb := Np.pad_shape k (Np.shape b) in
  match Np.broadcast_shapes sa sb with
  | None => Raise ValueError
  | Some t =>
      Ok {| Np.shape := t;
            Np.data := Np.zip_with f (Np.broadcast_to sa t (Np.data a))
                                     (Np.broadcast_to sb t (Np.data b)) |}
  end.

(** Row [k] of [np.eye(dim)]. *)
Definition eye_row (dim k : nat) : list Q :=
  map (fun j => if (k =? j)%nat then 1 else 0) (seq 0 dim).

(** [np.eye(dim)] *)
Definition eye (dim : nat) : Np.ndarray :=
  {| Np.shape := [dim; dim];
     Np.data := flat_map (eye_row dim) (seq 0 dim) |}.

(** [np.eye(dim) - np.ones((dim, dim))] *)
Definition eye_minus_ones (dim : nat) : Np.ndarray :=
  {| Np.shape := [dim; dim];
     Np.data := map (fun v => v - 1) (Np.data (eye dim)) |}.

(** [a * eps] *)
Definition times (a : Np.ndarray) (eps : eps_t) : result Np.ndarray :=
  match eps with
  | EpsNumber e =>
      Ok {| Np.shape := Np.shape a;
            Np.data := map (fun v => v * e) (Np.data a) |}
  | EpsFeatures v =>
      broadcast_op Qmult a {| Np.shape := [length v]; Np.data := v |}
  end.

(** [eps / k] for a Python integer [k]; nothing finite when [k] is zero. *)
Definition eps_over (eps : eps_t) (k : Z) : option eps_t :=
  if (k =? 0)%Z then None
  else Some match eps with
            | EpsNumber e => EpsNumber (e / inject_Z k)
            | EpsFeatures v => EpsFeatures (map (fun e => e / inject_Z k) v)
            end.

(** [np.tile(a, (n, 1))] for an array [a] of two axes: [n] copies of [a],
    one below the other. Where [_perturb] tiles, [a] is the product of a
    square matrix and a step, which has two axes. *)
Definition tile_rows (n : nat) (a : Np.ndarray) : Np.ndarray :=
  match Np.shape a with
  | [r; c] => {| Np.shape := [(n * r)%nat; c];
                 Np.data := concat (repeat (Np.data a) n) |}
  | _ => a
  end.

(** [np.repeat(a, k, axis=0)]: every row [k] times in a row. *)
Definition repeat_rows (k : nat) (a : Np.ndarray) : result Np.ndarray :=
  match Np.shape a with
  | [] => Raise ValueError
  | n :: rest =>
      Ok {| Np.shape := (n * k)%nat :: rest;
            Np.data := flat_map (fun row => concat (repeat row k))
                         (Np.chunks (Np.size_of rest) n (Np.data a)) |}
  end.

(** [pert += t]: the sum must have the shape of [pert]. *)
Definition iadd (pert t : Np.ndarray) : result Np.ndarray :=
  r <- broadcast_op Qplus pert t ;;
  if Np.shape_eqb (Np.shape r) (Np.shape pert) then Ok r else Raise ValueError.

(** [np.reshape(a, newshape)] for a shape without [-1]. *)
Definition reshape (a : Np.ndarray) (newshape : list nat) : result Np.ndarray :=
  if (Np.size_of (Np.shape a) =? Np.size_of newshape)%nat
  then Ok {| Np.shape := newshape; Np.data := Np.data a |}
  else Raise ValueError.

Local Open Scope outcome_scope.

Definition _perturb (X : Np.ndarray) (eps : eps_t) (proba : bool)
  : outcome (Np.ndarray * Np.ndarray) :=
  n <- of_result (Np.shape_at X 0) ;;
  X2 <- of_result (Np.reshape_rows n X) ;;
  dim <- of_result (Np.shape_at X2 1) ;;
  block <- of_result (times (eye dim) eps) ;;
  pert <- (if proba then
             match eps_over eps (Z.of_nat dim - 1) with
             | None => NotFinite
             | Some eps_n =>
                 block_n <- of_result (times (eye_minus_ones dim) eps_n) ;;
                 of_result (iadd (tile_rows n block) (tile_rows n block_n))
             end
           else Value (tile_rows n block)) ;;
  X_rep <- of_result (repeat_rows dim X2) ;;
  pos <- of_result (broadcast_op Qplus X_rep pert) ;;
  neg <- of_result (broadcast_op Qminus X_rep pert) ;;
  let shape := (dim * n)%nat :: tl (Np.shape X) in
  X_pert_pos <- of_result (reshape pos shape) ;;
  X_pert_neg <- of_result (reshape neg shape) ;;
  Value (X_pert_pos, X_pert_neg).

(** [np.concatenate([a, b], axis=0)] *)
Definition concatenate (a b : Np.ndarray) : result Np.ndarray :=
  match Np.shape a, Np.shape b with
  | ra :: sa, rb :: sb =>
      if Np.shape_eqb sa sb
      then Ok {| Np.shape := (ra + rb)%nat :: sa;
                 Np.data := Np.data a ++ Np.data b |}
      else Raise ValueError
  | _, _ => Raise ValueError
  end.

(** [a[:k]] and [a[k:]] *)
Definition rows_before (k : nat) (a : Np.ndarray) : result Np.ndarray :=
  match Np.shape a with
  | [] => Raise IndexError
  | r :: rest =>
      Ok {| Np.shape := Nat.min k r :: rest;
            Np.data := firstn (Nat.min k r * Np.size_of rest) (Np.data a) |}
  end.

Definition rows_from (k : nat) (a : Np.ndarray) : result Np.ndarray :=
  match Np.shape a with
  | [] => Raise IndexError
  | r :: rest =>
      Ok {| Np.shape := (r - k)%nat :: rest;
            Np.data := skipn (Nat.min k r * Np.size_of rest) (Np.data a) |}
  end.

(** [np.reshape(a, (n, P, -1), order='F')] for an array [a] of shape
    [(n, M)]: in Fortran order the first index runs fastest, so the element
    [[i, p, k]] of the result is the element [[i, p + P * k]] of [a]. *)
Definition reshape_F (n P : nat) (a : Np.ndarray) : result Np.ndarray :=
  let sz := Np.size_of (Np.shape a) in
  if ((n * P =? 0) || negb (sz mod (n * P) =? 0))%nat then Raise ValueError
  else
    let K := (sz / (n * P))%nat in
    Ok {| Np.shape := [n; P; K];
          Np.data :=
            flat_map
              (fun row =>
                 flat_map
                   (fun p => map (fun k => nth (p + P * k) row 0) (seq 0 K))
                   (seq 0 P))
              (Np.chunks (sz / n) n (Np.data a)) |}.

(** [b / (2 * eps)]; nothing finite when a step that divides is zero. *)
Definition over_twice (b : Np.ndarray) (eps : eps_t) : outcome Np.ndarray :=
  match eps with
  | EpsNumber e =>
      match Np.data b with
      | [] => Value b
      | _ :: _ =>
          if Qeq_bool (2 * e) 0 then NotFinite
          else Value {| Np.shape := Np.shape b;
                        Np.data := map (fun v => v / (2 * e)) (Np.data b) |}
      end
  | EpsFeatures v =>
      r <- of_result (broadcast_op Qdiv b
                        {| Np.shape := [length v];
                           Np.data := map (Qmult 2) v |}) ;;
      match Np.data r with
      | [] => Value r
      | _ :: _ =>
          if existsb (fun e => Qeq_bool (2 * e) 0) v then NotFinite
          else Value r
      end
  end.

Definition num_grad_batch (func : Np.ndarray -> result Np.ndarray)
    (X : Np.ndarray) (eps : eps_t) : outcome Np.ndarray :=
  batch_size <- of_result (Np.shape_at X 0) ;;
  data_shape <- of_result (if (batch_size =? 0)%nat then Raise IndexError
                           else Ok (tl (Np.shape X))) ;;
  preds <- of_result (func X) ;;
  perturbed <- _perturb X eps false ;;
  let (X_pert_pos, X_pert_neg) := (perturbed : Np.ndarray * Np.ndarray) in
  X_pert <- of_result (concatenate X_pert_pos X_pert_neg) ;;
  preds_concat <- of_result (func X_pert) ;;
  n_pert <- of_result (Np.shape_at X_pert_pos 0) ;;
  top <- of_result (rows_before n_pert preds_concat) ;;
  bottom <- of_result (rows_from n_pert preds_concat) ;;
  grad_numerator <- of_result (Np.subtract top bottom) ;;
  flat <- of_result (Np.reshape_rows batch_size grad_numerator) ;;
  P <- of_result (Np.shape_at preds 1) ;;
  grad_numerator <- of_result (reshape_F batch_size P flat) ;;
  grad <- over_twice grad_numerator eps ;;
  of_result (reshape grad (Np.shape preds ++ data_shape)).

Local Close Scope outcome_scope.

(** A prediction function that works row by row: [g] on each row of [F]
    numbers. *)
Definition by_row (F P : nat) (g : list Q -> list Q) (A : Np.ndarray)
  : result Np.ndarray :=
  match Np.shape A with
  | [] => Raise IndexError
  | r :: _ =>
      Ok {| Np.shape := [r; P];
            Np.data := flat_map g (Np.chunks F r (Np.data A)) |}
  end.

(** A row with the step [e] applied by [f] at coordinate [k] alone: the other
    coordinates meet [0 * e]. *)
Definition moved (f : Q -> Q -> Q) (e : Q) (row : list Q) (k : nat) : list Q :=
  Np.zip_with f row (map (fun v => v * e) (eye_row (length row) k)).

(** The row of the perturbation block in probability mode. *)
Definition balance (F : nat) (e : Q) (k : nat) : list Q :=
  Np.zip_with Qplus (map (fun v => v * e) (eye_row F k))
    (map (fun v => v * (e / inject_Z (Z.of_nat F - 1)))
       (map (fun v => v - 1) (eye_row F k))).

(** The centred difference of output [p] of [g] along feature [k] at a row,
    and the differences of all outputs along all features, output by
    output. *)
Definition central_difference (g : list Q -> list Q) (e : Q) (row : list Q)
    (p k : nat) : Q :=
  (nth p (g (moved Qplus e row k)) 0 - nth p (g (moved Qminus e row k)) 0)
  / (2 * e).

Definition jacobian (g : list Q -> list Q) (e : Q) (F P : nat) (row : list Q)
  : list Q :=
  flat_map (fun p => map (central_difference g e row p) (seq 0 F)) (seq 0 P).

(** A row with the steps [v] applied by [f], the step of coordinate [k]
    alone being kept. *)
Definition moved_by (f : Q -> Q -> Q) (v : list Q) (row : list Q) (k : nat)
  : list Q :=
  Np.zip_with f row (Np.zip_with Qmult (eye_row (length row) k) v).

(** Entry [i] of the history of a search for [X] from [X_init] with the
    scalar function [f]: the loss and the gradient are those at the candidate
    before step [i], with the [lam] recorded for the step; the distance, the
    tolerance flag, the class and the probability are those of the candidate
    after it. *)
Definition entry_consistent (self : CounterFactual) (f : vec -> result Q)
    (X X_init : vec) (d : explanation) (i : nat) : Prop :=
  let before := nth i (X_init :: Xs d) [] in
  let after := nth i (Xs d) [] in
  get_wachter_grads before f (distance_fn self) X (target_proba self)
    (nth i (lambdas d) 0) (epsilons self) (method self)
  = Ok (nth i (loss d) 0, nth i (grads d) []) /\
  distance_fn self X after = Ok (nth i (dists d) 0) /\
  _prob_condition self f after = Ok (nth i (prob_cond d) false) /\
  argmax (concat (self_predict_fn self after)) = Ok (nth i (classes d) 0%nat) /\
  amax (concat (self_predict_fn self after)) = Ok (nth i (prob d) 0).

(** What the search keeps true of the current candidate [xc] and the
    history [d]: the candidate is the last one recorded, the eight lists have
    one length, and every entry is consistent. *)
Definition consistent (self : CounterFactual) (f : vec -> result Q)
    (X X_init : vec) (xc : vec) (d : explanation) : Prop :=
  xc = last (Xs d) X_init /\
  history_length d (length (Xs d)) /\
  forall i, (i < length (Xs d))%nat -> entry_consistent self f X X_init d i.

(** * Properties *)

(** ** Distance module *)

Module DistanceFacts.

Import Np.

Lemma chunks_length (size n : nat) (d : list Q) :
  length (chunks size n d) = n.
Proof.
  revert d; induction n as [|n IH]; intros d; simpl; [reflexivity|].
  now rewrite IH.
Qed.



Lemma Qsum_nonneg (l : list Q) : Forall (Qle 0) l -> 0 <= Qsum l.
Proof.
  induction 1 as [|x l Hx _ IH]; simpl.
  - apply Qle_refl.
  - replace 0 with (0 + 0) by reflexivity. now apply Qplus_le_compat.
Qed.


Lemma abs_nonneg (l : list Q) : Forall (Qle 0) (map Qabs l).
Proof.
  induction l; simpl; constructor; auto using Qabs_nonneg.
Qed.




Lemma broadcast_shapes_refl (s : list nat) : broadcast_shapes s s = Some s.
Proof.
  induction s as [|a s IH]; simpl; [reflexivity|].
  now rewrite IH, Nat.eqb_refl.
Qed.

Lemma broadcast_shapes_batch (n : nat) (s : list nat) :
  (0 < n)%nat -> broadcast_shapes (n :: s) (1%nat :: s) = Some (n :: s).
Proof.
  intros Hn. simpl. rewrite broadcast_shapes_refl.
  destruct n as [|[|n]]; [lia| reflexivity | reflexivity].
Qed.

Lemma shape_eqb_refl (s : list nat) : shape_eqb s s = true.
Proof.
  induction s as [|a s IH]; simpl; [reflexivity|].
  now rewrite Nat.eqb_refl.
Qed.

Lemma pad_shape_full (s : list nat) : pad_shape (length s) s = s.
Proof. unfold pad_shape. now rewrite Nat.sub_diag. Qed.

Lemma pad_shape_one (s : list nat) :
  pad_shape (S (length s)) s = 1%nat :: s.
Proof.
  unfold pad_shape.
  replace (S (length s) - length s)%nat with 1%nat by lia. reflexivity.
Qed.

(** The difference of two arrays of compatible shapes has the shape of [X]. *)
Lemma subtract_compatible (X y : ndarray) (n : nat) (s : list nat) :
  shape X = n :: s ->
  (shape y = 1%nat :: s /\ n = 1%nat) \/ (shape y = s /\ (0 < n)%nat) ->
  exists d, subtract X y = Ok d /\ shape d = n :: s.
Proof.
  intros HX [[Hy ->]|[Hy Hn]]; unfold subtract; cbv zeta; rewrite HX, Hy.
  - rewrite Nat.max_id, pad_shape_full, broadcast_shapes_refl.
    eexists; split; reflexivity.
  - replace (Nat.max (length (n :: s)) (length s)) with (length (n :: s))
      by (symmetry; apply Nat.max_l; simpl; lia).
    rewrite pad_shape_full. simpl length.
    rewrite pad_shape_one, (broadcast_shapes_batch s Hn).
    eexists; split; reflexivity.
Qed.

Lemma reshape_rows_column (n : nat) (l : list Q) :
  (0 < n)%nat ->
  reshape_rows n {| shape := [n]; data := l |}
  = Ok {| shape := [n; 1%nat]; data := l |}.
Proof.
  intros Hn. unfold reshape_rows; simpl.
  destruct (Nat.eqb_spec n 0); [lia|].
  rewrite Nat.mul_1_r, Nat.Div0.mod_same, Nat.div_same by lia.
  reflexivity.
Qed.


Lemma reduce_rows (d : ndarray) (n : nat) (s : list nat) :
  shape d = n :: s -> (0 < n)%nat ->
  reshape_rows n (sum_trailing_axes (abs d))
  = Ok {| shape := [n; 1%nat];
          data := map Qsum (chunks (size_of s) n (map Qabs (data d))) |}.
Proof.
  intros Hd Hn. unfold sum_trailing_axes, abs; simpl. rewrite Hd.
  now apply reshape_rows_column.
Qed.

(** With compatible shapes [cityblock_batch] reduces to the row sums of the
    absolute differences. *)
Lemma cityblock_batch_compatible (X y : ndarray) (n : nat) (s : list nat) :
  shape X = n :: s ->
  (shape y = 1%nat :: s /\ n = 1%nat) \/ (shape y = s /\ (0 < n)%nat) ->
  exists d,
    subtract X y = Ok d /\
    cityblock_batch X y
    = Ok {| shape := [n; 1%nat];
            data := map Qsum (chunks (size_of s) n (map Qabs (data d))) |}.
Proof.
  intros HX Hy.
  destruct (subtract_compatible X y HX Hy) as (d & Hd & Hs).
  exists d; split; [exact Hd|].
  assert (Hn : (0 < n)%nat) by (destruct Hy as [[_ ->]|[_ H]]; lia).
  unfold cityblock_batch; cbv zeta.
  rewrite Hd. unfold shape_at. rewrite HX.
  destruct Hy as [[Hy _]|[Hy _]]; rewrite Hy.
  - replace (length (n :: s) =? length (1%nat :: s))%nat with true
      by (symmetry; apply Nat.eqb_refl).
    cbn [nth_error rbind py_assert Nat.eqb].
    now rewrite (reduce_rows d Hs Hn).
  - replace (length (n :: s) =? length s)%nat with false
      by (symmetry; apply Nat.eqb_neq; simpl; lia).
    cbn [tl nth_error]. rewrite shape_eqb_refl.
    cbn [rbind py_assert].
    now rewrite (reduce_rows d Hs Hn).
Qed.

End DistanceFacts.



(** The values on two small inputs, and the empty batch, for which the
    final [reshape] cannot infer the second length. *)
Example cityblock_batch_values :
  cityblock_batch (Np.mk_ndarray [2; 3]%nat [1; 2; 3; 4; 5; 6])
                  (Np.mk_ndarray [3]%nat [1; 1; 1])
  = Ok (Np.mk_ndarray [2; 1]%nat [3; 12]) /\
  cityblock_batch (Np.mk_ndarray [1; 3]%nat [1; 2; 3])
                  (Np.mk_ndarray [1; 3]%nat [1; 1; 1])
  = Ok (Np.mk_ndarray [1; 1]%nat [3]) /\
  cityblock_batch (Np.mk_ndarray [0; 3]%nat [])
                  (Np.mk_ndarray [3]%nat [1; 1; 1])
  = Raise ValueError /\
  cityblock_batch (Np.mk_ndarray [2; 3]%nat [1; 2; 3; 4; 5; 6])
                  (Np.mk_ndarray [2; 3]%nat [1; 2; 3; 4; 5; 6])
  = Raise AssertionError.
Proof. repeat split; vm_compute; reflexivity. Qed.


(** ** Target-function selector *)

Module SelectorFacts.

Lemma insert_perm (x : Q * nat) (l : list (Q * nat)) :
  Permutation (insert_by_value x l) (x :: l).
Proof.
  induction l as [|y l IH]; simpl; [reflexivity|].
  destruct (Qle_bool (fst y) (fst x)); [|reflexivity].
  rewrite IH. apply perm_swap.
Qed.

Lemma insert_sorted (x : Q * nat) (l : list (Q * nat)) :
  StronglySorted by_value l -> StronglySorted by_value (insert_by_value x l).
Proof.
  induction 1 as [|y l Hs IH Hy]; simpl.
  - repeat constructor.
  - destruct (Qle_bool (fst y) (fst x)) eqn:E.
    + constructor; [exact IH|].
      rewrite (insert_perm x l). constructor; [|exact Hy].
      now apply Qle_bool_iff.
    + assert (Hxy : by_value x y).
      { unfold by_value. apply Qlt_le_weak, Qnot_le_lt.
        intros H. apply Qle_bool_iff in H. congruence. }
      constructor; [now constructor|].
      constructor; [exact Hxy|].
      eapply Forall_impl; [|exact Hy].
      intros z Hz. unfold by_value in *. eapply Qle_trans; eauto.
Qed.

Lemma fold_insert_perm (l acc : list (Q * nat)) :
  Permutation (fold_left (fun acc x => insert_by_value x acc) l acc) (l ++ acc).
Proof.
  revert acc; induction l as [|x l IH]; intros acc; simpl; [reflexivity|].
  rewrite IH, insert_perm. symmetry. apply Permutation_middle.
Qed.

Lemma fold_insert_sorted (l acc : list (Q * nat)) :
  StronglySorted by_value acc ->
  StronglySorted by_value (fold_left (fun acc x => insert_by_value x acc) l acc).
Proof.
  revert acc; induction l as [|x l IH]; intros acc H; simpl; [exact H|].
  now apply IH, insert_sorted.
Qed.

Lemma sort_pairs_perm (l : list (Q * nat)) : Permutation (sort_pairs l) l.
Proof. unfold sort_pairs. rewrite fold_insert_perm. now rewrite app_nil_r. Qed.

Lemma sort_pairs_sorted (l : list (Q * nat)) :
  StronglySorted by_value (sort_pairs l).
Proof. apply fold_insert_sorted. constructor. Qed.

(** The pairs of a row with its positions. *)
Lemma in_combine_seq (l : list Q) (a i : nat) (v : Q) :
  In (v, i) (combine l (seq a (length l))) <->
  (a <= i)%nat /\ nth_error l (i - a) = Some v.
Proof.
  revert a; induction l as [|x l IH]; intros a; simpl.
  - split; [tauto|]. intros [_ H]. destruct (i - a)%nat; discriminate.
  - rewrite IH. split.
    + intros [[= -> ->]|[Hle Hn]].
      * split; [lia|]. now rewrite Nat.sub_diag.
      * split; [lia|]. replace (i - a)%nat with (S (i - S a)) by lia. exact Hn.
    + intros [Hle Hn]. destruct (i - a)%nat as [|k] eqn:E.
      * left. injection Hn as ->. f_equal. lia.
      * right. split; [lia|]. replace (i - S a)%nat with k by lia. exact Hn.
Qed.

Lemma map_snd_combine_seq (l : list Q) (a : nat) :
  map snd (combine l (seq a (length l))) = seq a (length l).
Proof.
  revert a; induction l as [|x l IH]; intros a; simpl; [reflexivity|].
  now rewrite IH.
Qed.

Lemma sorted_positions_NoDup (row : list Q) :
  NoDup (map snd (sort_pairs (indexed row))).
Proof.
  eapply Permutation_NoDup.
  - symmetry. apply Permutation_map, sort_pairs_perm.
  - unfold indexed. rewrite map_snd_combine_seq. apply seq_NoDup.
Qed.

Lemma sorted_pair_value (row : list Q) (v : Q) (i : nat) :
  In (v, i) (sort_pairs (indexed row)) <-> nth_error row i = Some v.
Proof.
  transitivity (In (v, i) (indexed row)).
  - split; apply Permutation_in;
      [|symmetry]; apply sort_pairs_perm.
  - unfold indexed. rewrite in_combine_seq, Nat.sub_0_r.
    split; [tauto|]. split; [lia|assumption].
Qed.

Lemma nth_error_opp (row : list Q) (i : nat) (v : Q) :
  nth_error (map Qopp row) i = Some v ->
  exists p, nth_error row i = Some p /\ v = - p.
Proof.
  rewrite nth_error_map. destruct (nth_error row i) as [p|]; simpl; [|discriminate].
  intros [= <-]. now exists p.
Qed.

Lemma nth_error_opp_intro (row : list Q) (i : nat) (p : Q) :
  nth_error row i = Some p -> nth_error (map Qopp row) i = Some (- p).
Proof. intros H. now rewrite nth_error_map, H. Qed.

(** The head of a sorted list of pairs is below every pair of the list. *)
Lemma sorted_head_least (a : Q * nat) (l : list (Q * nat)) (b : Q * nat) :
  StronglySorted by_value (a :: l) -> In b (a :: l) -> fst a <= fst b.
Proof.
  intros Hs [<-|Hb]; [apply Qle_refl|].
  apply StronglySorted_inv in Hs as [_ Hall].
  rewrite Forall_forall in Hall. now apply Hall.
Qed.

(** The class [other_target] selects is not the predicted class, and no
    other class than the predicted one has a higher probability in the first
    row. *)
Lemma other_target_choice (pred_class : Z) (probas : matrix) (c : nat) :
  other_target pred_class probas = Ok c ->
  exists row rest pc,
    probas = row :: rest /\
    Z.of_nat c <> pred_class /\
    nth_error row c = Some pc /\
    forall j p,
      nth_error row j = Some p -> Z.of_nat j <> pred_class -> p <= pc.
Proof.
  unfold other_target. destruct probas as [|row rest]; [discriminate|].
  cbn [map]. unfold index2. cbn [nth_error]. unfold argsort.
  pose proof (sort_pairs_sorted (indexed (map Qopp row))) as Hsorted.
  pose proof (sorted_positions_NoDup (map Qopp row)) as Hnodup.
  pose proof (sorted_pair_value (map Qopp row)) as Hval.
  destruct (sort_pairs (indexed (map Qopp row))) as [|[v0 i0] L]; [discriminate|].
  cbn [map snd nth_error rbind].
  destruct (Z.eqb_spec (Z.of_nat i0) pred_class) as [E|E].
  - destruct L as [|[v1 i1] L]; [discriminate|].
    cbn [map snd nth_error]. intros [= <-].
    destruct (nth_error_opp row i1 (proj1 (Hval v1 i1) (or_intror (or_introl eq_refl))))
      as (p1 & Hp1 & ->).
    assert (Hne : i1 <> i0).
    { cbn [map snd] in Hnodup. apply NoDup_cons_iff in Hnodup as [Hn _].
      intros ->. apply Hn. now left. }
    exists row, rest, p1. repeat split; [lia | exact Hp1 |].
    intros j p Hj Hjc.
    apply nth_error_opp_intro, Hval in Hj.
    destruct Hj as [[= _ ->]|Hj]; [congruence|].
    apply StronglySorted_inv in Hsorted as [Hsorted _].
    pose proof (sorted_head_least Hsorted Hj) as Hle. cbn [fst] in Hle. lra.
  - intros [= <-].
    destruct (nth_error_opp row i0 (proj1 (Hval v0 i0) (or_introl eq_refl)))
      as (p0 & Hp0 & ->).
    exists row, rest, p0. repeat split; [exact E | exact Hp0 |].
    intros j p Hj _.
    apply nth_error_opp_intro, Hval in Hj.
    pose proof (sorted_head_least Hsorted Hj) as Hle. cbn [fst] in Hle. lra.
Qed.

Lemma index_out_of_range (row : list Q) (k : Z) :
  (k < - Z.of_nat (length row) \/ Z.of_nat (length row) <= k)%Z ->
  index row k = Raise IndexError.
Proof.
  intros H. unfold index.
  destruct (Z.leb_spec 0 k), (Z.ltb_spec k (Z.of_nat (length row))),
    (Z.leb_spec (- Z.of_nat (length row)) k), (Z.ltb_spec k 0);
    cbn [andb]; try lia; reflexivity.
Qed.

Lemma column_out_of_range (row : list Q) (rest : matrix) (k : Z) :
  (k < - Z.of_nat (length row) \/ Z.of_nat (length row) <= k)%Z ->
  column (row :: rest) (TInt k) = Raise IndexError.
Proof.
  intros H. unfold column. cbn [map_result].
  now rewrite index_out_of_range.
Qed.

Lemma argsort_length (row : list Q) : length (argsort row) = length row.
Proof.
  unfold argsort. rewrite length_map.
  rewrite (Permutation_length (sort_pairs_perm (indexed row))).
  unfold indexed. rewrite length_combine, length_seq. apply Nat.min_id.
Qed.

(** With two classes or more in the first row [other_target] selects a
    class. *)
Lemma other_target_total (pred_class : Z) (row : list Q) (rest : matrix) :
  (2 <= length row)%nat ->
  exists c, other_target pred_class (row :: rest) = Ok c.
Proof.
  intros Hlen. unfold other_target. cbn [map]. unfold index2.
  cbn [nth_error].
  pose proof (argsort_length (map Qopp row)) as Hl.
  rewrite length_map in Hl.
  destruct (argsort (map Qopp row)) as [|i0 [|i1 L]];
    cbn [length] in Hl; try lia.
  cbn [nth_error rbind].
  destruct (Z.of_nat i0 =? pred_class)%Z; eauto.
Qed.

Lemma index_in_range (row : list Q) (c : nat) :
  (c < length row)%nat -> index row (Z.of_nat c) = Ok (nth c row 0).
Proof.
  intros Hc. unfold index.
  destruct (Z.leb_spec 0 (Z.of_nat c)); [|lia].
  destruct (Z.ltb_spec (Z.of_nat c) (Z.of_nat (length row))); [|lia].
  cbn [andb]. rewrite Nat2Z.id.
  now rewrite (nth_error_nth' row 0 Hc).
Qed.

(** The column of a class that every row has. *)
Lemma column_in_range (probas : matrix) (c : nat) :
  Forall (fun r => (c < length r)%nat) probas ->
  column probas (TInt (Z.of_nat c)) = Ok (map (fun r => nth c r 0) probas).
Proof.
  unfold column. induction 1 as [|r probas Hr _ IH]; cbn [map_result map].
  - reflexivity.
  - rewrite (@index_in_range r c Hr), IH. reflexivity.
Qed.

End SelectorFacts.

(** The selector on a string that names no policy. *)
Lemma unknown_policy_raises
    (input : Type) (predict_fn : input -> matrix) (pred_class : Z) (s : string) :
  s <> "same"%string -> s <> "other"%string ->
  snd (_define_func predict_fn pred_class (TStr s)) = TStr s /\
  forall X, fst (_define_func predict_fn pred_class (TStr s)) X = Raise IndexError.
Proof.
  intros Hsame Hother. unfold _define_func. cbn [target_eqb].
  apply String.eqb_neq in Hsame, Hother. rewrite Hsame, Hother.
  split; reflexivity.
Qed.

(** C2, as the code has it. For the policy ['other'] the selector resolves no
    class when it builds the scalar function: its second component is the
    policy value ['other'] itself. The scalar function resolves the class on
    every call, from the prediction on the batch of that call. Whenever it
    returns, it returns the column of a class that is not the predicted one
    and whose probability in the first row no other class than the predicted
    one exceeds. And it does return, the column of such a class, whenever the
    prediction has a first row of two classes or more and every other row is
    as long as the first. *)
Theorem other_policy_resolved_on_each_call
    (input : Type) (predict_fn : input -> matrix) (pred_class : Z)
    (X : input) :
  snd (_define_func predict_fn pred_class (TStr "other")) = TStr "other" /\
  (forall v,
      fst (_define_func predict_fn pred_class (TStr "other")) X = Ok v ->
      exists (c : nat) (row : list Q) (rest : matrix) (pc : Q),
        predict_fn X = row :: rest /\
        Z.of_nat c <> pred_class /\
        nth_error row c = Some pc /\
        (forall j p,
            nth_error row j = Some p -> Z.of_nat j <> pred_class -> p <= pc) /\
        column (predict_fn X) (TInt (Z.of_nat c)) = Ok v) /\
  (forall row rest,
      predict_fn X = row :: rest ->
      (2 <= length row)%nat ->
      Forall (fun r => length r = length row) rest ->
      exists (c : nat) (pc : Q),
        Z.of_nat c <> pred_class /\
        nth_error row c = Some pc /\
        (forall j p,
            nth_error row j = Some p -> Z.of_nat j <> pred_class -> p <= pc) /\
        fst (_define_func predict_fn pred_class (TStr "other")) X
        = Ok (map (fun r => nth c r 0) (row :: rest))).
Proof.
  split; [reflexivity|].
  unfold _define_func. cbn [target_eqb]. rewrite String.eqb_refl. cbn [fst].
  unfold other_func. split.
  - intros v.
    destruct (other_target pred_class (predict_fn X)) as [c|e] eqn:E;
      [|discriminate].
    cbn [rbind]. intros Hv.
    destruct (SelectorFacts.other_target_choice _ _ E)
      as (row & rest & pc & Hrow & Hc & Hpc & Hmax).
    exists c, row, rest, pc. repeat split; assumption.
  - intros row rest Hrow Hlen Hrect. rewrite Hrow.
    destruct (@SelectorFacts.other_target_total pred_class row rest Hlen)
      as [c E].
    rewrite E. cbn [rbind].
    destruct (SelectorFacts.other_target_choice _ _ E)
      as (row' & rest' & pc & [= <- <-] & Hc & Hpc & Hmax).
    exists c, pc. repeat split; try assumption.
    apply SelectorFacts.column_in_range.
    assert (Hcl : (c < length row)%nat)
      by (apply nth_error_Some; congruence).
    constructor; [exact Hcl|].
    eapply Forall_impl; [|exact Hrect]. intros r Hr. cbn beta in Hr. lia.
Qed.

(** Both branches of the choice: on [0.1, 0.7, 0.2] the most probable class
    is the predicted class 1 and the second of the ranking is taken; on
    [0.6, 0.3, 0.1] the most probable class is not the predicted one. *)
Lemma other_policy_resolved_on_each_call_witness :
  (exists (c : nat) (pc : Q),
      Z.of_nat c <> 1%Z /\
      nth_error [1 # 10; 7 # 10; 2 # 10] c = Some pc /\
      (forall j p,
          nth_error [1 # 10; 7 # 10; 2 # 10] j = Some p ->
          Z.of_nat j <> 1%Z -> p <= pc) /\
      fst (_define_func two_rankings 1 (TStr "other")) true
      = Ok (map (fun r => nth c r 0) [[1 # 10; 7 # 10; 2 # 10]])) /\
  (exists (c : nat) (pc : Q),
      Z.of_nat c <> 1%Z /\
      nth_error [6 # 10; 3 # 10; 1 # 10] c = Some pc /\
      (forall j p,
          nth_error [6 # 10; 3 # 10; 1 # 10] j = Some p ->
          Z.of_nat j <> 1%Z -> p <= pc) /\
      fst (_define_func two_rankings 1 (TStr "other")) false
      = Ok (map (fun r => nth c r 0) [[6 # 10; 3 # 10; 1 # 10]])).
Proof.
  split.
  - apply (proj2 (proj2 (other_policy_resolved_on_each_call two_rankings 1
                           true)) [1 # 10; 7 # 10; 2 # 10] []);
      [reflexivity | cbn [length]; lia | constructor].
  - apply (proj2 (proj2 (other_policy_resolved_on_each_call two_rankings 1
                           false)) [6 # 10; 3 # 10; 1 # 10] []);
      [reflexivity | cbn [length]; lia | constructor].
Defined.

(** The second component of the selector for ['other'] is not a class
    index. *)
Lemma other_policy_second_component :
  forall k : Z, snd (_define_func two_rankings 1 (TStr "other")) <> TInt k.
Proof. intros k H. vm_compute in H. discriminate. Qed.

(** C2, as stated, fails: with the predicted class 1 the scalar function of
    the policy ['other'] returns the column of class 2 on one input and of
    class 0 on another, so no class index fixed when the function was built
    describes it. *)
Lemma other_policy_class_varies :
  ~ (exists k : Z,
        forall X,
          fst (_define_func two_rankings 1 (TStr "other")) X
          = column (two_rankings X) (TInt k)).
Proof.
  intros (k & H).
  pose proof (H true) as Ht. pose proof (H false) as Hf.
  assert (Hk : (k < -3 \/ k = -3 \/ k = -2 \/ k = -1 \/ k = 0 \/ k = 1 \/
                k = 2 \/ 2 < k)%Z) by lia.
  destruct Hk as [Hk|[->|[->|[->|[->|[->|[->|Hk]]]]]]];
    try (vm_compute in Ht, Hf; congruence);
    change (two_rankings true) with [[1 # 10; 7 # 10; 2 # 10]] in Ht;
    rewrite SelectorFacts.column_out_of_range in Ht by (cbn [length]; lia);
    vm_compute in Ht; discriminate.
Qed.

(** C3, as the code has it: with the probabilities [0.1, 0.7, 0.2] and the
    predicted class 1 the scalar function of the policy ['other'] selects
    class 2 and returns its probability; with [0.6, 0.3, 0.1] and the
    predicted class 0 it selects class 1. *)
Theorem other_policy_examples :
  other_target 1 probas_a = Ok 2%nat /\
  fst (_define_func (fun _ : unit => probas_a) 1 (TStr "other")) tt
  = Ok [2 # 10] /\
  other_target 0 probas_b = Ok 1%nat /\
  fst (_define_func (fun _ : unit => probas_b) 0 (TStr "other")) tt
  = Ok [3 # 10].
Proof. repeat split. Qed.

(** C3, as stated, fails: the class selected for [0.1, 0.7, 0.2] with the
    predicted class 1 is not class 0. *)
Lemma other_policy_first_example_is_not_class_0 :
  ~ (other_target 1 probas_a = Ok 0%nat /\ other_target 0 probas_b = Ok 1%nat).
Proof. intros [H _]. vm_compute in H. discriminate. Qed.

(** C8. A policy that is a string other than ['same'] and ['other'] gives a
    scalar function that raises on every call: NumPy refuses the string as an
    index. The selector itself returns, with the policy unchanged. *)
Theorem unknown_policy_fails_on_use
    (input : Type) (predict_fn : input -> matrix) (pred_class : Z) (s : string) :
  s <> "same"%string -> s <> "other"%string ->
  snd (_define_func predict_fn pred_class (TStr s)) = TStr s /\
  forall X, fst (_define_func predict_fn pred_class (TStr s)) X = Raise IndexError.
Proof. apply unknown_policy_raises. Qed.

Lemma unknown_policy_fails_on_use_witness :
  snd (_define_func two_rankings 1 (TStr "nearest")) = TStr "nearest" /\
  forall X, fst (_define_func two_rankings 1 (TStr "nearest")) X = Raise IndexError.
Proof.
  apply (@unknown_policy_fails_on_use bool two_rankings 1 "nearest");
    discriminate.
Defined.

(** ** Search controller *)

Section SearchFacts.

Context {Slots Gen : Type} {optimizer : Optimizer Slots}
        {random : RandomState Gen}.

Variable self : CounterFactual.
Variable predict_class_fn : vec -> result Q.

Ltac run_step :=
  repeat match goal with
    | |- context [match ?r with Ok _ => _ | Raise _ => _ end] =>
        destruct r; cbn [rbind]; try discriminate
    | |- context [if Np.shape_eqb ?a ?b then _ else _] =>
        destruct (Np.shape_eqb a b); try discriminate
    | |- context [let (_, _) := ?p in _] => destruct p
    end.

(** One inner iteration appends one entry to every sequence, leaves the
    success flag and the best result alone, and hands on the value of the
    session variable. *)
Lemma inner_step_ok (X : vec) (lam : Q) (xc : vec) (d : explanation)
      (w : world Slots Gen) (xc' : vec) (d' : explanation)
      (w' : world Slots Gen) :
  inner_step self predict_class_fn X lam (xc, d) w = (Ok (xc', d'), w') ->
  (forall n, history_length d n -> history_length d' (S n)) /\
  success d' = success d /\ X_cf d' = X_cf d /\ xc' = cf (sess w').
Proof.
  unfold inner_step, mbind, lift, run_apply_grad, run_cf, mret.
  run_step. intros [= <- <- <-].
  repeat split; try reflexivity.
  all: unfold history_length in *; cbn [Xs loss grads dists lambdas prob_cond prob classes append_step];
    rewrite length_app; cbn [length]; intuition lia.
Qed.

(** The optimizer step of an inner iteration updates the variable [cf] of
    the session with the gradient taken at the candidate [xc]; the value
    of [xc] itself does not enter the update. *)
Lemma inner_step_updates_session_variable
      (X : vec) (lam : Q) (xc : vec) (d : explanation)
      (w : world Slots Gen) (xc' : vec) (d' : explanation)
      (w' : world Slots Gen) :
  inner_step self predict_class_fn X lam (xc, d) w = (Ok (xc', d'), w') ->
  exists l g,
    get_wachter_grads xc predict_class_fn (distance_fn self) X
      (target_proba self) lam (epsilons self) (method self) = Ok (l, g) /\
    xc' = clip_by_value
            (snd (apply_gradients (slots (sess w)) g (cf (sess w))))
            (feature_range self).
Proof.
  unfold inner_step, mbind, lift, run_apply_grad, run_cf, mret.
  destruct (get_wachter_grads _ _ _ _ _ _ _ _) as [[l g]|e];
    [|discriminate].
  intros H. exists l, g. split; [reflexivity|]. revert H.
  destruct (Np.shape_eqb _ _); [|discriminate].
  destruct (apply_gradients _ _ _) as [o v]. cbn [sess cf snd].
  run_step. now intros [= <- _ _].
Qed.

Lemma inner_loop_ok (n : nat) (X : vec) (lam : Q) :
  forall (xc : vec) (d : explanation) (w : world Slots Gen)
         (xc' : vec) (d' : explanation) (w' : world Slots Gen),
    inner_loop self predict_class_fn n X lam (xc, d) w = (Ok (xc', d'), w') ->
    (forall k, history_length d k -> history_length d' (k + n)) /\
    success d' = success d /\ X_cf d' = X_cf d.
Proof.
  induction n as [|n IH]; intros xc d w xc' d' w'; cbn [inner_loop].
  - unfold mret. intros [= <- <- <-].
    split; [|split; reflexivity].
    intros k Hk. now rewrite Nat.add_0_r.
  - unfold mbind at 1.
    destruct (inner_step self predict_class_fn X lam (xc, d) w)
      as [[[xc1 d1]|e] w1] eqn:E1; [|discriminate].
    intros E2.
    apply inner_step_ok in E1 as (Hlen1 & Hs1 & Hx1 & _).
    apply IH in E2 as (Hlen2 & Hs2 & Hx2).
    split; [|split; congruence].
    intros k Hk. replace (k + S n)%nat with (S k + n)%nat by lia.
    now apply Hlen2, Hlen1.
Qed.

Lemma history_length_set_X_cf (d : explanation) (x : vec) (n : nat) :
  history_length d n -> history_length (set_X_cf d x) n.
Proof. exact (fun H => H). Qed.

(** The [return] inside the outer loop is never taken: the counter
    [lam_steps] stays below [max_lam_steps] for as long as the loop runs.
    The loop ends by exhaustion, after [n] full inner loops. *)
Lemma outer_loop_ok (n : nat) (X : vec) :
  forall (f : frame) (w : world Slots Gen) (e : exit) (w' : world Slots Gen),
    (lam_steps f + n <= max_lam_steps self)%nat ->
    outer_loop self predict_class_fn n X f w = (Ok e, w') ->
    exists f',
      e = Exhausted f' /\
      (forall k, history_length (return_dict f) k ->
                 history_length (return_dict f') (k + n * max_iter self)) /\
      success (return_dict f') = success (return_dict f).
Proof.
  induction n as [|n IH]; intros f w e w' Hle; cbn [outer_loop].
  - unfold mret. intros [= <- <-]. exists f.
    split; [reflexivity|]. split; [|reflexivity].
    intros k Hk. now rewrite Nat.add_0_r.
  - destruct (Nat.eqb_spec (lam_steps f) (max_lam_steps self)); [lia|].
    unfold mbind at 1.
    destruct (inner_loop self predict_class_fn (max_iter self) X (lam f)
                (X_current f, return_dict f) w)
      as [[[xc1 d1]|e1] w1] eqn:E1; [|discriminate].
    intros E2.
    apply inner_loop_ok in E1 as (Hlen1 & Hs1 & _).
    apply IH in E2 as (f' & -> & Hlen2 & Hs2);
      [|cbn [lam_steps]; lia].
    cbn [return_dict] in Hlen2, Hs2.
    exists f'. split; [reflexivity|]. split; [|rewrite Hs2; exact Hs1].
    intros k Hk.
    replace (k + S n * max_iter self)%nat
      with (k + max_iter self + n * max_iter self)%nat by lia.
    apply Hlen2, history_length_set_X_cf, Hlen1, Hk.
Qed.

Lemma history_length_nil (x : vec) (b : bool) :
  history_length (mk_explanation x [] [] [] [] [] [] [] [] b) 0.
Proof. repeat split. Qed.

Lemma _minimize_wachter_loss_ok (X X_init : vec) (w : world Slots Gen)
      (r : explanation) (w' : world Slots Gen) :
  _minimize_wachter_loss self predict_class_fn X X_init w = (Ok r, w') ->
  success r = true /\
  history_length r (max_lam_steps self * max_iter self).
Proof.
  unfold _minimize_wachter_loss, mbind.
  destruct (outer_loop self predict_class_fn (max_lam_steps self) X _ w)
    as [[e|e] w1] eqn:E; [|discriminate].
  apply outer_loop_ok in E as (f' & -> & Hlen & _); [|cbn [lam_steps]; lia].
  unfold mret. intros [= <- <-]. split; [reflexivity|].
  apply (Hlen 0%nat), history_length_nil.
Qed.

End SearchFacts.

(** The candidate [_initialize] gives. *)
Lemma _initialize_identity {Slots Gen : Type} {random : RandomState Gen}
      (self : CounterFactual) (X : vec) (w : world Slots Gen) :
  init self = "identity"%string -> _initialize self X w = (Ok X, w).
Proof. intros H. unfold _initialize. now rewrite H. Qed.

Lemma _initialize_random {Slots Gen : Type} {random : RandomState Gen}
      (self : CounterFactual) (X : vec) (w : world Slots Gen) :
  init self = "random"%string ->
  _initialize self X w
  = (Ok (fst (rand (rng w) (data_shape self))),
     mk_world (sess w) (snd (rand (rng w) (data_shape self)))).
Proof.
  intros H. unfold _initialize. rewrite H. cbn [String.eqb Ascii.eqb Bool.eqb].
  now destruct (rand (rng w) (data_shape self)).
Qed.

Lemma _initialize_unknown {Slots Gen : Type} {random : RandomState Gen}
      (self : CounterFactual) (X : vec) (w : world Slots Gen) :
  init self <> "identity"%string -> init self <> "random"%string ->
  _initialize self X w = (Raise ValueError, w).
Proof.
  intros H1 H2. unfold _initialize.
  apply String.eqb_neq in H1, H2. now rewrite H1, H2.
Qed.

(** With a policy that is an unknown string, [explain] raises at the first
    call of the scalar function, in the first inner iteration; with no inner
    iteration to run the scalar function is never called. *)
Lemma explain_unknown_policy {Slots Gen : Type} {optimizer : Optimizer Slots}
      {random : RandomState Gen} (self : CounterFactual) (X : vec)
      (w : world Slots Gen) (s : string) (n m : nat) :
  target_class self = TStr s ->
  s <> "same"%string -> s <> "other"%string ->
  init self = "identity"%string ->
  predict_fn self X <> [] ->
  max_iter self = S n -> max_lam_steps self = S m ->
  explain self X w = (Raise IndexError, w).
Proof.
  intros Ht Hsame Hother Hinit Hp Hn Hm.
  unfold explain, mbind at 1, lift, self_predict_fn.
  cbn [concat]. rewrite app_nil_r.
  destruct (predict_fn self X) as [|p row] eqn:Erow; [congruence|].
  cbn [argmax]. unfold mbind at 1. rewrite (_initialize_identity _ _ _ Hinit).
  unfold _minimize_wachter_loss, mbind at 1.
  rewrite Hm. cbn [outer_loop lam_steps]. rewrite Hm. cbn [Nat.eqb].
  rewrite Hn. cbn [inner_loop]. unfold mbind at 1 2.
  unfold inner_step, mbind at 1, lift. cbn [X_current return_dict].
  unfold get_wachter_grads, class_fn at 1.
  rewrite Ht.
  rewrite (proj2 (@unknown_policy_raises vec (self_predict_fn self)
                    (Z.of_nat (argmax_from p 0 1 row)) s Hsame Hother)).
  reflexivity.
Qed.

(** Whenever [explain] returns, the success flag is set and every sequence
    of the history has [max_lam_steps * max_iter] entries. *)
Lemma explain_ok {Slots Gen : Type} {optimizer : Optimizer Slots}
      {random : RandomState Gen} (self : CounterFactual) (X : vec)
      (w : world Slots Gen) (r : explanation) (w' : world Slots Gen) :
  explain self X w = (Ok r, w') ->
  success r = true /\ history_length r (max_lam_steps self * max_iter self).
Proof.
  unfold explain, mbind at 1, lift.
  destruct (argmax _) as [pred_class|e]; [|discriminate].
  unfold mbind.
  destruct (_initialize self X w) as [[X_init|e] w1]; [|discriminate].
  apply _minimize_wachter_loss_ok.
Qed.

Ltac veq_solve :=
  repeat (constructor; try (vm_compute; reflexivity)).

(** C1, on the code. The explainer has [data_shape = (2,)] and uses the
    identity initializer; the session variable holds [0.5, 0.5] and the
    instance is [2, 3]. The first
    gradient is taken at the initial candidate [2, 3] and is zero there, and
    a step with a zero gradient would leave [2, 3] where it is; the step is
    applied to the session variable, and the search goes on from
    [0.5, 0.5]. *)
Theorem first_step_moves_session_variable :
  exists r w',
    explain_gd (flat_explainer 1 1) [2; 3] fresh_world = (Ok r, w') /\
    Forall2 veq (grads r) [[0; 0]] /\
    veq (snd (@apply_gradients _ (gradient_descent (1 # 10)) 0%nat [0; 0] [2; 3]))
        [2; 3] /\
    Forall2 veq (Xs r) [[1 # 2; 1 # 2]] /\
    veq (X_cf r) [1 # 2; 1 # 2].
Proof.
  eexists _, _. split; [vm_compute; reflexivity|].
  cbn [grads Xs X_cf]. repeat split; veq_solve.
Qed.

(** C4, on the code. In a run, with [data_shape = (2,)], whose tolerance
    flag is false at every recorded step the outer loop runs out of steps and
    the result reports success. *)
Theorem exhausted_search_reports_success :
  exists r w',
    explain_gd (flat_explainer 2 1) [2; 3] fresh_world = (Ok r, w') /\
    prob_cond r = [false; false] /\
    success r = true.
Proof.
  eexists _, _. split; [vm_compute; reflexivity|].
  split; reflexivity.
Qed.

(** C5. Whenever [explain] returns, its result has the success flag set,
    whatever the tolerance flags of the history are. *)
Theorem completed_search_sets_success
    {Slots Gen : Type} {optimizer : Optimizer Slots} {random : RandomState Gen}
    (self : CounterFactual) (X : vec) (w : world Slots Gen)
    (r : explanation) (w' : world Slots Gen) :
  explain self X w = (Ok r, w') -> success r = true.
Proof. intros H. exact (proj1 (explain_ok self X w H)). Qed.

Lemma completed_search_sets_success_witness :
  exists r w',
    flat_run_2_1 = Some (r, w') /\
    prob_cond r = [false; false] /\
    success r = true.
Proof.
  eexists _, _. split; [reflexivity|]. split; [reflexivity|].
  eapply (@completed_search_sets_success nat (list Q)
            (gradient_descent (1 # 10)) replay
            (flat_explainer 2 1) [2; 3] fresh_world).
  vm_compute. reflexivity.
Defined.

(** C6, on the code. Two calls of [explain] on the same explainer, of
    [data_shape = (2,)], with the same instance, the second on the session
    the first has left: the first ends at [0.6, 0.6], the second at
    [0.7, 0.7]. *)
Theorem second_call_differs :
  exists r1 w1 r2 w2,
    explain_gd (flat_explainer 2 1) [2; 3] fresh_world = (Ok r1, w1) /\
    explain_gd (flat_explainer 2 1) [2; 3] w1 = (Ok r2, w2) /\
    veq (X_cf r1) [6 # 10; 6 # 10] /\
    veq (X_cf r2) [7 # 10; 7 # 10] /\
    ~ veq (X_cf r1) (X_cf r2).
Proof.
  eexists _, _, _, _. split; [vm_compute; reflexivity|].
  split; [vm_compute; reflexivity|].
  cbn [X_cf]. repeat split; try veq_solve.
  intros H. inversion H as [|? ? ? ? H1 _]; subst.
  vm_compute in H1. discriminate.
Qed.

(** C7. Whenever [explain] returns, each of the eight sequences of the
    history has [max_lam_steps * max_iter] entries. *)
Theorem history_has_all_steps
    {Slots Gen : Type} {optimizer : Optimizer Slots} {random : RandomState Gen}
    (self : CounterFactual) (X : vec) (w : world Slots Gen)
    (r : explanation) (w' : world Slots Gen) :
  explain self X w = (Ok r, w') ->
  history_length r (max_lam_steps self * max_iter self).
Proof. intros H. exact (proj2 (explain_ok self X w H)). Qed.

Lemma history_has_all_steps_witness :
  exists r w', flat_run_1_2 = Some (r, w') /\ history_length r 2.
Proof.
  eexists _, _. split; [reflexivity|].
  eapply (@history_has_all_steps nat (list Q)
            (gradient_descent (1 # 10)) replay
            (flat_explainer 1 2) [2; 3] fresh_world).
  vm_compute. reflexivity.
Defined.

(** C9, on the code. An array of step sizes is dropped: the loss and the
    gradient are those of no step size at all, for which the numerical
    gradient takes its own default. With the steps [1, 1] the distance
    gradient at [2.1, 2] towards [2, 2] would be [0.2, 0]; the gradient
    returned is [1, 0]. *)
Theorem feature_wise_epsilons_dropped :
  (forall X_current predict_class_fn distance_fn X_test target_proba lam
          method a,
      get_wachter_grads X_current predict_class_fn distance_fn X_test
        target_proba lam (EpsArray a) method
      = get_wachter_grads X_current predict_class_fn distance_fn X_test
          target_proba lam EpsNone method) /\
  (exists l g d,
      get_wachter_grads [21 # 10; 2] (fun _ => Ok (1 # 2)) cityblock [2; 2]
        (9 # 10) (1 # 100) (EpsArray [1; 1]) "wachter" = Ok (l, g) /\
      veq g [1; 0] /\
      num_grad (fun x => cityblock x [2; 2]) [21 # 10; 2] (StepArray [1; 1])
      = Ok d /\
      veq d [1 # 5; 0]).
Proof.
  split; [reflexivity|].
  eexists _, _, _. split; [vm_compute; reflexivity|].
  split; [veq_solve|]. split; [vm_compute; reflexivity|]. veq_solve.
Qed.

(** * Further properties *)

(** ** Search controller *)

Section SearchTrace.

Context {Slots Gen : Type} {optimizer : Optimizer Slots}
        {random : RandomState Gen}.

Variable self : CounterFactual.
Variable predict_class_fn : vec -> result Q.

(** What a returning inner iteration has done. *)
Lemma inner_step_inv (X : vec) (lam : Q) (xc : vec) (d : explanation)
      (w : world Slots Gen) (xc' : vec) (d' : explanation)
      (w' : world Slots Gen) :
  inner_step self predict_class_fn X lam (xc, d) w = (Ok (xc', d'), w') ->
  exists l g dist c p cls,
    get_wachter_grads xc predict_class_fn (distance_fn self) X
      (target_proba self) lam (epsilons self) (method self) = Ok (l, g) /\
    xc' = clip_by_value
            (snd (apply_gradients (slots (sess w)) g (cf (sess w))))
            (feature_range self) /\
    w' = mk_world
           (mk_session xc'
              (fst (apply_gradients (slots (sess w)) g (cf (sess w)))))
           (rng w) /\
    distance_fn self X xc' = Ok dist /\
    d' = append_step d xc' l g dist lam c p cls.
Proof.
  unfold inner_step, mbind, lift, run_apply_grad, run_cf, mret.
  destruct (get_wachter_grads _ _ _ _ _ _ _ _) as [[l g]|e];
    [|discriminate].
  destruct (Np.shape_eqb _ _); [|discriminate].
  destruct (apply_gradients _ _ _) as [o v] eqn:Eo. cbn [sess cf snd fst].
  destruct (distance_fn self X _) as [dist|e] eqn:Ed; [|discriminate].
  destruct (_prob_condition _ _ _) as [c|e]; [|discriminate].
  destruct (argmax _) as [cls|e]; [|discriminate].
  destruct (amax _) as [p|e]; [|discriminate].
  intros [= <- <- <-].
  exists l, g, dist, c, p, cls. rewrite Eo. cbn [snd fst].
  repeat split; try reflexivity. exact Ed.
Qed.

(** A property that every returning inner iteration keeps holds after the
    inner loop. *)
Lemma inner_loop_invariant (P : vec -> explanation -> world Slots Gen -> Prop)
      (X : vec) (lam : Q) :
  (forall xc d w xc' d' w',
      P xc d w ->
      inner_step self predict_class_fn X lam (xc, d) w = (Ok (xc', d'), w') ->
      P xc' d' w') ->
  forall n xc d w xc' d' w',
    P xc d w ->
    inner_loop self predict_class_fn n X lam (xc, d) w = (Ok (xc', d'), w') ->
    P xc' d' w'.
Proof.
  intros Hstep. induction n as [|n IH]; intros xc d w xc' d' w' HP;
    cbn [inner_loop].
  - unfold mret. now intros [= <- <- <-].
  - unfold mbind at 1.
    destruct (inner_step self predict_class_fn X lam (xc, d) w)
      as [[[xc1 d1]|e] w1] eqn:E1; [|discriminate].
    apply IH. eapply Hstep; eauto.
Qed.

(** A property of the frame that every full inner loop followed by the
    update of the frame keeps holds when the outer loop is exhausted, which
    is how the outer loop ends. *)
Lemma outer_loop_invariant (Q : frame -> world Slots Gen -> Prop) (X : vec) :
  (forall f w xc d w',
      Q f w ->
      (lam_steps f < max_lam_steps self)%nat ->
      inner_loop self predict_class_fn (max_iter self) X (lam f)
        (X_current f, return_dict f) w = (Ok (xc, d), w') ->
      Q (mk_frame (lam f * lam_step self) (S (lam_steps f)) xc
           (set_X_cf d xc)) w') ->
  forall n f w e w',
    (lam_steps f + n <= max_lam_steps self)%nat ->
    Q f w ->
    outer_loop self predict_class_fn n X f w = (Ok e, w') ->
    exists f',
      e = Exhausted f' /\ Q f' w' /\ lam_steps f' = (lam_steps f + n)%nat.
Proof.
  intros Hstep. induction n as [|n IH]; intros f w e w' Hle HQ;
    cbn [outer_loop].
  - unfold mret. intros [= <- <-]. exists f. repeat split; [exact HQ|lia].
  - destruct (Nat.eqb_spec (lam_steps f) (max_lam_steps self)); [lia|].
    unfold mbind at 1.
    destruct (inner_loop self predict_class_fn (max_iter self) X (lam f)
                (X_current f, return_dict f) w)
      as [[[xc1 d1]|e1] w1] eqn:E1; [|discriminate].
    intros E2.
    apply IH in E2 as (f' & -> & HQ' & Hsteps).
    + exists f'. repeat split; [exact HQ'|]. cbn [lam_steps] in Hsteps. lia.
    + cbn [lam_steps]. lia.
    + eapply Hstep; eauto. lia.
Qed.

(** The result of a returning [_minimize_wachter_loss] is the dictionary of
    the last frame, for every property the outer steps keep. *)
Lemma _minimize_wachter_loss_invariant
      (Q : frame -> world Slots Gen -> Prop) (X X_init : vec)
      (w : world Slots Gen) (r : explanation) (w' : world Slots Gen) :
  (forall f w xc d w',
      Q f w ->
      (lam_steps f < max_lam_steps self)%nat ->
      inner_loop self predict_class_fn (max_iter self) X (lam f)
        (X_current f, return_dict f) w = (Ok (xc, d), w') ->
      Q (mk_frame (lam f * lam_step self) (S (lam_steps f)) xc
           (set_X_cf d xc)) w') ->
  Q (mk_frame (lam_init self) 0 X_init
       (mk_explanation X_init [] [] [] [] [] [] [] [] false)) w ->
  _minimize_wachter_loss self predict_class_fn X X_init w = (Ok r, w') ->
  exists f',
    r = set_success (return_dict f') true /\ Q f' w' /\
    lam_steps f' = max_lam_steps self.
Proof.
  intros Hstep H0. unfold _minimize_wachter_loss, mbind.
  destruct (outer_loop self predict_class_fn (max_lam_steps self) X _ w)
    as [[e|e] w1] eqn:E; [|discriminate].
  eapply outer_loop_invariant in E as (f' & -> & HQ & Hs); eauto.
  unfold mret. intros [= <- <-]. exists f'. repeat split; assumption.
Qed.

End SearchTrace.

(** How a returning [explain] decomposes. *)
Lemma explain_inv {Slots Gen : Type} {optimizer : Optimizer Slots}
      {random : RandomState Gen} (self : CounterFactual) (X : vec)
      (w : world Slots Gen) (r : explanation) (w' : world Slots Gen) :
  explain self X w = (Ok r, w') ->
  exists pred_class X_init w1,
    _initialize self X w = (Ok X_init, w1) /\
    _minimize_wachter_loss self (class_fn self (Z.of_nat pred_class)) X X_init w1
    = (Ok r, w').
Proof.
  unfold explain, mbind at 1, lift.
  destruct (argmax _) as [pred_class|e]; [|discriminate].
  unfold mbind.
  destruct (_initialize self X w) as [[X_init|e] w1]; [|discriminate].
  intros H. now exists pred_class, X_init, w1.
Qed.

Lemma Qmax_ge_r (a b : Q) : b <= Qmax a b.
Proof.
  unfold Qmax. destruct (Qle_bool a b) eqn:E; [apply Qle_refl|].
  apply Qlt_le_weak, Qnot_le_lt. intros H.
  apply Qle_bool_iff in H. congruence.
Qed.

Lemma Qmin_le_r (a b : Q) : Qmin a b <= b.
Proof.
  unfold Qmin. destruct (Qle_bool a b) eqn:E; [|apply Qle_refl].
  now apply Qle_bool_iff.
Qed.

Lemma Qmax_le (a b c : Q) : a <= c -> b <= c -> Qmax a b <= c.
Proof. intros Ha Hb. unfold Qmax. now destruct (Qle_bool a b). Qed.

Lemma clip_by_value_within (x : vec) (range : Q * Q) :
  fst range <= snd range -> within range (clip_by_value x range).
Proof.
  intros Hr. unfold within, clip_by_value. apply Forall_map, Forall_forall.
  intros v _. split.
  - apply Qmax_ge_r.
  - apply Qmax_le; [apply Qmin_le_r | exact Hr].
Qed.

Lemma cityblock_nonneg (u v : vec) (d : Q) : cityblock u v = Ok d -> 0 <= d.
Proof.
  unfold cityblock.
  destruct (length u =? length v)%nat;
    [|destruct (length u =? 1)%nat; [|destruct (length v =? 1)%nat]];
    intros [= <-];
    apply DistanceFacts.Qsum_nonneg, DistanceFacts.abs_nonneg.
Qed.

(** X1. When the lower bound of the feature range is not above the upper
    one, every candidate recorded in the history of a returning [explain]
    lies within the feature range, coordinate by coordinate. *)
Theorem snapshots_within_feature_range
    {Slots Gen : Type} {optimizer : Optimizer Slots} {random : RandomState Gen}
    (self : CounterFactual) (X : vec) (w : world Slots Gen)
    (r : explanation) (w' : world Slots Gen) :
  fst (feature_range self) <= snd (feature_range self) ->
  explain self X w = (Ok r, w') ->
  Forall (within (feature_range self)) (Xs r).
Proof.
  intros Hr H. apply explain_inv in H as (pc & X_init & w1 & _ & H).
  eapply _minimize_wachter_loss_invariant
    with (Q := fun f _ => Forall (within (feature_range self))
                            (Xs (return_dict f))) in H
    as (f' & -> & HQ & _); [exact HQ| |constructor].
  intros f w0 xc d w0' HQ _ Hloop. cbn [return_dict set_X_cf Xs].
  eapply inner_loop_invariant
    with (P := fun _ d _ => Forall (within (feature_range self)) (Xs d));
    [|exact HQ|exact Hloop].
  intros xc0 d0 wa xc1 d1 wb HP Hstep.
  apply inner_step_inv in Hstep
    as (l & g & dist & c & p & cls & _ & -> & _ & _ & ->).
  cbn [append_step Xs]. apply Forall_app. split; [exact HP|].
  constructor; [|constructor]. now apply clip_by_value_within.
Qed.

Lemma snapshots_within_feature_range_witness :
  exists r w',
    flat_run_2_1 = Some (r, w') /\ Forall (within (-10, 10)) (Xs r).
Proof.
  eexists _, _. split; [reflexivity|].
  eapply (@snapshots_within_feature_range nat (list Q)
            (gradient_descent (1 # 10)) replay
            (flat_explainer 2 1) [2; 3] fresh_world).
  - vm_compute. discriminate.
  - vm_compute. reflexivity.
Defined.

Lemma inner_loop_lambdas
      {Slots Gen : Type} {optimizer : Optimizer Slots}
      (self : CounterFactual) (predict_class_fn : vec -> result Q)
      (n : nat) (X : vec) (lam : Q) :
  forall (xc : vec) (d : explanation) (w : world Slots Gen)
         (xc' : vec) (d' : explanation) (w' : world Slots Gen),
    inner_loop self predict_class_fn n X lam (xc, d) w = (Ok (xc', d'), w') ->
    lambdas d' = lambdas d ++ repeat lam n.
Proof.
  induction n as [|n IH]; intros xc d w xc' d' w'; cbn [inner_loop repeat].
  - unfold mret. intros [= <- <- <-]. now rewrite app_nil_r.
  - unfold mbind at 1.
    destruct (inner_step self predict_class_fn X lam (xc, d) w)
      as [[[xc1 d1]|e] wa] eqn:E1; [|discriminate].
    intros E2. apply IH in E2. rewrite E2.
    apply inner_step_inv in E1
      as (l & g & dist & c & p & cls & _ & _ & _ & _ & ->).
    cbn [append_step lambdas]. now rewrite <- app_assoc.
Qed.

(** X2. The [lambdas] of a returning [explain] are the initial value
    multiplied by [lam_step] once per completed outer step, each value
    recorded [max_iter] times. *)
Theorem lambdas_follow_schedule
    {Slots Gen : Type} {optimizer : Optimizer Slots} {random : RandomState Gen}
    (self : CounterFactual) (X : vec) (w : world Slots Gen)
    (r : explanation) (w' : world Slots Gen) :
  explain self X w = (Ok r, w') ->
  lambdas r = lam_schedule self (max_lam_steps self).
Proof.
  intros H. apply explain_inv in H as (pc & X_init & w1 & _ & H).
  eapply _minimize_wachter_loss_invariant
    with (Q := fun f _ => lam f = lam_at self (lam_steps f) /\
                          lambdas (return_dict f)
                          = lam_schedule self (lam_steps f)) in H
    as (f' & -> & [_ HQ] & Hs).
  - cbn [set_success lambdas]. now rewrite HQ, Hs.
  - intros f w0 xc d w0' [Hlam HQ] _ Hloop.
    cbn [lam lam_steps return_dict set_X_cf lambdas lam_at].
    split; [now rewrite Hlam|].
    unfold lam_schedule. rewrite seq_S, flat_map_app. cbn [flat_map Nat.add].
    rewrite app_nil_r. fold (lam_schedule self (lam_steps f)).
    rewrite <- HQ, <- Hlam.
    eapply inner_loop_lambdas, Hloop.
  - split; reflexivity.
Qed.

Lemma lambdas_follow_schedule_witness :
  exists r w',
    flat_run_1_2 = Some (r, w') /\
    lambdas r = lam_schedule (flat_explainer 1 2) 2.
Proof.
  eexists _, _. split; [reflexivity|].
  eapply (@lambdas_follow_schedule nat (list Q)
            (gradient_descent (1 # 10)) replay
            (flat_explainer 1 2) [2; 3] fresh_world).
  vm_compute. reflexivity.
Defined.

(** X3. With the identity initializer the counterfactual a returning
    [explain] gives is the last candidate of the history, or the instance
    itself when the history is empty; when the history is not empty it is
    also the value the session variable is left with. *)
Theorem counterfactual_is_last_snapshot
    {Slots Gen : Type} {optimizer : Optimizer Slots} {random : RandomState Gen}
    (self : CounterFactual) (X : vec) (w : world Slots Gen)
    (r : explanation) (w' : world Slots Gen) :
  init self = "identity"%string ->
  explain self X w = (Ok r, w') ->
  X_cf r = last (Xs r) X /\ (Xs r <> [] -> X_cf r = cf (sess w')).
Proof.
  intros Hinit H. apply explain_inv in H as (pc & X_init & w1 & Hi & H).
  rewrite (_initialize_identity _ _ _ Hinit) in Hi. injection Hi as <- <-.
  eapply _minimize_wachter_loss_invariant
    with (Q := fun f w0 =>
                 X_cf (return_dict f) = X_current f /\
                 X_current f = last (Xs (return_dict f)) X /\
                 (Xs (return_dict f) <> [] -> X_current f = cf (sess w0))) in H
    as (f' & -> & (H1 & H2 & H3) & _).
  - cbn [set_success X_cf Xs]. split; [congruence|].
    intros Hne. rewrite H1. now apply H3.
  - intros f w0 xc d w0' (H1 & H2 & H3) _ Hloop.
    cbn [return_dict X_current set_X_cf X_cf Xs].
    split; [reflexivity|].
    eapply inner_loop_invariant
      with (P := fun xc d w0 =>
                   xc = last (Xs d) X /\ (Xs d <> [] -> xc = cf (sess w0)));
      [|split; [exact H2|exact H3]|exact Hloop].
    intros xc0 d0 wa xc1 d1 wb _ Hstep.
    apply inner_step_inv in Hstep
      as (l & g & dist & c & p & cls & _ & Hx & -> & _ & ->).
    cbn [append_step Xs sess cf]. rewrite last_last. now split.
  - cbn [return_dict X_current X_cf Xs last]. repeat split. now intros [].
Qed.

Lemma counterfactual_is_last_snapshot_witness :
  exists r w',
    flat_run_2_1 = Some (r, w') /\
    X_cf r = last (Xs r) [2; 3] /\ (Xs r <> [] -> X_cf r = cf (sess w')).
Proof.
  eexists _, _. split; [reflexivity|].
  eapply (@counterfactual_is_last_snapshot nat (list Q)
            (gradient_descent (1 # 10)) replay
            (flat_explainer 2 1) [2; 3] fresh_world).
  - reflexivity.
  - vm_compute. reflexivity.
Defined.

(** X4. With the metric ['l1'] no distance recorded in the history of a
    returning [explain] is negative. *)
Theorem recorded_distances_nonnegative
    {Slots Gen : Type} {optimizer : Optimizer Slots} {random : RandomState Gen}
    (self : CounterFactual) (X : vec) (w : world Slots Gen)
    (r : explanation) (w' : world Slots Gen) :
  distance_fn self = cityblock ->
  explain self X w = (Ok r, w') ->
  Forall (Qle 0) (dists r).
Proof.
  intros Hd H. apply explain_inv in H as (pc & X_init & w1 & _ & H).
  eapply _minimize_wachter_loss_invariant
    with (Q := fun f _ => Forall (Qle 0) (dists (return_dict f))) in H
    as (f' & -> & HQ & _); [exact HQ| |constructor].
  intros f w0 xc d w0' HQ _ Hloop. cbn [return_dict set_X_cf dists].
  eapply inner_loop_invariant
    with (P := fun _ d _ => Forall (Qle 0) (dists d));
    [|exact HQ|exact Hloop].
  intros xc0 d0 wa xc1 d1 wb HP Hstep.
  apply inner_step_inv in Hstep
    as (l & g & dist & c & p & cls & _ & _ & _ & Hdist & ->).
  cbn [append_step dists]. apply Forall_app. split; [exact HP|].
  constructor; [|constructor]. rewrite Hd in Hdist.
  eapply cityblock_nonneg, Hdist.
Qed.

Lemma recorded_distances_nonnegative_witness :
  exists r w', flat_run_2_1 = Some (r, w') /\ Forall (Qle 0) (dists r).
Proof.
  eexists _, _. split; [reflexivity|].
  eapply (@recorded_distances_nonnegative nat (list Q)
            (gradient_descent (1 # 10)) replay
            (flat_explainer 2 1) [2; 3] fresh_world).
  - reflexivity.
  - vm_compute. reflexivity.
Defined.

Section SearchWorld.

Context {Slots Gen : Type} {optimizer : Optimizer Slots}
        {random : RandomState Gen}.

Variable self : CounterFactual.
Variable predict_class_fn : vec -> result Q.

(** The search leaves the random generator alone, also when it raises. *)
Lemma inner_step_rng (X : vec) (lam : Q) (st : vec * explanation)
      (w : world Slots Gen) :
  rng (snd (inner_step self predict_class_fn X lam st w)) = rng w.
Proof.
  destruct st as [xc d].
  unfold inner_step, mbind, lift, run_apply_grad, run_cf, mret.
  destruct (get_wachter_grads _ _ _ _ _ _ _ _) as [[l g]|e]; [|reflexivity].
  destruct (Np.shape_eqb _ _); [|reflexivity].
  destruct (apply_gradients _ _ _) as [o v]. cbn [sess cf].
  destruct (distance_fn self X _); [|reflexivity].
  destruct (_prob_condition _ _ _); [|reflexivity].
  destruct (argmax _); [|reflexivity].
  destruct (amax _); reflexivity.
Qed.

Lemma inner_loop_rng (n : nat) (X : vec) (lam : Q) :
  forall (st : vec * explanation) (w : world Slots Gen),
    rng (snd (inner_loop self predict_class_fn n X lam st w)) = rng w.
Proof.
  induction n as [|n IH]; intros st w; cbn [inner_loop]; [reflexivity|].
  unfold mbind at 1. pose proof (inner_step_rng X lam st w) as H.
  destruct (inner_step self predict_class_fn X lam st w) as [[st1|e] w1];
    cbn [snd] in *; [now rewrite IH | exact H].
Qed.

Lemma outer_loop_rng (n : nat) (X : vec) :
  forall (f : frame) (w : world Slots Gen),
    rng (snd (outer_loop self predict_class_fn n X f w)) = rng w.
Proof.
  induction n as [|n IH]; intros f w; cbn [outer_loop]; [reflexivity|].
  destruct (lam_steps f =? max_lam_steps self)%nat; [reflexivity|].
  unfold mbind at 1.
  pose proof (inner_loop_rng (max_iter self) X (lam f)
                (X_current f, return_dict f) w) as H.
  destruct (inner_loop self predict_class_fn (max_iter self) X (lam f)
              (X_current f, return_dict f) w) as [[[xc d]|e] w1];
    cbn [snd] in *; [now rewrite IH | exact H].
Qed.

Lemma _minimize_wachter_loss_rng (X X_init : vec) (w : world Slots Gen) :
  rng (snd (_minimize_wachter_loss self predict_class_fn X X_init w)) = rng w.
Proof.
  unfold _minimize_wachter_loss, mbind.
  pose proof (outer_loop_rng (max_lam_steps self) X
                (mk_frame (lam_init self) 0 X_init
                   (mk_explanation X_init [] [] [] [] [] [] [] [] false)) w)
    as H.
  destruct (outer_loop self predict_class_fn (max_lam_steps self) X _ w)
    as [[[d|f]|e] w1]; cbn [snd] in *; exact H.
Qed.

(** With no inner iteration to run, the outer loop only updates [lam] and
    its counter. *)
Lemma outer_loop_idle (n : nat) (X : vec) :
  max_iter self = 0%nat ->
  forall (f : frame) (w : world Slots Gen),
    (lam_steps f + n <= max_lam_steps self)%nat ->
    X_cf (return_dict f) = X_current f ->
    exists l,
      outer_loop self predict_class_fn n X f w
      = (Ok (Exhausted (mk_frame l (lam_steps f + n) (X_current f)
                          (return_dict f))), w).
Proof.
  intros Hn. induction n as [|n IH]; intros f w Hle Hcf; cbn [outer_loop].
  - exists (lam f). rewrite Nat.add_0_r. now destruct f.
  - destruct (Nat.eqb_spec (lam_steps f) (max_lam_steps self)); [lia|].
    rewrite Hn. cbn [inner_loop]. unfold mbind, mret.
    destruct (IH (mk_frame (lam f * lam_step self) (S (lam_steps f))
                    (X_current f) (set_X_cf (return_dict f) (X_current f))) w)
      as (l & ->); [cbn [lam_steps]; lia | reflexivity |].
    exists l. cbn [lam_steps X_current return_dict].
    replace (S (lam_steps f) + n)%nat with (lam_steps f + S n)%nat by lia.
    rewrite <- Hcf. now destruct (return_dict f).
Qed.

End SearchWorld.

(** X5. [explain] draws from NumPy's random generator only to initialize:
    with the identity initializer the generator is left as it was, whether
    the call returns or raises; with the random initializer and a non-empty
    prediction for the instance it has made exactly one draw of the declared
    shape. *)
Theorem random_generator_use
    {Slots Gen : Type} {optimizer : Optimizer Slots} {random : RandomState Gen}
    (self : CounterFactual) (X : vec) (w : world Slots Gen) :
  (init self = "identity"%string -> rng (snd (explain self X w)) = rng w) /\
  (init self = "random"%string -> predict_fn self X <> [] ->
   rng (snd (explain self X w)) = snd (rand (rng w) (data_shape self))).
Proof.
  split.
  - intros Hinit. unfold explain, mbind at 1, lift.
    destruct (argmax _) as [pc|e]; [|reflexivity].
    unfold mbind. rewrite (_initialize_identity _ _ _ Hinit).
    apply _minimize_wachter_loss_rng.
  - intros Hinit Hp. unfold explain, mbind at 1, lift, self_predict_fn.
    cbn [concat]. rewrite app_nil_r.
    destruct (predict_fn self X) as [|p row]; [congruence|].
    cbn [argmax]. unfold mbind. rewrite (_initialize_random _ _ _ Hinit).
    rewrite _minimize_wachter_loss_rng. reflexivity.
Qed.

Lemma random_generator_use_witness :
  rng (snd (explain_gd (flat_explainer 2 1) [2; 3]
              (mk_world (mk_session [1 # 2; 1 # 2] 0%nat) [7; 8; 9])))
  = [7; 8; 9].
Proof.
  apply (proj1 (@random_generator_use nat (list Q)
                  (gradient_descent (1 # 10)) replay
                  (flat_explainer 2 1) [2; 3]
                  (mk_world (mk_session [1 # 2; 1 # 2] 0%nat) [7; 8; 9]))).
  reflexivity.
Defined.

(** X6. An initialization strategy other than ['identity'] and ['random']
    makes [explain] raise [ValueError] before any optimizer step: the
    session is left as it was. *)
Theorem unknown_init_raises
    {Slots Gen : Type} {optimizer : Optimizer Slots} {random : RandomState Gen}
    (self : CounterFactual) (X : vec) (w : world Slots Gen) :
  init self <> "identity"%string -> init self <> "random"%string ->
  predict_fn self X <> [] ->
  explain self X w = (Raise ValueError, w).
Proof.
  intros H1 H2 Hp. unfold explain, mbind at 1, lift, self_predict_fn.
  cbn [concat]. rewrite app_nil_r.
  destruct (predict_fn self X) as [|p row]; [congruence|].
  cbn [argmax]. unfold mbind. now rewrite (_initialize_unknown _ _ _ H1 H2).
Qed.

Lemma unknown_init_raises_witness :
  explain_gd
    (mk_CounterFactual flat_predictor [1; 2]%nat cityblock (9 # 10)
       (TStr "other") 2 (1 # 100) (1 # 1000) 1 (5 # 100) (-10, 10)
       (EpsFloat (1 # 2)) "wachter" "from_train")
    [2; 3] fresh_world
  = (Raise ValueError, fresh_world).
Proof.
  apply (@unknown_init_raises nat (list Q) (gradient_descent (1 # 10)) replay);
    discriminate.
Defined.

(** X7. With [max_iter] zero (or [max_lam_steps] zero) and the identity
    initializer, [explain] returns the instance itself with an empty history
    and the success flag set, and leaves the session as it was; the target
    policy, the loss method and the step sizes are not looked at. *)
Theorem no_iteration_returns_instance
    {Slots Gen : Type} {optimizer : Optimizer Slots} {random : RandomState Gen}
    (self : CounterFactual) (X : vec) (w : world Slots Gen) :
  max_iter self = 0%nat \/ max_lam_steps self = 0%nat ->
  init self = "identity"%string ->
  predict_fn self X <> [] ->
  explain self X w
  = (Ok (mk_explanation X [] [] [] [] [] [] [] [] true), w).
Proof.
  intros Hz Hinit Hp. unfold explain, mbind at 1, lift, self_predict_fn.
  cbn [concat]. rewrite app_nil_r.
  destruct (predict_fn self X) as [|p row]; [congruence|].
  cbn [argmax]. unfold mbind at 1. rewrite (_initialize_identity _ _ _ Hinit).
  unfold _minimize_wachter_loss, mbind.
  destruct Hz as [Hz|Hz].
  - destruct (outer_loop_idle self
                (class_fn self (Z.of_nat (argmax_from p 0 1 row)))
                (max_lam_steps self) X Hz
                (mk_frame (lam_init self) 0 X
                   (mk_explanation X [] [] [] [] [] [] [] [] false)) w)
      as (l & ->); [cbn [lam_steps]; lia | reflexivity |].
    reflexivity.
  - rewrite Hz. reflexivity.
Qed.

Lemma no_iteration_returns_instance_witness :
  explain_gd
    (mk_CounterFactual flat_predictor [1; 2]%nat cityblock (9 # 10)
       (TStr "nearest") 0 (1 # 100) (1 # 1000) 3 (5 # 100) (-10, 10)
       EpsNone "newton" "identity")
    [2; 3] fresh_world
  = (Ok (mk_explanation [2; 3] [] [] [] [] [] [] [] [] true), fresh_world).
Proof.
  apply (@no_iteration_returns_instance nat (list Q)
           (gradient_descent (1 # 10)) replay).
  - left. reflexivity.
  - reflexivity.
  - discriminate.
Defined.

(** ** Loss and gradient assembler *)

Lemma map_result_length {A B : Type} (f : A -> result B) (l : list A)
      (r : list B) :
  map_result f l = Ok r -> length r = length l.
Proof.
  revert r; induction l as [|a l IH]; intros r; cbn [map_result].
  - now intros [= <-].
  - destruct (f a) as [b|e]; [|discriminate]. cbn [rbind].
    destruct (map_result f l) as [bs|e]; [|discriminate]. cbn [rbind].
    intros [= <-]. cbn [length]. now rewrite (IH bs).
Qed.

Lemma map_result_total {A B : Type} (f : A -> result B) (l : list A) :
  (forall a, exists b, f a = Ok b) -> exists r, map_result f l = Ok r.
Proof.
  intros Hf. induction l as [|a l [r IH]]; cbn [map_result].
  - now exists [].
  - destruct (Hf a) as [b ->]. rewrite IH. now exists (b :: r).
Qed.

Lemma zip_with_length (f : Q -> Q -> Q) (u v : list Q) :
  length u = length v -> length (Np.zip_with f u v) = length u.
Proof.
  revert v; induction u as [|x u IH]; intros [|y v]; cbn; try discriminate.
  - reflexivity.
  - intros [= H]. now rewrite IH.
Qed.

Lemma num_grad_length (func : vec -> result Q) (X : vec) (epsilon : step_size)
      (g : vec) :
  num_grad func X epsilon = Ok g -> length g = length X.
Proof.
  unfold num_grad, approx_fprime.
  destruct (func X); [|discriminate]. cbn [rbind].
  destruct (_get_epsilon X epsilon); [|discriminate]. cbn [rbind].
  intros H. apply map_result_length in H. now rewrite H, length_seq.
Qed.

Lemma map_result_total_in {A B : Type} (f : A -> result B) (l : list A) :
  (forall a, In a l -> exists b, f a = Ok b) -> exists r, map_result f l = Ok r.
Proof.
  induction l as [|a l IH]; intros Hf; cbn [map_result].
  - now exists [].
  - destruct (Hf a (or_introl eq_refl)) as [b ->].
    destruct IH as [r ->]; [intros x Hx; apply Hf; now right|].
    now exists (b :: r).
Qed.

Lemma divide_nonzero (a b : Q) : ~ b == 0 -> divide a b = Ok (a / b).
Proof.
  intros Hb. unfold divide.
  destruct (Qeq_bool b 0) eqn:E; [|reflexivity].
  now apply Qeq_bool_iff in E.
Qed.

Lemma divide_zero (a b : Q) : b == 0 -> divide a b = Raise NaN.
Proof.
  intros Hb. unfold divide. apply Qeq_bool_iff in Hb. now rewrite Hb.
Qed.

(** The step sizes with which the numerical gradient divides by no zero. *)
Lemma default_step_positive (x : Q) : 0 < EPS_cbrt * Qmax (Qabs x) (1 # 10).
Proof.
  pose proof (Qmax_ge_r (Qabs x) (1 # 10)) as H.
  assert (H1 : 0 < Qmax (Qabs x) (1 # 10)) by (eapply Qlt_le_trans; [|exact H]; reflexivity).
  apply Qmult_lt_0_compat; [reflexivity|exact H1].
Qed.

Lemma _get_epsilon_nonzero (X : vec) (epsilon : step_size) :
  match epsilon with
  | StepNone => True
  | StepScalar h => ~ h == 0
  | StepArray _ => False
  end ->
  exists h, _get_epsilon X epsilon = Ok h /\ length h = length X /\
            Forall (fun e => ~ e == 0) h.
Proof.
  destruct epsilon as [|h|h]; cbn [_get_epsilon]; intros He; [| |easy].
  - eexists. split; [reflexivity|]. split; [apply length_map|].
    apply Forall_map, Forall_forall. intros x _ H.
    pose proof (default_step_positive x) as Hp. rewrite H in Hp.
    now apply Qlt_irrefl in Hp.
  - eexists. split; [reflexivity|]. split; [apply repeat_length|].
    apply Forall_forall. intros e Hin. apply repeat_spec in Hin. now subst.
Qed.

Lemma half_step_nonzero (h : list Q) (k : nat) :
  Forall (fun e => ~ e == 0) h -> (k < length h)%nat ->
  ~ 2 * nth k (map (fun e => e / 2) h) 0 == 0.
Proof.
  intros Hall Hk.
  rewrite (nth_indep _ 0 ((fun e => e / 2) 0)) by now rewrite length_map.
  rewrite (map_nth (fun e => e / 2)).
  rewrite Forall_forall in Hall.
  pose proof (Hall _ (nth_In h 0 Hk)) as Hne.
  intros H. apply Hne. eapply Qeq_trans; [|exact H]. field.
Qed.

(** The numerical gradient of a function that never raises, at an array of
    one axis, for no step size or one number, not zero, as the step size. *)
Lemma num_grad_total (func : vec -> result Q) (X : vec) (epsilon : step_size) :
  (forall x, exists p, func x = Ok p) ->
  match epsilon with
  | StepNone => True
  | StepScalar h => ~ h == 0
  | StepArray _ => False
  end ->
  exists g, num_grad func X epsilon = Ok g.
Proof.
  intros Hf He. unfold num_grad, approx_fprime.
  destruct (Hf X) as [p ->]. cbn [rbind].
  destruct (_get_epsilon_nonzero X epsilon He) as (h & -> & Hlen & Hall).
  cbn [rbind]. apply map_result_total_in. intros k Hk.
  apply in_seq in Hk.
  destruct (Hf (vadd X (ei (length X) k (nth k (map (fun e => e / 2) h) 0))))
    as [fp ->].
  destruct (Hf (vsub X (ei (length X) k (nth k (map (fun e => e / 2) h) 0))))
    as [fm ->].
  cbn [rbind]. rewrite divide_nonzero; [eauto|].
  apply half_step_nonzero; [exact Hall|lia].
Qed.

(** With a step of zero the quotient of the first coordinate is that of
    zero by zero. *)
Lemma num_grad_zero_step (func : vec -> result Q) (x : Q) (X : vec) (h : Q) :
  (forall x, exists p, func x = Ok p) ->
  h == 0 ->
  num_grad func (Vector (x :: X)) (StepScalar h) = Raise NaN.
Proof.
  intros Hf Hh. unfold num_grad, approx_fprime.
  destruct (Hf (x :: X)) as [p ->].
  cbn [rbind _get_epsilon length repeat seq map_result map nth].
  destruct (Hf (vadd (x :: X) (ei (S (length X)) 0 (h / 2)))) as [fp ->].
  destruct (Hf (vsub (x :: X) (ei (S (length X)) 0 (h / 2)))) as [fm ->].
  cbn [rbind]. rewrite divide_zero; [reflexivity|].
  rewrite Hh. reflexivity.
Qed.

Lemma squeeze_vector (X : vec) : length X <> 1%nat -> squeeze X = Vector X.
Proof. destruct X as [|x [|y X]]; cbn; congruence. Qed.

Lemma squeeze_scalar (X : vec) :
  length X = 1%nat -> exists x, squeeze X = Scalar x.
Proof. destruct X as [|x [|y X]]; cbn; try discriminate. eauto. Qed.

Lemma num_grad_squeeze_length (func : vec -> result Q) (X : vec)
      (epsilon : step_size) (g : vec) :
  num_grad func (squeeze X) epsilon = Ok g -> length g = length X.
Proof.
  destruct (Nat.eq_dec (length X) 1) as [E|E].
  - destruct (squeeze_scalar X E) as [x ->]. discriminate.
  - rewrite (squeeze_vector X E). apply num_grad_length.
Qed.

(** X8. [get_wachter_grads] returns only for the three methods ['wachter'],
    ['wachter_rev'] and ['adiabatic']. For any other method it raises. When
    neither the prediction function nor the distance function raises and the
    step size, if one is given, is not zero, it raises [TypeError] for a
    candidate of a single feature, which [squeeze] turns into an array
    without axes that the numerical gradient refuses, and [ValueError] for
    every other candidate: the method is looked at only after both numerical
    gradients have been taken. *)
Theorem unknown_method_raises
    (X_current : vec) (predict_class_fn : vec -> result Q)
    (distance_fn : vec -> vec -> result Q) (X_test : vec)
    (target_proba lam : Q) (epsilons : epsilons_t) (method : string) :
  method <> "wachter"%string -> method <> "wachter_rev"%string ->
  method <> "adiabatic"%string ->
  (forall lg,
      get_wachter_grads X_current predict_class_fn distance_fn X_test
        target_proba lam epsilons method <> Ok lg) /\
  ((forall x, exists p, predict_class_fn x = Ok p) ->
   (forall x, exists d, distance_fn x X_test = Ok d) ->
   (forall e, epsilons = EpsFloat e -> ~ e == 0) ->
   get_wachter_grads X_current predict_class_fn distance_fn X_test
     target_proba lam epsilons method
   = Raise (if (length X_current =? 1)%nat then TypeError else ValueError)).
Proof.
  intros H1 H2 H3. apply String.eqb_neq in H1, H2, H3.
  unfold get_wachter_grads. rewrite H1, H2, H3. split.
  - intros lg.
    destruct (predict_class_fn X_current); [|discriminate]. cbn [rbind].
    destruct (num_grad predict_class_fn _ _); [|discriminate]. cbn [rbind].
    destruct (num_grad _ _ _); discriminate.
  - intros Hp Hd Hz. destruct (Hp X_current) as [p ->]. cbn [rbind].
    destruct (Nat.eqb_spec (length X_current) 1) as [E|E].
    + destruct (squeeze_scalar X_current E) as [x ->]. reflexivity.
    + rewrite (squeeze_vector X_current E).
      set (eps := match epsilons with EpsFloat e => StepScalar e | _ => StepNone end).
      assert (He : match eps with
                   | StepNone => True
                   | StepScalar h => ~ h == 0
                   | StepArray _ => False
                   end).
      { subst eps. destruct epsilons as [|e|a]; try exact I. now apply Hz. }
      destruct (num_grad_total predict_class_fn X_current eps Hp He) as [g1 ->].
      destruct (num_grad_total (fun x => distance_fn x X_test) X_current eps
                  Hd He) as [g2 ->].
      reflexivity.
Qed.

Lemma unknown_method_raises_witness :
  get_wachter_grads [2; 3] (fun _ => Ok (1 # 2))
    (fun u v => Ok (Np.Qsum (map Qabs (vsub u v)))) [2; 3]
    (9 # 10) (1 # 100) EpsNone "newton" = Raise ValueError /\
  get_wachter_grads [2] (fun _ => Ok (1 # 2))
    (fun u v => Ok (Np.Qsum (map Qabs (vsub u v)))) [2]
    (9 # 10) (1 # 100) EpsNone "newton" = Raise TypeError.
Proof.
  split.
  - apply (proj2 (@unknown_method_raises [2; 3] (fun _ => Ok (1 # 2))
                    (fun u v => Ok (Np.Qsum (map Qabs (vsub u v)))) [2; 3]
                    (9 # 10) (1 # 100) EpsNone "newton"
                    ltac:(discriminate) ltac:(discriminate)
                    ltac:(discriminate)));
      [intros x; eauto | intros x; eauto | discriminate].
  - apply (proj2 (@unknown_method_raises [2] (fun _ => Ok (1 # 2))
                    (fun u v => Ok (Np.Qsum (map Qabs (vsub u v)))) [2]
                    (9 # 10) (1 # 100) EpsNone "newton"
                    ltac:(discriminate) ltac:(discriminate)
                    ltac:(discriminate)));
      [intros x; eauto | intros x; eauto | discriminate].
Defined.

Lemma get_wachter_grads_length
    (X_current : vec) (predict_class_fn : vec -> result Q)
    (distance_fn : vec -> vec -> result Q) (X_test : vec)
    (target_proba lam : Q) (epsilons : epsilons_t) (method : string)
    (l : Q) (g : vec) :
  get_wachter_grads X_current predict_class_fn distance_fn X_test
    target_proba lam epsilons method = Ok (l, g) ->
  length g = length X_current.
Proof.
  unfold get_wachter_grads.
  destruct (predict_class_fn X_current) as [pred|]; [|discriminate].
  cbn [rbind].
  destruct (num_grad predict_class_fn _ _) as [g1|] eqn:E1; [|discriminate].
  cbn [rbind].
  destruct (num_grad (fun x => distance_fn x X_test) _ _) as [g2|] eqn:E2;
    [|discriminate].
  cbn [rbind]. apply num_grad_squeeze_length in E1, E2.
  repeat match goal with
         | |- context [if ?b then _ else _] => destruct b
         end; try discriminate;
    (destruct (distance_fn X_current X_test); [|discriminate]);
    cbn [rbind]; intros [= _ <-]; unfold vadd, vscale;
    rewrite zip_with_length; rewrite ?length_map; congruence.
Qed.

(** X9. The gradient [get_wachter_grads] returns has one entry per coordinate
    of the candidate. *)
Theorem gradient_has_candidate_length
    (X_current : vec) (predict_class_fn : vec -> result Q)
    (distance_fn : vec -> vec -> result Q) (X_test : vec)
    (target_proba lam : Q) (epsilons : epsilons_t) (method : string)
    (l : Q) (g : vec) :
  get_wachter_grads X_current predict_class_fn distance_fn X_test
    target_proba lam epsilons method = Ok (l, g) ->
  length g = length X_current.
Proof. apply get_wachter_grads_length. Qed.

Lemma gradient_has_candidate_length_witness :
  exists l g,
    get_wachter_grads [21 # 10; 2] (fun _ => Ok (1 # 2)) cityblock [2; 2]
      (9 # 10) (1 # 100) (EpsFloat 1) "adiabatic" = Ok (l, g) /\
    length g = 2%nat.
Proof.
  eexists _, _. split; [vm_compute; reflexivity|].
  eapply (@gradient_has_candidate_length [21 # 10; 2] (fun _ => Ok (1 # 2))
            cityblock [2; 2] (9 # 10) (1 # 100) (EpsFloat 1) "adiabatic").
  vm_compute. reflexivity.
Defined.

Lemma Qsquare_nonneg (x : Q) : 0 <= x ^ 2.
Proof.
  change (x ^ 2) with (x * x).
  destruct (Qlt_le_dec x 0) as [H|H]; nra.
Qed.

(** X10. When the distance of the candidate to the instance is not negative
    and [lam] is not negative (and at most one for ['adiabatic']), the loss
    [get_wachter_grads] returns is not negative. *)
Theorem loss_nonnegative
    (X_current : vec) (predict_class_fn : vec -> result Q)
    (distance_fn : vec -> vec -> result Q) (X_test : vec)
    (target_proba lam : Q) (epsilons : epsilons_t) (method : string)
    (l : Q) (g : vec) :
  (forall d, distance_fn X_current X_test = Ok d -> 0 <= d) ->
  0 <= lam ->
  (method = "adiabatic"%string -> lam <= 1) ->
  get_wachter_grads X_current predict_class_fn distance_fn X_test
    target_proba lam epsilons method = Ok (l, g) ->
  0 <= l.
Proof.
  intros Hd Hlam Had. unfold get_wachter_grads.
  destruct (predict_class_fn X_current) as [pred|]; [|discriminate].
  cbn [rbind].
  destruct (num_grad predict_class_fn _ _) as [g1|]; [|discriminate].
  cbn [rbind].
  destruct (num_grad (fun x => distance_fn x X_test) _ _) as [g2|];
    [|discriminate].
  cbn [rbind].
  pose proof (Qsquare_nonneg (pred - target_proba)) as Hsq.
  destruct (String.eqb_spec method "wachter");
    [|destruct (String.eqb_spec method "wachter_rev");
      [|destruct (String.eqb_spec method "adiabatic"); [|discriminate]]];
    (destruct (distance_fn X_current X_test) as [d|]; [|discriminate]);
    cbn [rbind]; intros [= <- _]; specialize (Hd d eq_refl).
  - nra.
  - nra.
  - specialize (Had e). nra.
Qed.

Lemma loss_nonnegative_witness :
  exists l g,
    get_wachter_grads [21 # 10; 2] (fun _ => Ok (1 # 2)) cityblock [2; 2]
      (9 # 10) (1 # 100) (EpsFloat 1) "wachter_rev" = Ok (l, g) /\
    0 <= l.
Proof.
  eexists _, _. split; [vm_compute; reflexivity|].
  eapply (@loss_nonnegative [21 # 10; 2] (fun _ => Ok (1 # 2))
            cityblock [2; 2] (9 # 10) (1 # 100) (EpsFloat 1) "wachter_rev").
  - intros d. apply cityblock_nonneg.
  - vm_compute. discriminate.
  - discriminate.
  - vm_compute. reflexivity.
Defined.

(** ** Distance module *)

Module BatchFacts.

Import Np.

Lemma chunks_concat (sz n : nat) (d : list Q) :
  length d = (n * sz)%nat -> concat (chunks sz n d) = d.
Proof.
  revert d; induction n as [|n IH]; intros d H; cbn [chunks concat].
  - destruct d; [reflexivity|discriminate].
  - rewrite IH; [apply firstn_skipn|]. rewrite length_skipn. cbn in H. lia.
Qed.

Lemma chunks_lengths (sz n : nat) (d : list Q) :
  length d = (n * sz)%nat -> Forall (fun c => length c = sz) (chunks sz n d).
Proof.
  revert d; induction n as [|n IH]; intros d H; cbn [chunks]; constructor.
  - rewrite length_firstn. cbn in H. lia.
  - apply IH. rewrite length_skipn. cbn in H. lia.
Qed.

(** An array seen with its own shape is unchanged. *)
Lemma broadcast_to_same (s : list nat) :
  forall d, length d = size_of s -> broadcast_to s s d = d.
Proof.
  induction s as [|a s IH]; intros d H; cbn [broadcast_to]; [reflexivity|].
  rewrite Nat.eqb_refl. cbn [size_of fold_right] in H.
  fold (size_of s) in H.
  rewrite <- (chunks_concat (size_of s) a d H) at 2. f_equal.
  rewrite <- (map_id (chunks (size_of s) a d)) at 2.
  apply map_ext_in. intros c Hc. apply IH.
  pose proof (chunks_lengths (size_of s) a d H) as Hl.
  rewrite Forall_forall in Hl. now apply Hl.
Qed.

(** A reference array seen as a batch of [n] rows is [n] copies of it. *)
Lemma broadcast_to_batch (n : nat) (s : list nat) (d : list Q) :
  length d = size_of s ->
  broadcast_to (1%nat :: s) (n :: s) d = concat (repeat d n).
Proof.
  intros H. cbn [broadcast_to chunks map hd].
  rewrite <- H, firstn_all, (broadcast_to_same s d H).
  destruct (Nat.eqb_spec 1 n) as [<-|_]; reflexivity.
Qed.

Lemma zip_with_app (f : Q -> Q -> Q) (u1 u2 v1 v2 : list Q) :
  length u1 = length v1 ->
  zip_with f (u1 ++ u2) (v1 ++ v2) = zip_with f u1 v1 ++ zip_with f u2 v2.
Proof.
  revert v1; induction u1 as [|x u1 IH]; intros [|y v1]; cbn;
    try discriminate; [reflexivity|].
  intros [= H]. now rewrite IH.
Qed.

Lemma zip_with_length_min (f : Q -> Q -> Q) (u v : list Q) :
  length (zip_with f u v) = Nat.min (length u) (length v).
Proof.
  revert v; induction u as [|x u IH]; intros [|y v]; cbn; auto.
Qed.

Lemma firstn_app_exact (k : nat) (a b : list Q) :
  length a = k -> firstn k (a ++ b) = a.
Proof.
  intros <-. rewrite firstn_app, firstn_all, Nat.sub_diag. cbn [firstn].
  apply app_nil_r.
Qed.

Lemma skipn_app_exact (k : nat) (a b : list Q) :
  length a = k -> skipn k (a ++ b) = b.
Proof.
  intros <-. now rewrite skipn_app, skipn_all, Nat.sub_diag.
Qed.

(** The rows of a batch minus a reference, row by row. *)
Lemma chunks_zip_with_repeat (f : Q -> Q -> Q) (sz n : nat) (u v : list Q) :
  length u = (n * sz)%nat -> length v = sz ->
  chunks sz n (zip_with f u (concat (repeat v n)))
  = map (fun row => zip_with f row v) (chunks sz n u).
Proof.
  revert u; induction n as [|n IH]; intros u Hu Hv; cbn [chunks repeat concat map];
    [reflexivity|].
  assert (Hf : length (firstn sz u) = length v)
    by (rewrite length_firstn; cbn in Hu; lia).
  rewrite <- (firstn_skipn sz u) at 1 2.
  rewrite (zip_with_app f _ _ _ _ Hf).
  assert (Hz : length (zip_with f (firstn sz u) v) = sz)
    by (rewrite zip_with_length_min; lia).
  rewrite (firstn_app_exact _ _ Hz), (skipn_app_exact _ _ Hz).
  f_equal. apply IH; [|exact Hv]. rewrite length_skipn. cbn in Hu. lia.
Qed.

Lemma chunks_map (g : Q -> Q) (sz n : nat) (d : list Q) :
  chunks sz n (map g d) = map (map g) (chunks sz n d).
Proof.
  revert d; induction n as [|n IH]; intros d; cbn [chunks map];
    [reflexivity|].
  now rewrite firstn_map, skipn_map, IH.
Qed.

Lemma shape_eqb_eq (s t : list nat) : shape_eqb s t = true <-> s = t.
Proof.
  revert t; induction s as [|a s IH]; intros [|b t]; cbn;
    try (split; [discriminate|discriminate]); [tauto|].
  rewrite andb_true_iff, Nat.eqb_eq, IH.
  split; [intros [-> ->]; reflexivity | intros [= -> ->]; auto].
Qed.

(** The difference of a batch and a reference. *)
Lemma subtract_batch (X y : ndarray) (n : nat) (s : list nat) :
  shape X = n :: s -> shape y = s -> (0 < n)%nat ->
  length (data X) = (n * size_of s)%nat ->
  length (data y) = size_of s ->
  subtract X y
  = Ok {| shape := n :: s;
          data := zip_with Qminus (data X) (concat (repeat (data y) n)) |}.
Proof.
  intros HX Hy Hn HdX Hdy. unfold subtract; cbv zeta. rewrite HX, Hy.
  replace (Nat.max (length (n :: s)) (length s)) with (length (n :: s))
    by (symmetry; apply Nat.max_l; simpl; lia).
  rewrite DistanceFacts.pad_shape_full. simpl length.
  rewrite DistanceFacts.pad_shape_one,
    (DistanceFacts.broadcast_shapes_batch s Hn).
  rewrite broadcast_to_batch by exact Hdy.
  rewrite broadcast_to_same; [reflexivity|].
  cbn [size_of fold_right]. exact HdX.
Qed.

End BatchFacts.

(** X11. For a batch [X] of [n] rows, [n] at least one, and a reference [y]
    with the shape of a row, both holding as many numbers as their shapes
    say, [cityblock_batch] gives for each row of [X] what the metric
    [cityblock] of the registry gives for that row and [y]. *)
Theorem cityblock_batch_is_cityblock_by_row
    (X y : Np.ndarray) (n : nat) (s : list nat) :
  Np.shape X = n :: s -> Np.shape y = s -> (0 < n)%nat ->
  length (Np.data X) = (n * Np.size_of s)%nat ->
  length (Np.data y) = Np.size_of s ->
  exists r,
    cityblock_batch X y = Ok r /\
    map_result (fun row => cityblock row (Np.data y))
      (Np.chunks (Np.size_of s) n (Np.data X)) = Ok (Np.data r).
Proof.
  intros HX Hy Hn HdX Hdy.
  destruct (DistanceFacts.cityblock_batch_compatible X y HX
              (or_intror (conj Hy Hn))) as (d & Hd & ->).
  eexists; split; [reflexivity|]. cbn [Np.data].
  assert (Ed : Np.data d
               = Np.zip_with Qminus (Np.data X)
                   (concat (repeat (Np.data y) n))).
  { rewrite (BatchFacts.subtract_batch X y HX Hy Hn HdX Hdy) in Hd.
    now injection Hd as <-. }
  rewrite Ed, BatchFacts.chunks_map,
    (@BatchFacts.chunks_zip_with_repeat Qminus _ _ _ _ HdX Hdy), !map_map.
  pose proof (BatchFacts.chunks_lengths _ _ _ HdX) as Hl.
  induction Hl as [|row rows Hrow _ IH]; cbn [map map_result];
    [reflexivity|].
  unfold cityblock at 1. rewrite Hrow, Hdy, Nat.eqb_refl. cbn [rbind].
  now rewrite IH.
Qed.

Lemma cityblock_batch_is_cityblock_by_row_witness :
  exists r,
    cityblock_batch (Np.mk_ndarray [2; 3]%nat [1; 2; 3; 4; 5; 6])
                    (Np.mk_ndarray [3]%nat [1; 1; 1]) = Ok r /\
    map_result (fun row => cityblock row [1; 1; 1]) [[1; 2; 3]; [4; 5; 6]]
    = Ok (Np.data r).
Proof.
  apply (@cityblock_batch_is_cityblock_by_row
           (Np.mk_ndarray [2; 3]%nat [1; 2; 3; 4; 5; 6])
           (Np.mk_ndarray [3]%nat [1; 1; 1]) 2%nat [3%nat]);
    try reflexivity. lia.
Defined.

Lemma abs_diff_sym (a b : list Q) :
  map Qabs (Np.zip_with Qminus a b) = map Qabs (Np.zip_with Qminus b a).
Proof.
  revert b; induction a as [|x a IH]; intros [|y b]; cbn [Np.zip_with map];
    try reflexivity.
  now rewrite Qabs_Qminus, IH.
Qed.

Lemma subtract_abs_sym (X y : Np.ndarray) :
  Np.shape X = Np.shape y ->
  (d <- Np.subtract X y ;; Ok (Np.abs d))
  = (d <- Np.subtract y X ;; Ok (Np.abs d)).
Proof.
  intros H. unfold Np.subtract; cbv zeta. rewrite H.
  destruct (Np.broadcast_shapes _ _); [|reflexivity].
  cbn [rbind]. unfold Np.abs. cbn [Np.shape Np.data].
  now rewrite abs_diff_sym.
Qed.

(** X12. For two arrays of the same shape [cityblock_batch] does not depend
    on the order of its arguments: it returns the same distances, or raises
    the same exception. *)
Theorem cityblock_batch_symmetric (X y : Np.ndarray) :
  Np.shape X = Np.shape y ->
  cityblock_batch X y = cityblock_batch y X.
Proof.
  intros H. pose proof (subtract_abs_sym X y H) as Hs.
  unfold cityblock_batch; cbv zeta. unfold Np.shape_at. rewrite H.
  destruct (if (length (Np.shape y) =? length (Np.shape y))%nat
            then _ else _) as [[]|e]; [|reflexivity].
  cbn [rbind].
  destruct (Np.subtract X y) as [d1|e1], (Np.subtract y X) as [d2|e2];
    cbn [rbind] in *; try discriminate.
  - assert (Ha : Np.abs d1 = Np.abs d2) by congruence. now rewrite Ha.
  - exact Hs.
Qed.

Lemma cityblock_batch_symmetric_witness :
  cityblock_batch (Np.mk_ndarray [1; 3]%nat [1; 2; 3])
                  (Np.mk_ndarray [1; 3]%nat [4; 0; 3])
  = cityblock_batch (Np.mk_ndarray [1; 3]%nat [4; 0; 3])
                    (Np.mk_ndarray [1; 3]%nat [1; 2; 3]).
Proof.
  apply (@cityblock_batch_symmetric (Np.mk_ndarray [1; 3]%nat [1; 2; 3])
           (Np.mk_ndarray [1; 3]%nat [4; 0; 3])).
  reflexivity.
Defined.

(** X13. [cityblock_batch] raises [AssertionError] in exactly two cases: the
    arrays have the same number of axes and the first axis of [y] is not of
    length one, or they have different numbers of axes and the shape of [y]
    is not the shape of [X] without its first axis. *)
Theorem cityblock_batch_assertions (X y : Np.ndarray) :
  cityblock_batch X y = Raise AssertionError <->
  (length (Np.shape X) = length (Np.shape y) /\
   exists b s, Np.shape y = b :: s /\ b <> 1%nat) \/
  (length (Np.shape X) <> length (Np.shape y) /\
   tl (Np.shape X) <> Np.shape y).
Proof.
  unfold cityblock_batch; cbv zeta.
  assert (Hrest : forall r : result Np.ndarray,
             r = (d <- Np.subtract X y ;;
                  x0 <- Np.shape_at X 0 ;;
                  Np.reshape_rows x0 (Np.sum_trailing_axes (Np.abs d))) ->
             r <> Raise AssertionError).
  { intros r ->. unfold Np.subtract, Np.shape_at, Np.reshape_rows; cbv zeta.
    destruct (Np.broadcast_shapes _ _); [|discriminate]. cbn [rbind].
    destruct (nth_error (Np.shape X) 0); [|discriminate]. cbn [rbind].
    destruct (_ =? 0)%nat; [discriminate|].
    destruct (_ =? 0)%nat; discriminate. }
  specialize (Hrest _ eq_refl).
  destruct (Nat.eqb_spec (length (Np.shape X)) (length (Np.shape y)))
    as [E|E].
  - unfold Np.shape_at.
    destruct (Np.shape y) as [|b s] eqn:Ey; cbn [nth_error rbind].
    + split; [discriminate|].
      intros [(_ & b & s & Hb & _)|[Hne _]]; [discriminate|now elim Hne].
    + destruct (Nat.eqb_spec b 1) as [->|Hb]; cbn [py_assert rbind].
      * split; [intros H; now elim Hrest|].
        intros [(_ & b & s' & [= <- _] & Hb)|[Hne _]];
          [now elim Hb|now elim Hne].
      * split; [|reflexivity]. intros _. left. split; [exact E|].
        now exists b, s.
  - destruct (Np.shape_eqb (tl (Np.shape X)) (Np.shape y)) eqn:Et;
      cbn [py_assert rbind].
    + apply BatchFacts.shape_eqb_eq in Et.
      split; [intros H; now elim Hrest|].
      intros [[Heq _]|[_ Hne]]; [now elim E|now elim Hne].
    + split; [|reflexivity]. intros _. right. split; [exact E|].
      intros Heq. apply BatchFacts.shape_eqb_eq in Heq. congruence.
Qed.

Lemma cityblock_batch_assertions_witness :
  cityblock_batch (Np.mk_ndarray [2; 3]%nat [1; 2; 3; 4; 5; 6])
                  (Np.mk_ndarray [2]%nat [1; 1])
  = Raise AssertionError.
Proof.
  apply (proj2 (cityblock_batch_assertions
                  (Np.mk_ndarray [2; 3]%nat [1; 2; 3; 4; 5; 6])
                  (Np.mk_ndarray [2]%nat [1; 1]))).
  right. split; discriminate.
Defined.

(** ** Target-function selector *)

(** X14. The policy ['other'] needs a second class to turn to: when the
    prediction has no row, or its first row has no class, or its first row
    has the single class 0 and the predicted class is 0, the scalar function
    raises [IndexError]. *)
Theorem other_policy_needs_two_classes
    (input : Type) (predict_fn : input -> matrix) (pred_class : Z) (X : input) :
  predict_fn X = [] \/
  (exists rest, predict_fn X = [] :: rest) \/
  (exists p rest, predict_fn X = [p] :: rest /\ pred_class = 0%Z) ->
  fst (_define_func predict_fn pred_class (TStr "other")) X = Raise IndexError.
Proof.
  intros H. unfold _define_func. cbn [target_eqb]. rewrite String.eqb_refl.
  cbn [fst]. unfold other_func, other_target.
  destruct H as [->|[[rest ->]|(p & rest & -> & ->)]]; reflexivity.
Qed.

Lemma other_policy_needs_two_classes_witness :
  fst (_define_func (fun _ : unit => [[1]]) 0 (TStr "other")) tt
  = Raise IndexError.
Proof.
  apply (@other_policy_needs_two_classes unit (fun _ => [[1]]) 0 tt).
  right. right. now exists 1, [].
Defined.


(** ** Batched numerical gradient *)

Module GradFacts.

Import Np.

Lemma size_of_batch (n : nat) (rest : list nat) :
  size_of (n :: rest) = (n * size_of rest)%nat.
Proof. reflexivity. Qed.

(** The view of a batch as [n] rows of [F] numbers. *)
Lemma reshape_rows_batch (X : ndarray) (n : nat) (rest : list nat) :
  shape X = n :: rest -> (0 < n)%nat ->
  reshape_rows n X
  = Ok {| shape := [n; size_of rest]; data := data X |}.
Proof.
  intros HX Hn. unfold reshape_rows. rewrite HX, size_of_batch.
  destruct (Nat.eqb_spec n 0); [lia|].
  rewrite Nat.mul_comm, Nat.Div0.mod_mul, Nat.div_mul by lia.
  reflexivity.
Qed.

Lemma eye_row_length (dim k : nat) : length (eye_row dim k) = dim.
Proof. unfold eye_row. now rewrite length_map, length_seq. Qed.

Lemma flat_map_length_const {A : Type} (h : A -> list Q) (l : list A) (sz : nat) :
  (forall a, In a l -> length (h a) = sz) ->
  length (flat_map h l) = (length l * sz)%nat.
Proof.
  induction l as [|a l IH]; intros H; cbn [flat_map length]; [reflexivity|].
  rewrite length_app, IH by (intros; apply H; now right).
  rewrite (H a) by now left. cbn. lia.
Qed.

Lemma concat_repeat_length (d : list Q) (n : nat) :
  length (concat (repeat d n)) = (n * length d)%nat.
Proof.
  induction n as [|n IH]; cbn [repeat concat]; [reflexivity|].
  rewrite length_app, IH. cbn. lia.
Qed.

(** An operation on two arrays of one shape works element by element. *)
Lemma broadcast_op_same (f : Q -> Q -> Q) (a b : ndarray) :
  shape a = shape b ->
  length (data a) = size_of (shape a) ->
  length (data b) = size_of (shape a) ->
  broadcast_op f a b
  = Ok {| shape := shape a; data := zip_with f (data a) (data b) |}.
Proof.
  intros Hs Ha Hb. unfold broadcast_op; cbv zeta. rewrite <- Hs.
  rewrite Nat.max_id, DistanceFacts.pad_shape_full,
    DistanceFacts.broadcast_shapes_refl.
  now rewrite !BatchFacts.broadcast_to_same.
Qed.

(** A row repeated against the rows of a block. *)
Lemma zip_with_repeat_flat_map {A : Type} (f : Q -> Q -> Q) (row : list Q)
      (h : A -> list Q) (ks : list A) :
  (forall k, In k ks -> length (h k) = length row) ->
  zip_with f (concat (repeat row (length ks))) (flat_map h ks)
  = flat_map (fun k => zip_with f row (h k)) ks.
Proof.
  induction ks as [|k ks IH]; intros H; cbn [length repeat concat flat_map];
    [reflexivity|].
  rewrite BatchFacts.zip_with_app by (symmetry; apply H; now left).
  rewrite IH by (intros; apply H; now right). reflexivity.
Qed.

(** Rows against a block tiled once per row. *)
Lemma zip_with_flat_map_tile (f : Q -> Q -> Q) (G : list Q -> list Q)
      (B : list Q) (rows : list (list Q)) :
  (forall row, In row rows -> length (G row) = length B) ->
  zip_with f (flat_map G rows) (concat (repeat B (length rows)))
  = flat_map (fun row => zip_with f (G row) B) rows.
Proof.
  induction rows as [|row rows IH]; intros H;
    cbn [length repeat concat flat_map]; [reflexivity|].
  rewrite BatchFacts.zip_with_app by (apply H; now left).
  rewrite IH by (intros; apply H; now right). reflexivity.
Qed.

End GradFacts.

Module PerturbFacts.

Import Np.

Lemma map_flat_map {A : Type} (g : Q -> Q) (h : A -> list Q) (l : list A) :
  map g (flat_map h l) = flat_map (fun a => map g (h a)) l.
Proof.
  induction l as [|a l IH]; cbn [flat_map map]; [reflexivity|].
  now rewrite map_app, IH.
Qed.

Lemma flat_map_ext_in {A B : Type} (f g : A -> list B) (l : list A) :
  (forall a, In a l -> f a = g a) -> flat_map f l = flat_map g l.
Proof.
  induction l as [|a l IH]; intros H; cbn [flat_map]; [reflexivity|].
  rewrite (H a) by now left. rewrite IH; [reflexivity|].
  intros; apply H; now right.
Qed.

Lemma perturb_rows (f : Q -> Q -> Q) (F n : nat) (h : nat -> list Q)
      (d : list Q) :
  length d = (n * F)%nat ->
  (forall k, length (h k) = F) ->
  broadcast_op f
    {| shape := [(n * F)%nat; F];
       data := flat_map (fun row => concat (repeat row F)) (chunks F n d) |}
    {| shape := [(n * F)%nat; F];
       data := concat (repeat (flat_map h (seq 0 F)) n) |}
  = Ok {| shape := [(n * F)%nat; F];
          data := flat_map
                    (fun row => flat_map (fun k => zip_with f row (h k))
                                  (seq 0 F))
                    (chunks F n d) |}.
Proof.
  intros Hd Hh.
  pose proof (BatchFacts.chunks_lengths F n d Hd) as Hl.
  rewrite Forall_forall in Hl.
  assert (HB : length (flat_map h (seq 0 F)) = (F * F)%nat).
  { rewrite (GradFacts.flat_map_length_const h (seq 0 F) (sz := F)) by auto.
    now rewrite length_seq. }
  rewrite GradFacts.broadcast_op_same; cbn [shape data].
  - f_equal. f_equal.
    rewrite <- (DistanceFacts.chunks_length F n d) at 2.
    rewrite GradFacts.zip_with_flat_map_tile.
    + apply flat_map_ext_in. intros row Hrow.
      replace (repeat row F) with (repeat row (length (seq 0 F)))
        by now rewrite length_seq.
      apply GradFacts.zip_with_repeat_flat_map.
      intros k _. now rewrite Hh, (Hl row Hrow).
    + intros row Hrow. rewrite GradFacts.concat_repeat_length, HB.
      now rewrite (Hl row Hrow).
  - reflexivity.
  - rewrite (GradFacts.flat_map_length_const _ _ (sz := (F * F)%nat)).
    + rewrite DistanceFacts.chunks_length. cbn. lia.
    + intros row Hrow. now rewrite GradFacts.concat_repeat_length, (Hl row Hrow).
  - rewrite GradFacts.concat_repeat_length, HB. cbn. lia.
Qed.

Lemma reshape_perturbed (n F : nat) (rest : list nat) (d : list Q) :
  size_of rest = F ->
  reshape {| shape := [(n * F)%nat; F]; data := d |} ((F * n)%nat :: rest)
  = Ok {| shape := (F * n)%nat :: rest; data := d |}.
Proof.
  intros <-. unfold reshape. cbn [shape data size_of fold_right].
  fold (size_of rest).
  replace (n * size_of rest * (size_of rest * 1) =?
           size_of rest * n * size_of rest)%nat with true; [reflexivity|].
  symmetry. apply Nat.eqb_eq. lia.
Qed.

Lemma perturb_plain (X : ndarray) (n : nat) (rest : list nat) (e : Q) :
  shape X = n :: rest -> (0 < n)%nat ->
  length (data X) = (n * size_of rest)%nat ->
  _perturb X (EpsNumber e) false
  = Value
      ({| shape := (size_of rest * n)%nat :: rest;
          data := flat_map
                    (fun row => flat_map (moved Qplus e row)
                                  (seq 0 (size_of rest)))
                    (chunks (size_of rest) n (data X)) |},
       {| shape := (size_of rest * n)%nat :: rest;
          data := flat_map
                    (fun row => flat_map (moved Qminus e row)
                                  (seq 0 (size_of rest)))
                    (chunks (size_of rest) n (data X)) |}).
Proof.
  intros HX Hn Hd. set (F := size_of rest) in *.
  pose proof (BatchFacts.chunks_lengths F n (data X) Hd) as Hl.
  rewrite Forall_forall in Hl.
  unfold _perturb. unfold shape_at at 1. rewrite HX.
  cbn [nth_error of_result obind].
  rewrite (GradFacts.reshape_rows_batch X HX Hn). fold F.
  cbn [of_result obind shape_at shape nth_error times eye data tile_rows
         repeat_rows tl].
  rewrite map_flat_map.
  replace (size_of [F]) with F by (cbn; lia).
  rewrite !(@perturb_rows _ F n
               (fun k => map (fun v => v * e) (eye_row F k)) (data X) Hd)
    by (intros k; now rewrite length_map, GradFacts.eye_row_length).
  cbn [of_result obind tl].
  rewrite !reshape_perturbed by reflexivity.
  cbn [of_result obind].
  assert (Hm : forall f,
             flat_map
               (fun row => flat_map
                  (fun k => zip_with f row
                              (map (fun v => v * e) (eye_row F k)))
                  (seq 0 F))
               (chunks F n (data X))
             = flat_map (fun row => flat_map (moved f e row) (seq 0 F))
                 (chunks F n (data X))).
  { intros f. apply flat_map_ext_in. intros row Hrow. unfold moved.
    now rewrite (Hl row Hrow). }
  now rewrite !Hm.
Qed.

Lemma zip_with_nth (f : Q -> Q -> Q) (u v : list Q) (j : nat) :
  (j < length u)%nat -> (j < length v)%nat ->
  nth j (zip_with f u v) 0 = f (nth j u 0) (nth j v 0).
Proof.
  revert v j; induction u as [|x u IH]; intros [|y v] [|j]; cbn; try lia;
    [reflexivity|].
  intros Hu Hv. apply IH; lia.
Qed.

Lemma nth_map_seq (g : nat -> Q) (a len j : nat) (d : Q) :
  (j < len)%nat -> nth j (map g (seq a len)) d = g (a + j)%nat.
Proof.
  revert a j; induction len as [|len IH]; intros a [|j] H; cbn [seq map nth];
    try lia.
  - now rewrite Nat.add_0_r.
  - rewrite IH by lia. f_equal. lia.
Qed.

Lemma nth_map_default (g : Q -> Q) (l : list Q) (j : nat) :
  (j < length l)%nat -> nth j (map g l) 0 = g (nth j l 0).
Proof.
  revert j; induction l as [|x l IH]; intros [|j] H; cbn in *; try lia;
    [reflexivity|].
  apply IH. lia.
Qed.

Lemma eye_row_nth (dim k j : nat) :
  (j < dim)%nat -> nth j (eye_row dim k) 0 = if (k =? j)%nat then 1 else 0.
Proof. intros H. unfold eye_row. now rewrite nth_map_seq. Qed.

Lemma moved_nth (f : Q -> Q -> Q) (e : Q) (row : list Q) (k j : nat) :
  (j < length row)%nat ->
  nth j (moved f e row k) 0
  = f (nth j row 0) ((if (k =? j)%nat then 1 else 0) * e).
Proof.
  intros H. unfold moved.
  rewrite zip_with_nth
    by (rewrite ?length_map, ?GradFacts.eye_row_length; exact H).
  f_equal.
  rewrite nth_map_default by now rewrite GradFacts.eye_row_length.
  now rewrite eye_row_nth.
Qed.

Lemma Qsum_zip_plus (u v : list Q) :
  length u = length v -> Qsum (zip_with Qplus u v) == Qsum u + Qsum v.
Proof.
  revert v; induction u as [|x u IH]; intros [|y v]; cbn [length];
    try discriminate.
  - intros _. reflexivity.
  - intros [= H]. cbn [zip_with Qsum fold_right].
    fold (Qsum (zip_with Qplus u v)) (Qsum u) (Qsum v).
    rewrite (IH v H). ring.
Qed.

Lemma Qsum_zip_minus (u v : list Q) :
  length u = length v -> Qsum (zip_with Qminus u v) == Qsum u - Qsum v.
Proof.
  revert v; induction u as [|x u IH]; intros [|y v]; cbn [length];
    try discriminate.
  - intros _. reflexivity.
  - intros [= H]. cbn [zip_with Qsum fold_right].
    fold (Qsum (zip_with Qminus u v)) (Qsum u) (Qsum v).
    rewrite (IH v H). ring.
Qed.

Lemma Qsum_scaled (c : Q) (l : list Q) :
  Qsum (map (fun v => v * c) l) == Qsum l * c.
Proof.
  induction l as [|x l IH]; cbn [map Qsum fold_right]; [ring|].
  fold (Qsum (map (fun v => v * c) l)) (Qsum l). rewrite IH. ring.
Qed.

Lemma Qsum_shifted (l : list Q) :
  Qsum (map (fun v => v - 1) l) == Qsum l - inject_Z (Z.of_nat (length l)).
Proof.
  induction l as [|x l IH]; cbn [map Qsum fold_right length]; [reflexivity|].
  fold (Qsum (map (fun v => v - 1) l)) (Qsum l). rewrite IH.
  rewrite Nat2Z.inj_succ, <- Z.add_1_r, inject_Z_plus. ring.
Qed.

Lemma Qsum_delta (k a len : nat) :
  Qsum (map (fun j => if (k =? j)%nat then 1 else 0) (seq a len))
  == if ((a <=? k) && (k <? a + len))%nat then 1 else 0.
Proof.
  revert a; induction len as [|len IH]; intros a; cbn [seq map Qsum fold_right].
  - destruct (Nat.leb_spec a k), (Nat.ltb_spec k (a + 0)); cbn [andb];
      try reflexivity. lia.
  - fold (Qsum (map (fun j => if (k =? j)%nat then 1 else 0) (seq (S a) len))).
    rewrite IH.
    destruct (Nat.eqb_spec k a), (Nat.leb_spec (S a) k),
      (Nat.ltb_spec k (S a + len)), (Nat.leb_spec a k),
      (Nat.ltb_spec k (a + S len)); cbn [andb]; try lia; reflexivity.
Qed.

Lemma Qsum_eye_row (dim k : nat) : (k < dim)%nat -> Qsum (eye_row dim k) == 1.
Proof.
  intros H. unfold eye_row. rewrite Qsum_delta.
  destruct (Nat.leb_spec 0 k), (Nat.ltb_spec k (0 + dim)); cbn [andb];
    try lia. reflexivity.
Qed.

Lemma zip_with_concat_repeat (f : Q -> Q -> Q) (B B2 : list Q) (n : nat) :
  length B = length B2 ->
  zip_with f (concat (repeat B n)) (concat (repeat B2 n))
  = concat (repeat (zip_with f B B2) n).
Proof.
  intros H. induction n as [|n IH]; cbn [repeat concat]; [reflexivity|].
  now rewrite BatchFacts.zip_with_app, IH.
Qed.

Lemma zip_with_flat_map2 {A : Type} (f : Q -> Q -> Q) (h1 h2 : A -> list Q)
      (ks : list A) :
  (forall k, length (h1 k) = length (h2 k)) ->
  zip_with f (flat_map h1 ks) (flat_map h2 ks)
  = flat_map (fun k => zip_with f (h1 k) (h2 k)) ks.
Proof.
  intros H. induction ks as [|k ks IH]; cbn [flat_map]; [reflexivity|].
  now rewrite BatchFacts.zip_with_app, IH.
Qed.

Lemma chunks_of_rows (sz : nat) (l : list (list Q)) :
  Forall (fun c => length c = sz) l -> chunks sz (length l) (concat l) = l.
Proof.
  induction 1 as [|c l Hc _ IH]; cbn [length concat chunks]; [reflexivity|].
  now rewrite (BatchFacts.firstn_app_exact _ _ Hc),
    (BatchFacts.skipn_app_exact _ _ Hc), IH.
Qed.

Lemma balance_length (F : nat) (e : Q) (k : nat) : length (balance F e k) = F.
Proof.
  unfold balance.
  now rewrite zip_with_length;
    rewrite ?length_map, GradFacts.eye_row_length.
Qed.

Lemma balance_sum (F : nat) (e : Q) (k : nat) :
  (2 <= F)%nat -> (k < F)%nat -> Qsum (balance F e k) == 0.
Proof.
  intros HF Hk. unfold balance.
  rewrite Qsum_zip_plus
    by now rewrite !length_map.
  rewrite !Qsum_scaled, Qsum_shifted, Qsum_eye_row by exact Hk.
  rewrite GradFacts.eye_row_length.
  replace (Z.of_nat F - 1)%Z with (Z.of_nat F + -1)%Z by lia.
  rewrite inject_Z_plus.
  assert (Hne : ~ inject_Z (Z.of_nat F) + inject_Z (-1) == 0).
  { rewrite <- inject_Z_plus. change 0 with (inject_Z 0).
    rewrite inject_Z_injective. lia. }
  change (inject_Z (-1)) with (-(1)) in *. field. exact Hne.
Qed.

Lemma perturb_proba (X : ndarray) (n : nat) (rest : list nat) (e : Q) :
  shape X = n :: rest -> (0 < n)%nat ->
  length (data X) = (n * size_of rest)%nat ->
  (2 <= size_of rest)%nat ->
  _perturb X (EpsNumber e) true
  = Value
      ({| shape := (size_of rest * n)%nat :: rest;
          data := flat_map
                    (fun row =>
                       flat_map (fun k => zip_with Qplus row
                                            (balance (size_of rest) e k))
                         (seq 0 (size_of rest)))
                    (chunks (size_of rest) n (data X)) |},
       {| shape := (size_of rest * n)%nat :: rest;
          data := flat_map
                    (fun row =>
                       flat_map (fun k => zip_with Qminus row
                                            (balance (size_of rest) e k))
                         (seq 0 (size_of rest)))
                    (chunks (size_of rest) n (data X)) |}).
Proof.
  intros HX Hn Hd HF. set (F := size_of rest) in *.
  unfold _perturb. unfold shape_at at 1. rewrite HX.
  cbn [nth_error of_result obind].
  rewrite (GradFacts.reshape_rows_batch X HX Hn). fold F.
  cbn [of_result obind shape_at shape nth_error times eye data].
  unfold eps_over.
  destruct (Z.eqb_spec (Z.of_nat F - 1) 0) as [E|_]; [lia|].
  cbn [times eye_minus_ones eye shape data of_result obind tile_rows].
  rewrite !map_flat_map.
  assert (HB : forall h : nat -> list Q,
             (forall k, length (h k) = F) ->
             length (concat (repeat (flat_map h (seq 0 F)) n))
             = size_of [(n * F)%nat; F]).
  { intros h Hh. rewrite GradFacts.concat_repeat_length,
      (GradFacts.flat_map_length_const h (seq 0 F) (sz := F)), length_seq
      by auto. cbn. lia. }
  unfold iadd. rewrite GradFacts.broadcast_op_same; cbn [shape data];
    [|reflexivity|apply HB|apply HB];
    try (intros k; now rewrite ?length_map, GradFacts.eye_row_length).
  cbn [rbind shape]. rewrite DistanceFacts.shape_eqb_refl.
  rewrite zip_with_concat_repeat
    by (rewrite !(GradFacts.flat_map_length_const _ (seq 0 F) (sz := F));
        [reflexivity| |];
        intros k _; now rewrite ?length_map, GradFacts.eye_row_length).
  rewrite zip_with_flat_map2
    by (intros k; now rewrite !length_map).
  fold (balance F e).
  cbn [of_result obind repeat_rows shape data tl].
  replace (size_of [F]) with F by (cbn; lia).
  rewrite !(@perturb_rows _ F n (balance F e) (data X) Hd)
    by apply balance_length.
  cbn [of_result obind].
  now rewrite !reshape_perturbed by reflexivity.
Qed.

Lemma Forall2_map_repeat {A : Type} (P : list Q -> list Q -> Prop)
      (g : A -> list Q) (x : list Q) (ks : list A) :
  (forall k, In k ks -> P (g k) x) ->
  Forall2 P (map g ks) (repeat x (length ks)).
Proof.
  induction ks as [|k ks IH]; intros H; cbn [map length repeat];
    constructor; [apply H; now left|].
  apply IH. intros; apply H; now right.
Qed.

Lemma Forall2_flat_map {A : Type} (P : list Q -> list Q -> Prop)
      (g1 g2 : A -> list (list Q)) (l : list A) :
  (forall a, In a l -> Forall2 P (g1 a) (g2 a)) ->
  Forall2 P (flat_map g1 l) (flat_map g2 l).
Proof.
  induction l as [|a l IH]; intros H; cbn [flat_map]; [constructor|].
  apply Forall2_app; [apply H; now left|].
  apply IH. intros; apply H; now right.
Qed.

Lemma concat_flat_map_rows {A : Type} (g : A -> list (list Q)) (l : list A) :
  concat (flat_map g l) = flat_map (fun a => concat (g a)) l.
Proof.
  induction l as [|a l IH]; cbn [flat_map concat]; [reflexivity|].
  now rewrite concat_app, IH.
Qed.

(** The rows of a batch that is written row by row. *)
Lemma chunks_of_perturbed (F n : nat) (R : list Q -> nat -> list Q)
      (rows : list (list Q)) :
  length rows = n ->
  (forall row k, In row rows -> length (R row k) = F) ->
  chunks F (n * F)
    (flat_map (fun row => flat_map (R row) (seq 0 F)) rows)
  = flat_map (fun row => map (R row) (seq 0 F)) rows.
Proof.
  intros Hn HR.
  assert (E : flat_map (fun row => flat_map (R row) (seq 0 F)) rows
              = concat (flat_map (fun row => map (R row) (seq 0 F)) rows)).
  { rewrite concat_flat_map_rows. apply flat_map_ext_in. intros row _.
    now rewrite flat_map_concat_map. }
  rewrite E.
  replace (n * F)%nat
    with (length (flat_map (fun row => map (R row) (seq 0 F)) rows)).
  - apply chunks_of_rows. apply Forall_forall. intros c Hc.
    apply in_flat_map in Hc as (row & Hrow & Hc).
    apply in_map_iff in Hc as (k & <- & _). now apply HR.
  - rewrite <- Hn. clear. induction rows as [|row rows IH];
      cbn [flat_map length]; [reflexivity|].
    rewrite length_app, length_map, length_seq, IH. lia.
Qed.


End PerturbFacts.

(** X15. For a batch of [n] rows, [n] at least one, that holds as many
    numbers as its shape says, and a [float] step [e], [_perturb] gives two
    batches of [F * n] rows of the shape of a row of [X], [F] being the
    number of features of a row: for each row of [X] in turn and each
    feature [k] in turn, the row with [e] added to feature [k] alone, and the
    row with [e] subtracted from feature [k] alone. *)
Theorem perturb_one_feature_at_a_time
    (X : Np.ndarray) (n : nat) (rest : list nat) (e : Q) :
  Np.shape X = n :: rest -> (0 < n)%nat ->
  length (Np.data X) = (n * Np.size_of rest)%nat ->
  _perturb X (EpsNumber e) false
  = Value
      ({| Np.shape := (Np.size_of rest * n)%nat :: rest;
          Np.data := flat_map
                       (fun row => flat_map (moved Qplus e row)
                                     (seq 0 (Np.size_of rest)))
                       (Np.chunks (Np.size_of rest) n (Np.data X)) |},
       {| Np.shape := (Np.size_of rest * n)%nat :: rest;
          Np.data := flat_map
                       (fun row => flat_map (moved Qminus e row)
                                     (seq 0 (Np.size_of rest)))
                       (Np.chunks (Np.size_of rest) n (Np.data X)) |}) /\
  (forall row k j,
      (j < length row)%nat ->
      nth j (moved Qplus e row k) 0
      == nth j row 0 + (if (k =? j)%nat then e else 0) /\
      nth j (moved Qminus e row k) 0
      == nth j row 0 - (if (k =? j)%nat then e else 0)).
Proof.
  intros HX Hn Hd. split; [now apply PerturbFacts.perturb_plain|].
  intros row k j Hj. rewrite !PerturbFacts.moved_nth by exact Hj.
  destruct (k =? j)%nat; split; ring.
Qed.

Lemma perturb_one_feature_at_a_time_witness :
  _perturb (Np.mk_ndarray [2; 2]%nat [1; 2; 3; 4]) (EpsNumber (1 # 10)) false
  = Value
      ({| Np.shape := [4; 2]%nat;
          Np.data := flat_map
                       (fun row => flat_map (moved Qplus (1 # 10) row)
                                     (seq 0 2))
                       [[1; 2]; [3; 4]] |},
       {| Np.shape := [4; 2]%nat;
          Np.data := flat_map
                       (fun row => flat_map (moved Qminus (1 # 10) row)
                                     (seq 0 2))
                       [[1; 2]; [3; 4]] |}).
Proof.
  refine (proj1 (@perturb_one_feature_at_a_time
                   (Np.mk_ndarray [2; 2]%nat [1; 2; 3; 4]) 2%nat [2%nat]
                   (1 # 10) _ _ _)).
  - reflexivity.
  - lia.
  - reflexivity.
Defined.

(** X16. In probability mode, for such a batch with at least two features
    and a [float] step, every perturbed row has the sum of the row of [X] it
    was made from: the perturbation of a row adds up to zero. *)
Theorem perturb_probabilities_keep_sum
    (X : Np.ndarray) (n : nat) (rest : list nat) (e : Q) :
  Np.shape X = n :: rest -> (0 < n)%nat ->
  length (Np.data X) = (n * Np.size_of rest)%nat ->
  (2 <= Np.size_of rest)%nat ->
  exists pos neg,
    _perturb X (EpsNumber e) true = Value (pos, neg) /\
    Np.shape pos = (Np.size_of rest * n)%nat :: rest /\
    Np.shape neg = (Np.size_of rest * n)%nat :: rest /\
    let same_sum := fun p x : list Q => Np.Qsum p == Np.Qsum x in
    let rows := flat_map (fun row => repeat row (Np.size_of rest))
                  (Np.chunks (Np.size_of rest) n (Np.data X)) in
    Forall2 same_sum
      (Np.chunks (Np.size_of rest) (n * Np.size_of rest) (Np.data pos)) rows /\
    Forall2 same_sum
      (Np.chunks (Np.size_of rest) (n * Np.size_of rest) (Np.data neg)) rows.
Proof.
  intros HX Hn Hd HF.
  eexists _, _. split; [apply PerturbFacts.perturb_proba; eassumption|].
  set (F := Np.size_of rest) in *.
  cbn [Np.shape Np.data]. split; [reflexivity|].
  split; [reflexivity|]. cbv zeta.
  pose proof (BatchFacts.chunks_lengths F n (Np.data X) Hd) as Hl.
  rewrite Forall_forall in Hl.
  assert (Hlen : length (Np.chunks F n (Np.data X)) = n)
    by apply DistanceFacts.chunks_length.
  split;
    (rewrite PerturbFacts.chunks_of_perturbed;
     [|exact Hlen
      |intros row k Hrow; rewrite zip_with_length;
       rewrite ?PerturbFacts.balance_length; auto]);
    apply PerturbFacts.Forall2_flat_map; intros row Hrow;
    (replace (repeat row F) with (repeat row (length (seq 0 F)))
       by now rewrite length_seq);
    apply PerturbFacts.Forall2_map_repeat; intros k Hk;
    apply in_seq in Hk.
  - rewrite PerturbFacts.Qsum_zip_plus
      by now rewrite PerturbFacts.balance_length, (Hl row Hrow).
    rewrite PerturbFacts.balance_sum by lia. ring.
  - rewrite PerturbFacts.Qsum_zip_minus
      by now rewrite PerturbFacts.balance_length, (Hl row Hrow).
    rewrite PerturbFacts.balance_sum by lia. ring.
Qed.

Lemma perturb_probabilities_keep_sum_witness :
  exists pos neg,
    _perturb (Np.mk_ndarray [1; 3]%nat [1 # 10; 7 # 10; 2 # 10])
      (EpsNumber (1 # 100)) true = Value (pos, neg) /\
    Forall2 (fun p x => Np.Qsum p == Np.Qsum x)
      (Np.chunks 3 3 (Np.data pos))
      (repeat [1 # 10; 7 # 10; 2 # 10] 3).
Proof.
  destruct (@perturb_probabilities_keep_sum
              (Np.mk_ndarray [1; 3]%nat [1 # 10; 7 # 10; 2 # 10])
              1%nat [3%nat] (1 # 100) eq_refl ltac:(lia) eq_refl ltac:(cbn; lia))
    as (pos & neg & H & _ & _ & Hp & _).
  exists pos, neg. split; [exact H|exact Hp].
Defined.

(** X17. [_perturb] on its edges: an array without axes raises
    [IndexError]; a batch of zero rows raises [ValueError], because its view
    as rows cannot be inferred; and in probability mode a batch with a single
    feature has no finite result, the division being by [dim - 1 = 0]. *)
Theorem perturb_edges (X : Np.ndarray) (eps : eps_t) (proba : bool) :
  (Np.shape X = [] -> _perturb X eps proba = Except IndexError) /\
  (forall rest, Np.shape X = 0%nat :: rest ->
                _perturb X eps proba = Except ValueError) /\
  (forall n rest,
      Np.shape X = n :: rest -> (0 < n)%nat -> Np.size_of rest = 1%nat ->
      _perturb X eps true = NotFinite).
Proof.
  split; [|split].
  - intros HX. unfold _perturb, Np.shape_at. now rewrite HX.
  - intros rest HX. unfold _perturb, Np.shape_at. now rewrite HX.
  - intros n rest HX Hn HF. unfold _perturb. unfold Np.shape_at at 1.
    rewrite HX. cbn [nth_error of_result obind].
    rewrite (GradFacts.reshape_rows_batch X HX Hn), HF.
    cbn [of_result obind Np.shape_at Np.shape nth_error].
    assert (exists b, times (eye 1) eps = Ok b) as [b ->].
    { destruct eps as [e|v]; cbn [times]; [eauto|].
      assert (Hs : Np.broadcast_shapes (Np.pad_shape 2 [1; 1]%nat)
                     (Np.pad_shape 2 [length v])
                   = Some [1%nat; length v])
        by (unfold Np.pad_shape;
            cbn [length Nat.sub repeat app Np.broadcast_shapes Nat.eqb];
            now destruct (length v) as [|[|m]]).
      unfold broadcast_op; cbv zeta.
      cbn [eye Np.shape length Nat.max]. rewrite Hs. eauto. }
    reflexivity.
Qed.

Lemma perturb_edges_witness :
  _perturb (Np.mk_ndarray [2; 1]%nat [1; 2]) (EpsNumber (1 # 10)) true
  = NotFinite.
Proof.
  apply (proj2 (proj2 (perturb_edges (Np.mk_ndarray [2; 1]%nat [1; 2])
                         (EpsNumber (1 # 10)) true)) 2%nat [1%nat]);
    [reflexivity | lia | reflexivity].
Defined.

Module BatchGradFacts.

Import Np.

Lemma chunks_app (sz a b : nat) (l1 l2 : list Q) :
  length l1 = (a * sz)%nat ->
  chunks sz (a + b) (l1 ++ l2) = chunks sz a l1 ++ chunks sz b l2.
Proof.
  revert l1; induction a as [|a IH]; intros l1 H; cbn [Nat.add chunks app].
  - destruct l1; [reflexivity|discriminate].
  - assert (Hf : length (firstn sz l1) = sz)
      by (rewrite length_firstn; cbn in H; lia).
    rewrite <- (firstn_skipn sz l1) at 1 2. rewrite <- app_assoc.
    rewrite (BatchFacts.firstn_app_exact _ _ Hf),
      (BatchFacts.skipn_app_exact _ _ Hf).
    f_equal. apply IH. rewrite length_skipn. cbn in H. lia.
Qed.

Lemma nth_flat_map_block (P : nat) (h : nat -> list Q) (ks : list nat)
      (k p : nat) :
  (forall j, length (h j) = P) -> (k < length ks)%nat -> (p < P)%nat ->
  nth (p + P * k) (flat_map h ks) 0 = nth p (h (nth k ks 0%nat)) 0.
Proof.
  intros Hh. revert k; induction ks as [|a ks IH]; intros [|k] Hk Hp;
    cbn [length flat_map nth] in *; try lia.
  - rewrite Nat.mul_0_r, Nat.add_0_r. apply app_nth1. now rewrite Hh.
  - rewrite app_nth2 by (rewrite Hh; lia). rewrite Hh.
    replace (p + P * S k - P)%nat with (p + P * k)%nat by lia.
    apply IH; lia.
Qed.

Lemma by_row_rows (F P : nat) (g : list Q -> list Q) (r : nat)
      (rest : list nat) (d : list Q) :
  by_row F P g {| shape := r :: rest; data := d |}
  = Ok {| shape := [r; P]; data := flat_map g (chunks F r d) |}.
Proof. reflexivity. Qed.

Lemma over_twice_number (b : ndarray) (e : Q) :
  ~ e == 0 ->
  over_twice b (EpsNumber e)
  = Value {| shape := shape b; data := map (fun v => v / (2 * e)) (data b) |}.
Proof.
  intros He. unfold over_twice. destruct b as [sh [|x d]]; [reflexivity|].
  cbn [data shape].
  destruct (Qeq_bool (2 * e) 0) eqn:E; [|reflexivity].
  apply Qeq_bool_iff in E. elim He. lra.
Qed.

Lemma moved_length (f : Q -> Q -> Q) (e : Q) (row : list Q) (k : nat) :
  length (moved f e row k) = length row.
Proof.
  unfold moved. apply zip_with_length.
  now rewrite length_map, GradFacts.eye_row_length.
Qed.

Lemma flat_map_flat_map_rows {A : Type} (g : list Q -> list Q)
      (R : A -> list (list Q)) (l : list A) :
  flat_map g (flat_map R l) = flat_map (fun a => flat_map g (R a)) l.
Proof.
  induction l as [|a l IH]; cbn [flat_map]; [reflexivity|].
  now rewrite flat_map_app, IH.
Qed.

Lemma flat_map_map_rows {A : Type} (g : list Q -> list Q) (R : A -> list Q)
      (ks : list A) :
  flat_map g (map R ks) = flat_map (fun k => g (R k)) ks.
Proof.
  induction ks as [|k ks IH]; cbn [map flat_map]; [reflexivity|].
  now rewrite IH.
Qed.

(** The predictions on the perturbed rows of one sign. *)
Lemma predictions_on_perturbed (g : list Q -> list Q) (F : nat)
      (R : list Q -> nat -> list Q) (rows : list (list Q)) :
  flat_map g (flat_map (fun row => map (R row) (seq 0 F)) rows)
  = flat_map (fun row => flat_map (fun k => g (R row k)) (seq 0 F)) rows.
Proof.
  rewrite flat_map_flat_map_rows. apply PerturbFacts.flat_map_ext_in.
  intros row _. apply flat_map_map_rows.
Qed.

(** The rows of the two perturbed batches, one batch below the other. *)
Lemma chunks_of_both (F n : nat) (e : Q) (rows : list (list Q)) :
  length rows = n ->
  (forall row, In row rows -> length row = F) ->
  chunks F (F * n + F * n)
    (flat_map (fun row => flat_map (moved Qplus e row) (seq 0 F)) rows ++
     flat_map (fun row => flat_map (moved Qminus e row) (seq 0 F)) rows)
  = flat_map (fun row => map (moved Qplus e row) (seq 0 F)) rows ++
    flat_map (fun row => map (moved Qminus e row) (seq 0 F)) rows.
Proof.
  intros Hn Hl. rewrite (Nat.mul_comm F n).
  rewrite chunks_app.
  - rewrite !PerturbFacts.chunks_of_perturbed; auto;
      intros row k Hrow; now rewrite moved_length, Hl.
  - rewrite (GradFacts.flat_map_length_const _ rows (sz := (F * F)%nat)).
    + rewrite Hn. lia.
    + intros row Hrow.
      rewrite (GradFacts.flat_map_length_const _ (seq 0 F) (sz := F)).
      * now rewrite length_seq.
      * intros k _. now rewrite moved_length, Hl.
Qed.

Lemma perturbed_rows_length (F n : nat) (R : list Q -> nat -> list Q)
      (rows : list (list Q)) :
  length rows = n ->
  length (flat_map (fun row => map (R row) (seq 0 F)) rows) = (n * F)%nat.
Proof.
  intros <-. induction rows as [|row rows IH]; cbn [flat_map length];
    [reflexivity|].
  rewrite length_app, length_map, length_seq, IH. lia.
Qed.

Lemma reshape_rows_exact (a : ndarray) (n q : nat) :
  size_of (shape a) = (n * q)%nat -> (0 < n)%nat ->
  reshape_rows n a = Ok {| shape := [n; q]; data := data a |}.
Proof.
  intros Hs Hn. unfold reshape_rows. rewrite Hs.
  destruct (Nat.eqb_spec n 0); [lia|].
  rewrite Nat.mul_comm, Nat.Div0.mod_mul, Nat.div_mul by lia.
  reflexivity.
Qed.

Lemma reshape_F_exact (a : ndarray) (n P K : nat) :
  size_of (shape a) = (n * (P * K))%nat -> (0 < n)%nat -> (0 < P)%nat ->
  reshape_F n P a
  = Ok {| shape := [n; P; K];
          data :=
            flat_map
              (fun row =>
                 flat_map
                   (fun p => map (fun k => nth (p + P * k) row 0) (seq 0 K))
                   (seq 0 P))
              (chunks (P * K) n (data a)) |}.
Proof.
  intros Hs Hn HP. unfold reshape_F. rewrite Hs.
  destruct (Nat.eqb_spec (n * P) 0); [nia|].
  replace (n * (P * K))%nat with (K * (n * P))%nat by lia.
  rewrite Nat.Div0.mod_mul, Nat.div_mul by lia.
  replace (K * (n * P))%nat with ((P * K) * n)%nat by lia.
  rewrite Nat.div_mul by lia. reflexivity.
Qed.

Lemma difference_length (g : list Q -> list Q) (P F : nat) (e : Q)
      (row : list Q) :
  (forall r, length (g r) = P) ->
  length (flat_map
            (fun k => zip_with Qminus (g (moved Qplus e row k))
                        (g (moved Qminus e row k)))
            (seq 0 F))
  = (P * F)%nat.
Proof.
  intros Hg. rewrite (GradFacts.flat_map_length_const _ (seq 0 F) (sz := P)).
  - rewrite length_seq. lia.
  - intros k _. rewrite zip_with_length; now rewrite !Hg.
Qed.

Lemma numerator_layout (d : list Q) (n : nat) (rest : list nat)
      (g : list Q -> list Q) (P : nat) (e : Q) :
  (0 < n)%nat -> length d = (n * size_of rest)%nat ->
  (0 < P)%nat -> (forall r, length (g r) = P) ->
  num_grad_batch (by_row (size_of rest) P g)
    {| shape := n :: rest; data := d |} (EpsNumber e)
  = obind
      (over_twice
         {| shape := [n; P; size_of rest];
            data :=
              flat_map
                (fun row =>
                   flat_map
                     (fun p =>
                        map (fun k =>
                               nth p (g (moved Qplus e row k)) 0
                               - nth p (g (moved Qminus e row k)) 0)
                          (seq 0 (size_of rest)))
                     (seq 0 P))
                (chunks (size_of rest) n d) |}
         (EpsNumber e))
      (fun grad => of_result (reshape grad ([n; P] ++ rest))).
Proof.
  intros Hn Hd HP Hg.
  pose proof (BatchFacts.chunks_lengths _ n d Hd) as Hl.
  rewrite Forall_forall in Hl.
  unfold num_grad_batch. unfold shape_at at 1.
  cbn [shape nth_error of_result obind].
  destruct (Nat.eqb_spec n 0); [lia|]. cbn [of_result obind tl].
  rewrite by_row_rows. cbn [of_result obind].
  rewrite (@PerturbFacts.perturb_plain {| shape := n :: rest; data := d |}
             n rest e eq_refl Hn Hd).
  cbn [obind concatenate shape data]. rewrite DistanceFacts.shape_eqb_refl.
  cbn [of_result obind]. rewrite by_row_rows.
  cbn [of_result obind shape_at shape nth_error].
  set (F := size_of rest) in *.
  assert (Hrows : length (chunks F n d) = n)
    by apply DistanceFacts.chunks_length.
  rewrite (@chunks_of_both F n e _ Hrows Hl), flat_map_app.
  set (pos := flat_map (fun row => map (moved Qplus e row) (seq 0 F))
                (chunks F n d)).
  set (neg := flat_map (fun row => map (moved Qminus e row) (seq 0 F))
                (chunks F n d)).
  assert (Hpos : length (flat_map g pos) = (F * n * (P * 1))%nat).
  { rewrite (GradFacts.flat_map_length_const g pos (sz := P)) by auto.
    unfold pos. rewrite (@perturbed_rows_length F n _ _ Hrows). lia. }
  assert (Hneg : length (flat_map g neg) = (F * n * (P * 1))%nat).
  { rewrite (GradFacts.flat_map_length_const g neg (sz := P)) by auto.
    unfold neg. rewrite (@perturbed_rows_length F n _ _ Hrows). lia. }
  cbn [rows_before rows_from shape data size_of fold_right].
  replace (Nat.min (F * n) (F * n + F * n)) with (F * n)%nat by lia.
  replace (F * n + F * n - F * n)%nat with (F * n)%nat by lia.
  rewrite (BatchFacts.firstn_app_exact _ _ Hpos),
    (BatchFacts.skipn_app_exact _ _ Hpos).
  cbn [of_result obind].
  change (subtract ?a ?b) with (broadcast_op Qminus a b).
  rewrite GradFacts.broadcast_op_same; cbn [shape data size_of fold_right];
    [|reflexivity|exact Hpos|exact Hneg].
  set (D := fun row =>
              flat_map
                (fun k => zip_with Qminus (g (moved Qplus e row k))
                            (g (moved Qminus e row k)))
                (seq 0 F)).
  assert (Ediff : zip_with Qminus (flat_map g pos) (flat_map g neg)
                  = concat (map D (chunks F n d))).
  { unfold pos, neg. rewrite !predictions_on_perturbed.
    rewrite PerturbFacts.zip_with_flat_map2.
    - rewrite flat_map_concat_map. f_equal. apply map_ext. intros row.
      unfold D. apply PerturbFacts.zip_with_flat_map2.
      intros k. now rewrite !Hg.
    - intros row.
      rewrite !(GradFacts.flat_map_length_const _ (seq 0 F) (sz := P));
        auto. }
  rewrite Ediff. cbn [of_result obind].
  rewrite (@reshape_rows_exact _ n (P * F)) by (cbn; nia).
  cbn [of_result obind shape data].
  rewrite (@reshape_F_exact _ n P F) by (cbn; nia).
  cbn [of_result obind shape data].
  assert (Ech : chunks (P * F) n (concat (map D (chunks F n d)))
                = map D (chunks F n d)).
  { rewrite <- Hrows at 1. rewrite <- (length_map D).
    apply PerturbFacts.chunks_of_rows, Forall_forall. intros c Hc.
    apply in_map_iff in Hc as (row & <- & _). now apply difference_length. }
  rewrite Ech.
  f_equal. f_equal. f_equal.
  rewrite flat_map_map_rows.
  apply PerturbFacts.flat_map_ext_in. intros row _.
  apply PerturbFacts.flat_map_ext_in. intros p Hp. apply in_seq in Hp.
  apply map_ext_in. intros k Hk. apply in_seq in Hk.
  unfold D.
  rewrite (@nth_flat_map_block P _ (seq 0 F) k p);
    [|intros j; rewrite zip_with_length; now rewrite !Hg
     |rewrite length_seq; lia|lia].
  rewrite seq_nth by lia. cbn [Nat.add].
  apply PerturbFacts.zip_with_nth; rewrite Hg; lia.
Qed.

Lemma layout (d : list Q) (n : nat) (rest : list nat)
      (g : list Q -> list Q) (P : nat) (e : Q) :
  (0 < n)%nat -> length d = (n * size_of rest)%nat ->
  (0 < P)%nat -> (forall r, length (g r) = P) -> ~ e == 0 ->
  num_grad_batch (by_row (size_of rest) P g)
    {| shape := n :: rest; data := d |} (EpsNumber e)
  = Value {| shape := [n; P] ++ rest;
             data := flat_map (jacobian g e (size_of rest) P)
                       (chunks (size_of rest) n d) |}.
Proof.
  intros Hn Hd HP Hg He.
  rewrite (@numerator_layout d n rest g P e Hn Hd HP Hg).
  rewrite over_twice_number by exact He.
  cbn [obind shape data].
  unfold reshape. cbn [shape data app size_of fold_right]. fold (size_of rest).
  rewrite Nat.mul_1_r, Nat.eqb_refl. cbn [of_result].
  do 2 f_equal.
  rewrite PerturbFacts.map_flat_map.
  apply PerturbFacts.flat_map_ext_in. intros row _.
  rewrite PerturbFacts.map_flat_map. unfold jacobian.
  apply PerturbFacts.flat_map_ext_in. intros p _.
  rewrite map_map. reflexivity.
Qed.

End BatchGradFacts.

Lemma num_grad_batch_layout_for
    (X : Np.ndarray) (n : nat) (rest : list nat)
    (g : list Q -> list Q) (P : nat) (e : Q) :
  Np.shape X = n :: rest -> (0 < n)%nat ->
  length (Np.data X) = (n * Np.size_of rest)%nat ->
  (0 < P)%nat -> (forall r, length (g r) = P) -> ~ e == 0 ->
  num_grad_batch (by_row (Np.size_of rest) P g) X (EpsNumber e)
  = Value {| Np.shape := [n; P] ++ rest;
             Np.data := flat_map (jacobian g e (Np.size_of rest) P)
                          (Np.chunks (Np.size_of rest) n (Np.data X)) |}.
Proof.
  destruct X as [sh d]. cbn [Np.shape Np.data]. intros -> Hn Hd HP Hg He.
  now apply BatchGradFacts.layout.
Qed.

(** X18. For a prediction function that works row by row and gives [P]
    numbers for every row, a batch of [n] rows, [n] at least one, and a
    [float] step [e] that is not zero, [num_grad_batch] returns an array of
    shape [(n, P) + (shape of a row)] whose entry for row [i], output [p]
    and feature [k] is the centred difference
    [(g(x_i + e e_k)[p] - g(x_i - e e_k)[p]) / (2 e)]. *)
Theorem num_grad_batch_is_centred_difference
    (X : Np.ndarray) (n : nat) (rest : list nat)
    (g : list Q -> list Q) (P : nat) (e : Q) :
  Np.shape X = n :: rest -> (0 < n)%nat ->
  length (Np.data X) = (n * Np.size_of rest)%nat ->
  (0 < P)%nat -> (forall r, length (g r) = P) -> ~ e == 0 ->
  num_grad_batch (by_row (Np.size_of rest) P g) X (EpsNumber e)
  = Value {| Np.shape := [n; P] ++ rest;
             Np.data := flat_map (jacobian g e (Np.size_of rest) P)
                          (Np.chunks (Np.size_of rest) n (Np.data X)) |}.
Proof. apply num_grad_batch_layout_for. Qed.

Lemma num_grad_batch_is_centred_difference_witness :
  num_grad_batch
    (by_row 2 3 (fun row => [Np.Qsum row; 3 * hd 0 row; 5 * Np.Qsum row]))
    (Np.mk_ndarray [2; 2]%nat [1; 2; 3; 4]) (EpsNumber (1 # 10))
  = Value {| Np.shape := [2; 3; 2]%nat;
             Np.data :=
               flat_map
                 (jacobian
                    (fun row => [Np.Qsum row; 3 * hd 0 row; 5 * Np.Qsum row])
                    (1 # 10) 2 3)
                 [[1; 2]; [3; 4]] |}.
Proof.
  apply (@num_grad_batch_is_centred_difference
           (Np.mk_ndarray [2; 2]%nat [1; 2; 3; 4]) 2%nat [2%nat]
           (fun row => [Np.Qsum row; 3 * hd 0 row; 5 * Np.Qsum row]) 3%nat
           (1 # 10)); try reflexivity; try lia.
  vm_compute. discriminate.
Defined.

(** X20. [num_grad_batch] on its edges: an array without axes and a batch of
    zero rows raise [IndexError], whatever the function; and with a [float]
    step equal to zero, for a row-wise function on a batch with at least one
    row, one feature and one output, there is no finite gradient. *)
Theorem num_grad_batch_edges :
  (forall func X eps,
      Np.shape X = [] \/ (exists rest, Np.shape X = 0%nat :: rest) ->
      num_grad_batch func X eps = Except IndexError) /\
  (forall X n rest g P e,
      Np.shape X = n :: rest -> (0 < n)%nat ->
      length (Np.data X) = (n * Np.size_of rest)%nat ->
      (0 < Np.size_of rest)%nat ->
      (0 < P)%nat -> (forall r, length (g r) = P) -> e == 0 ->
      num_grad_batch (by_row (Np.size_of rest) P g) X (EpsNumber e)
      = NotFinite).
Proof.
  split.
  - intros func X eps [HX|[rest HX]]; unfold num_grad_batch, Np.shape_at;
      now rewrite HX.
  - intros [sh d] n rest g P e. cbn [Np.shape Np.data].
    intros -> Hn Hd HF HP Hg He.
    rewrite (@BatchGradFacts.numerator_layout d n rest g P e Hn Hd HP Hg).
    unfold over_twice. cbn [Np.data].
    destruct (Np.chunks (Np.size_of rest) n d) as [|row rows] eqn:Ec.
    { pose proof (DistanceFacts.chunks_length (Np.size_of rest) n d) as Hc.
      rewrite Ec in Hc. cbn in Hc. lia. }
    cbn [flat_map].
    destruct P as [|P]; [lia|]. cbn [seq flat_map].
    destruct (Np.size_of rest) as [|F]; [lia|]. cbn [seq map app].
    assert (E : Qeq_bool (2 * e) 0 = true)
      by (apply Qeq_bool_iff; rewrite He; reflexivity).
    now rewrite E.
Qed.

Lemma num_grad_batch_edges_witness :
  num_grad_batch (by_row 2 1 (fun row => [Np.Qsum row]))
    (Np.mk_ndarray [0; 2]%nat []) (EpsNumber (1 # 10))
  = Except IndexError.
Proof.
  apply (proj1 num_grad_batch_edges). right. now exists [2%nat].
Defined.

Module FeatureStepFacts.

Import Np.

Lemma broadcast_shapes_rows (n : nat) (s : list nat) :
  broadcast_shapes (n :: s) (1%nat :: s) = Some (n :: s).
Proof.
  cbn [broadcast_shapes]. rewrite DistanceFacts.broadcast_shapes_refl.
  destruct n as [|[|n]]; reflexivity.
Qed.

Lemma zip_with_rows_tile {A : Type} (f : Q -> Q -> Q) (G : A -> list Q)
      (B : list Q) (ks : list A) :
  (forall k, length (G k) = length B) ->
  zip_with f (flat_map G ks) (concat (repeat B (length ks)))
  = flat_map (fun k => zip_with f (G k) B) ks.
Proof.
  intros H. induction ks as [|k ks IH]; cbn [length repeat concat flat_map];
    [reflexivity|].
  now rewrite BatchFacts.zip_with_app, IH.
Qed.

(** The identity matrix times one step per feature. *)
Lemma times_eye_features (F : nat) (v : list Q) :
  length v = F ->
  times (eye F) (EpsFeatures v)
  = Ok {| shape := [F; F];
          data := flat_map (fun k => zip_with Qmult (eye_row F k) v)
                    (seq 0 F) |}.
Proof.
  intros Hv. cbn [times]. unfold broadcast_op; cbv zeta.
  cbn [eye shape data length Nat.max].
  change (pad_shape 2 [F; F]) with [F; F].
  rewrite Hv. change (pad_shape 2 [F]) with [1%nat; F].
  rewrite broadcast_shapes_rows.
  rewrite BatchFacts.broadcast_to_same.
  - rewrite BatchFacts.broadcast_to_batch by (cbn; lia).
    f_equal. f_equal.
    replace (repeat v F) with (repeat v (length (seq 0 F)))
      by now rewrite length_seq.
    apply zip_with_rows_tile. intros k.
    now rewrite GradFacts.eye_row_length.
  - rewrite (GradFacts.flat_map_length_const _ (seq 0 F) (sz := F)).
    + rewrite length_seq. cbn. lia.
    + intros k _. apply GradFacts.eye_row_length.
Qed.

Lemma perturb_features (X : ndarray) (n : nat) (rest : list nat) (v : list Q) :
  shape X = n :: rest -> (0 < n)%nat ->
  length (data X) = (n * size_of rest)%nat ->
  length v = size_of rest ->
  _perturb X (EpsFeatures v) false
  = Value
      ({| shape := (size_of rest * n)%nat :: rest;
          data := flat_map
                    (fun row => flat_map (moved_by Qplus v row)
                                  (seq 0 (size_of rest)))
                    (chunks (size_of rest) n (data X)) |},
       {| shape := (size_of rest * n)%nat :: rest;
          data := flat_map
                    (fun row => flat_map (moved_by Qminus v row)
                                  (seq 0 (size_of rest)))
                    (chunks (size_of rest) n (data X)) |}).
Proof.
  intros HX Hn Hd Hv. set (F := size_of rest) in *.
  pose proof (BatchFacts.chunks_lengths F n (data X) Hd) as Hl.
  rewrite Forall_forall in Hl.
  unfold _perturb. unfold shape_at at 1. rewrite HX.
  cbn [nth_error of_result obind].
  rewrite (GradFacts.reshape_rows_batch X HX Hn). fold F.
  cbn [of_result obind shape_at shape nth_error].
  rewrite (@times_eye_features F v Hv).
  cbn [of_result obind shape data tile_rows repeat_rows tl].
  replace (size_of [F]) with F by (cbn; lia).
  rewrite !(@PerturbFacts.perturb_rows _ F n
               (fun k => zip_with Qmult (eye_row F k) v) (data X) Hd)
    by (intros k; rewrite zip_with_length;
        now rewrite GradFacts.eye_row_length).
  cbn [of_result obind tl].
  rewrite !PerturbFacts.reshape_perturbed by reflexivity.
  cbn [of_result obind].
  assert (Hm : forall f,
             flat_map
               (fun row => flat_map
                  (fun k => zip_with f row (zip_with Qmult (eye_row F k) v))
                  (seq 0 F))
               (chunks F n (data X))
             = flat_map (fun row => flat_map (moved_by f v row) (seq 0 F))
                 (chunks F n (data X))).
  { intros f. apply PerturbFacts.flat_map_ext_in. intros row Hrow.
    unfold moved_by. now rewrite (Hl row Hrow). }
  now rewrite !Hm.
Qed.

Lemma moved_by_nth (f : Q -> Q -> Q) (v row : list Q) (k j : nat) :
  (j < length row)%nat -> length v = length row ->
  nth j (moved_by f v row k) 0
  = f (nth j row 0) ((if (k =? j)%nat then 1 else 0) * nth j v 0).
Proof.
  intros H Hv. unfold moved_by.
  rewrite PerturbFacts.zip_with_nth;
    [|exact H
     |rewrite zip_with_length;
      rewrite GradFacts.eye_row_length; auto].
  f_equal.
  rewrite PerturbFacts.zip_with_nth
    by (rewrite ?GradFacts.eye_row_length; lia).
  now rewrite PerturbFacts.eye_row_nth.
Qed.

End FeatureStepFacts.

(** X21. With an array of one step per feature, [_perturb] moves feature [k]
    of a row by the step of feature [k]: for each row of [X] and each feature
    [k] in turn, the row with [v[k]] added to (subtracted from) feature [k]
    alone. An array whose number of steps is neither the number of features
    nor one raises [ValueError] when there is more than one feature. *)
Theorem perturb_feature_wise_steps
    (X : Np.ndarray) (n : nat) (rest : list nat) (v : list Q) :
  Np.shape X = n :: rest -> (0 < n)%nat ->
  length (Np.data X) = (n * Np.size_of rest)%nat ->
  (length v = Np.size_of rest ->
   _perturb X (EpsFeatures v) false
   = Value
       ({| Np.shape := (Np.size_of rest * n)%nat :: rest;
           Np.data := flat_map
                        (fun row => flat_map (moved_by Qplus v row)
                                      (seq 0 (Np.size_of rest)))
                        (Np.chunks (Np.size_of rest) n (Np.data X)) |},
        {| Np.shape := (Np.size_of rest * n)%nat :: rest;
           Np.data := flat_map
                        (fun row => flat_map (moved_by Qminus v row)
                                      (seq 0 (Np.size_of rest)))
                        (Np.chunks (Np.size_of rest) n (Np.data X)) |}) /\
   forall row k j,
     (j < length row)%nat -> length row = length v ->
     nth j (moved_by Qplus v row k) 0
     == nth j row 0 + (if (k =? j)%nat then nth j v 0 else 0) /\
     nth j (moved_by Qminus v row k) 0
     == nth j row 0 - (if (k =? j)%nat then nth j v 0 else 0)) /\
  (length v <> Np.size_of rest -> length v <> 1%nat ->
   Np.size_of rest <> 1%nat ->
   forall proba, _perturb X (EpsFeatures v) proba = Except ValueError).
Proof.
  intros HX Hn Hd. split.
  - intros Hv. split; [now apply FeatureStepFacts.perturb_features|].
    intros row k j Hj Hrow.
    rewrite !FeatureStepFacts.moved_by_nth by auto.
    destruct (k =? j)%nat; split; ring.
  - intros H1 H2 H3 proba. unfold _perturb. unfold Np.shape_at at 1.
    rewrite HX. cbn [nth_error of_result obind].
    rewrite (GradFacts.reshape_rows_batch X HX Hn).
    cbn [of_result obind Np.shape_at Np.shape nth_error times].
    unfold broadcast_op; cbv zeta. cbn [eye Np.shape length Nat.max].
    unfold Np.pad_shape.
    cbn [length Nat.sub repeat app Np.broadcast_shapes].
    apply Nat.eqb_neq in H1, H2, H3.
    rewrite (Nat.eqb_sym (Np.size_of rest) (length v)), H1, H2, H3.
    reflexivity.
Qed.

Lemma perturb_feature_wise_steps_witness :
  _perturb (Np.mk_ndarray [1; 3]%nat [1; 2; 3]) (EpsFeatures [1; 2; 3]) false
  = Value
      ({| Np.shape := [3; 3]%nat;
          Np.data := flat_map
                       (fun row => flat_map (moved_by Qplus [1; 2; 3] row)
                                     (seq 0 3))
                       [[1; 2; 3]] |},
       {| Np.shape := [3; 3]%nat;
          Np.data := flat_map
                       (fun row => flat_map (moved_by Qminus [1; 2; 3] row)
                                     (seq 0 3))
                       [[1; 2; 3]] |}).
Proof.
  refine (proj1 (proj1 (@perturb_feature_wise_steps
                          (Np.mk_ndarray [1; 3]%nat [1; 2; 3]) 1%nat [3%nat]
                          [1; 2; 3] _ _ _) _)); try reflexivity. lia.
Defined.

(** ** The policy ['same'] at the instance *)

Lemma Qmax_compat (a a' b b' : Q) :
  a == a' -> b == b' -> Qmax a b == Qmax a' b'.
Proof.
  intros Ha Hb. unfold Qmax.
  destruct (Qle_bool a b) eqn:E, (Qle_bool a' b') eqn:E'; try assumption.
  - apply Qle_bool_iff in E. rewrite Ha, Hb in E.
    apply Qle_bool_iff in E. congruence.
  - apply Qle_bool_iff in E'. rewrite <- Ha, <- Hb in E'.
    apply Qle_bool_iff in E'. congruence.
Qed.

Lemma fold_Qmax_compat (l : list Q) (a b : Q) :
  a == b -> fold_left Qmax l a == fold_left Qmax l b.
Proof.
  revert a b; induction l as [|x l IH]; intros a b H; cbn [fold_left];
    [exact H|].
  apply IH, Qmax_compat; [exact H|reflexivity].
Qed.

(** The position [argmax] finds holds the value [amax] finds. *)
Lemma argmax_from_value (rest pre : list Q) (best : Q) (besti : nat) :
  nth_error (pre ++ rest) besti = Some best ->
  exists v,
    nth_error (pre ++ rest) (argmax_from best besti (length pre) rest) = Some v /\
    v == fold_left Qmax rest best.
Proof.
  revert pre best besti; induction rest as [|x rest IH];
    intros pre best besti Hb; cbn [argmax_from fold_left].
  - exists best. split; [exact Hb|reflexivity].
  - replace (pre ++ x :: rest) with ((pre ++ [x]) ++ rest) in *
      by now rewrite <- app_assoc.
    replace (S (length pre)) with (length (pre ++ [x]))
      by (rewrite length_app; cbn; lia).
    destruct (Qle_bool x best) eqn:E.
    + destruct (IH (pre ++ [x]) best besti Hb) as (v & Hv & Hm).
      exists v. split; [exact Hv|]. rewrite Hm.
      apply fold_Qmax_compat. unfold Qmax.
      destruct (Qle_bool best x) eqn:E2; [|reflexivity].
      apply Qle_bool_iff in E, E2. now apply Qle_antisym.
    + assert (Hx : nth_error ((pre ++ [x]) ++ rest) (length pre) = Some x).
      { rewrite <- app_assoc. cbn [app].
        rewrite nth_error_app2, Nat.sub_diag by lia. reflexivity. }
      destruct (IH (pre ++ [x]) x (length pre) Hx) as (v & Hv & Hm).
      exists v. split; [exact Hv|]. rewrite Hm.
      apply fold_Qmax_compat. unfold Qmax.
      destruct (Qle_bool best x) eqn:E2; [reflexivity|].
      assert (best < x).
      { apply Qnot_le_lt. intros H. apply Qle_bool_iff in H. congruence. }
      assert (x < best).
      { apply Qnot_le_lt. intros H0. apply Qle_bool_iff in H0. congruence. }
      exfalso. eapply Qlt_irrefl, Qlt_trans; eauto.
Qed.

(** X22. With the policy ['same'], the scalar function that [explain] builds
    returns, at the instance itself, the highest of its class probabilities:
    the class is the one predicted for the instance. *)
Theorem same_policy_at_instance
    (self : CounterFactual) (X : vec) (pred_class : nat) :
  target_class self = TStr "same" ->
  argmax (concat (self_predict_fn self X)) = Ok pred_class ->
  exists v m,
    class_fn self (Z.of_nat pred_class) X = Ok v /\
    amax (concat (self_predict_fn self X)) = Ok m /\
    v == m.
Proof.
  intros Ht. unfold self_predict_fn, class_fn. cbn [concat].
  rewrite app_nil_r, Ht.
  destruct (predict_fn self X) as [|p row] eqn:Ep; [discriminate|].
  cbn [argmax amax]. intros [= <-].
  destruct (@argmax_from_value row [p] p 0%nat eq_refl) as (v & Hv & Hm).
  cbn [length app] in Hv.
  exists v, (fold_left Qmax row p). repeat split; [|exact Hm].
  unfold _define_func, self_predict_fn. cbn [target_eqb String.eqb Ascii.eqb
    Bool.eqb fst column map_result].
  rewrite Ep. unfold index.
  assert (Hlt : (argmax_from p 0 1 row < length (p :: row))%nat)
    by (apply nth_error_Some; congruence).
  destruct (Z.leb_spec 0 (Z.of_nat (argmax_from p 0 1 row))); [|lia].
  destruct (Z.ltb_spec (Z.of_nat (argmax_from p 0 1 row))
              (Z.of_nat (length (p :: row)))); [|lia].
  cbn [andb]. rewrite Nat2Z.id, Hv. reflexivity.
Qed.

Lemma same_policy_at_instance_witness :
  exists v m,
    class_fn
      (mk_CounterFactual (fun _ => [1 # 10; 7 # 10; 2 # 10]) [1; 2]%nat
         cityblock (9 # 10) (TStr "same") 2 (1 # 100) (1 # 1000) 1 (5 # 100)
         (-10, 10) EpsNone "wachter" "identity")
      1 [2; 3] = Ok v /\
    amax [1 # 10; 7 # 10; 2 # 10] = Ok m /\ v == m.
Proof.
  apply (@same_policy_at_instance
           (mk_CounterFactual (fun _ => [1 # 10; 7 # 10; 2 # 10]) [1; 2]%nat
              cityblock (9 # 10) (TStr "same") 2 (1 # 100) (1 # 1000) 1
              (5 # 100) (-10, 10) EpsNone "wachter" "identity")
           [2; 3] 1%nat); reflexivity.
Defined.

(** ** The history, entry by entry *)

Section HistoryFacts.

Context {Slots Gen : Type} {optimizer : Optimizer Slots}
        {random : RandomState Gen}.

Variable self : CounterFactual.
Variable predict_class_fn : vec -> result Q.

Lemma inner_step_record (X : vec) (lam : Q) (xc : vec) (d : explanation)
      (w : world Slots Gen) (xc' : vec) (d' : explanation)
      (w' : world Slots Gen) :
  inner_step self predict_class_fn X lam (xc, d) w = (Ok (xc', d'), w') ->
  exists l g dist c p cls,
    get_wachter_grads xc predict_class_fn (distance_fn self) X
      (target_proba self) lam (epsilons self) (method self) = Ok (l, g) /\
    distance_fn self X xc' = Ok dist /\
    _prob_condition self predict_class_fn xc' = Ok c /\
    argmax (concat (self_predict_fn self xc')) = Ok cls /\
    amax (concat (self_predict_fn self xc')) = Ok p /\
    d' = append_step d xc' l g dist lam c p cls.
Proof.
  unfold inner_step, mbind, lift, run_apply_grad, run_cf, mret.
  destruct (get_wachter_grads _ _ _ _ _ _ _ _) as [[l g]|e];
    [|discriminate].
  destruct (Np.shape_eqb _ _); [|discriminate].
  destruct (apply_gradients _ _ _) as [o v]. cbn [sess cf].
  destruct (distance_fn self X _) as [dist|e] eqn:Ed; [|discriminate].
  destruct (_prob_condition _ _ _) as [c|e] eqn:Ec; [|discriminate].
  destruct (argmax _) as [cls|e] eqn:Ea; [|discriminate].
  destruct (amax _) as [p|e] eqn:Em; [|discriminate].
  intros [= <- <- <-].
  exists l, g, dist, c, p, cls. repeat split; assumption.
Qed.

Lemma nth_snoc_old {A : Type} (l : list A) (x d0 : A) (i : nat) :
  (i < length l)%nat -> nth i (l ++ [x]) d0 = nth i l d0.
Proof. intros H. now apply app_nth1. Qed.

Lemma nth_snoc_new {A : Type} (l : list A) (x d0 : A) (k : nat) :
  length l = k -> nth k (l ++ [x]) d0 = x.
Proof. intros <-. rewrite app_nth2, Nat.sub_diag by lia. reflexivity. Qed.

Lemma nth_length_cons {A : Type} (l : list A) (a d0 : A) :
  nth (length l) (a :: l) d0 = last l a.
Proof.
  destruct l as [|b l] using rev_ind; [reflexivity|].
  rewrite last_last, length_app, Nat.add_comm. cbn [length Nat.add].
  change (a :: l ++ [b]) with ((a :: l) ++ [b]).
  rewrite app_nth2 by (cbn [length]; lia).
  cbn [length]. rewrite Nat.sub_diag. reflexivity.
Qed.

Lemma inner_step_consistent (X X_init : vec) (lam : Q) (xc : vec)
      (d : explanation) (w : world Slots Gen) (xc' : vec) (d' : explanation)
      (w' : world Slots Gen) :
  consistent self predict_class_fn X X_init xc d ->
  inner_step self predict_class_fn X lam (xc, d) w = (Ok (xc', d'), w') ->
  consistent self predict_class_fn X X_init xc' d'.
Proof.
  intros (Hxc & Hlen & Hrec) Hstep.
  apply inner_step_record in Hstep
    as (l & g & dist & c & p & cls & Hg & Hd & Hc & Ha & Hm & ->).
  destruct Hlen as (_ & H1 & H2 & H3 & H4 & H5 & H6 & H7).
  set (k := length (Xs d)) in *.
  unfold consistent. cbn [append_step Xs].
  split; [now rewrite last_last|].
  split.
  { unfold history_length.
    cbn [append_step Xs loss grads dists lambdas prob_cond prob classes].
    rewrite !length_app. cbn [length]. fold k. repeat split; lia. }
  intros i Hi. rewrite length_app in Hi. cbn [length] in Hi. fold k in Hi.
  unfold entry_consistent.
  cbn [append_step Xs loss grads dists lambdas prob_cond prob classes].
  change (X_init :: Xs d ++ [xc']) with ((X_init :: Xs d) ++ [xc']).
  rewrite (nth_snoc_old (X_init :: Xs d)) by (cbn [length]; fold k; lia).
  destruct (Nat.eq_dec i k) as [->|Hne].
  - rewrite (nth_snoc_new (loss d)), (nth_snoc_new (grads d)),
      (nth_snoc_new (dists d)), (nth_snoc_new (lambdas d)),
      (nth_snoc_new (prob_cond d)), (nth_snoc_new (prob d)),
      (nth_snoc_new (classes d)), (nth_snoc_new (Xs d))
      by (assumption || reflexivity).
    unfold k. rewrite nth_length_cons, <- Hxc.
    repeat split; assumption.
  - rewrite !nth_snoc_old by lia. apply Hrec. lia.
Qed.

Lemma entry_consistent_ext (X X_init : vec) (d d' : explanation) (i : nat) :
  Xs d' = Xs d -> loss d' = loss d -> grads d' = grads d ->
  dists d' = dists d -> lambdas d' = lambdas d ->
  prob_cond d' = prob_cond d -> prob d' = prob d -> classes d' = classes d ->
  entry_consistent self predict_class_fn X X_init d i ->
  entry_consistent self predict_class_fn X X_init d' i.
Proof.
  unfold entry_consistent. intros -> -> -> -> -> -> -> ->. exact (fun H => H).
Qed.

Lemma _minimize_wachter_loss_consistent (X X_init : vec)
      (w : world Slots Gen) (r : explanation) (w' : world Slots Gen) :
  _minimize_wachter_loss self predict_class_fn X X_init w = (Ok r, w') ->
  forall i, (i < length (Xs r))%nat ->
            entry_consistent self predict_class_fn X X_init r i.
Proof.
  intros H.
  eapply _minimize_wachter_loss_invariant
    with (Q := fun f _ => consistent self predict_class_fn X X_init (X_current f) (return_dict f))
    in H as (f' & -> & (_ & _ & HQ) & _).
  - intros i Hi. cbn [set_success Xs] in Hi.
    eapply entry_consistent_ext; [..|exact (HQ i Hi)]; reflexivity.
  - intros f w0 xc d w0' HQ _ Hloop. cbn [return_dict X_current].
    assert (Hc : consistent self predict_class_fn X X_init xc d).
    { eapply inner_loop_invariant
        with (P := fun xc d _ => consistent self predict_class_fn X X_init xc d);
        [|exact HQ|exact Hloop].
      intros xc0 d0 wa xc1 d1 wb Hc Hstep.
      eapply inner_step_consistent; eauto. }
    destruct Hc as (Hx & Hl & Hr). split; [exact Hx|]. split; [exact Hl|].
    intros i Hi. cbn [set_X_cf Xs] in Hi.
    eapply entry_consistent_ext; [..|exact (Hr i Hi)]; reflexivity.
  - cbn [return_dict X_current]. split; [reflexivity|].
    split; [repeat split|]. cbn [Xs length]. intros i Hi. lia.
Qed.

End HistoryFacts.

(** X23. In the history of a returning [explain], the loss and the gradient
    at position [i] are those at the candidate the step started from (the
    initial candidate for the first step, the candidate recorded at position
    [i - 1] afterwards) with the [lam] recorded at [i], while the distance, the
    tolerance flag, the class and the probability at position [i] are those
    of the candidate recorded at position [i], the one after the step. *)
Theorem history_entries_consistent
    {Slots Gen : Type} {optimizer : Optimizer Slots} {random : RandomState Gen}
    (self : CounterFactual) (X : vec) (w : world Slots Gen)
    (r : explanation) (w' : world Slots Gen) :
  explain self X w = (Ok r, w') ->
  exists pred_class X_init w1,
    argmax (concat (self_predict_fn self X)) = Ok pred_class /\
    _initialize self X w = (Ok X_init, w1) /\
    forall i, (i < length (Xs r))%nat ->
              entry_consistent self (class_fn self (Z.of_nat pred_class))
                X X_init r i.
Proof.
  unfold explain, mbind at 1, lift.
  destruct (argmax _) as [pred_class|e] eqn:Ea; [|discriminate].
  unfold mbind.
  destruct (_initialize self X w) as [[X_init|e] w1]; [|discriminate].
  intros H. exists pred_class, X_init, w1.
  split; [reflexivity|]. split; [reflexivity|].
  eapply _minimize_wachter_loss_consistent; eauto.
Qed.

Lemma history_entries_consistent_witness :
  exists r w',
    flat_run_2_1 = Some (r, w') /\
    exists pred_class X_init w1,
      argmax (concat (self_predict_fn (flat_explainer 2 1) [2; 3]))
      = Ok pred_class /\
      @_initialize nat (list Q) replay (flat_explainer 2 1) [2; 3] fresh_world
      = (Ok X_init, w1) /\
      forall i, (i < length (Xs r))%nat ->
                entry_consistent (flat_explainer 2 1)
                  (class_fn (flat_explainer 2 1) (Z.of_nat pred_class))
                  [2; 3] X_init r i.
Proof.
  eexists _, _. split; [reflexivity|].
  eapply (@history_entries_consistent nat (list Q)
            (gradient_descent (1 # 10)) replay
            (flat_explainer 2 1) [2; 3] fresh_world).
  vm_compute. reflexivity.
Defined.

(** ** The shape the gradient is fed with *)

(** One inner iteration whose gradient has not the shape of the placeholder
    raises before the optimizer runs. *)
Lemma inner_step_feed_refused
    {Slots Gen : Type} {optimizer : Optimizer Slots}
    (self : CounterFactual) (predict_class_fn : vec -> result Q)
    (X : vec) (lam : Q) (xc : vec) (d : explanation) (w : world Slots Gen)
    (l : Q) (g : vec) :
  get_wachter_grads xc predict_class_fn (distance_fn self) X
    (target_proba self) lam (epsilons self) (method self) = Ok (l, g) ->
  data_shape self <> [length xc] ->
  inner_step self predict_class_fn X lam (xc, d) w = (Raise ValueError, w).
Proof.
  intros Hg Hs. unfold inner_step, mbind at 1, lift. rewrite Hg.
  unfold mbind at 1, run_apply_grad.
  rewrite (get_wachter_grads_length _ _ _ _ _ _ _ _ Hg).
  destruct (Np.shape_eqb (data_shape self) [length xc]) eqn:E; [|reflexivity].
  now apply BatchFacts.shape_eqb_eq in E.
Qed.

(** X24. The gradient of the loss is an array of one axis, as long as the
    candidate has features, and the session accepts it only for a
    [data_shape] of that one axis. With any other [data_shape], one that
    starts with a batch size of one among them, [explain] raises
    [ValueError] in its first inner iteration, when the first loss and
    gradient have been computed, and the session is left as [_initialize]
    left it. *)
Theorem other_data_shapes_refused
    {Slots Gen : Type} {optimizer : Optimizer Slots} {random : RandomState Gen}
    (self : CounterFactual) (X : vec) (w : world Slots Gen)
    (n m pred_class : nat) (X_init : vec) (w1 : world Slots Gen)
    (l : Q) (g : vec) :
  max_iter self = S n -> max_lam_steps self = S m ->
  argmax (concat (self_predict_fn self X)) = Ok pred_class ->
  _initialize self X w = (Ok X_init, w1) ->
  get_wachter_grads X_init (class_fn self (Z.of_nat pred_class))
    (distance_fn self) X (target_proba self) (lam_init self) (epsilons self)
    (method self) = Ok (l, g) ->
  data_shape self <> [length X_init] ->
  explain self X w = (Raise ValueError, w1).
Proof.
  intros Hn Hm Ha Hi Hg Hs.
  unfold explain, mbind at 1, lift. rewrite Ha.
  unfold mbind at 1. rewrite Hi.
  unfold _minimize_wachter_loss, mbind at 1.
  rewrite Hm. cbn [outer_loop lam_steps]. rewrite Hm. cbn [Nat.eqb].
  rewrite Hn. cbn [inner_loop]. unfold mbind at 1 2.
  cbn [X_current return_dict lam].
  now rewrite (@inner_step_feed_refused _ _ _ self _ X _ _ _ w1 _ _ Hg Hs).
Qed.

Lemma other_data_shapes_refused_witness :
  explain_gd
    (mk_CounterFactual flat_predictor [1; 2]%nat cityblock (9 # 10)
       (TStr "other") 2 (1 # 100) (1 # 1000) 1 (5 # 100) (-10, 10)
       (EpsFloat (1 # 2)) "wachter" "identity")
    [2; 3] fresh_world
  = (Raise ValueError, fresh_world).
Proof.
  eapply (@other_data_shapes_refused nat (list Q)
            (gradient_descent (1 # 10)) replay
            (mk_CounterFactual flat_predictor [1; 2]%nat cityblock (9 # 10)
               (TStr "other") 2 (1 # 100) (1 # 1000) 1 (5 # 100) (-10, 10)
               (EpsFloat (1 # 2)) "wachter" "identity")
            [2; 3] fresh_world 1%nat 0%nat 0%nat [2; 3] fresh_world).
  - reflexivity.
  - reflexivity.
  - reflexivity.
  - reflexivity.
  - vm_compute. reflexivity.
  - discriminate.
Defined.
